(** * BGRAToYUY2Demo: the pixel-format conversion engine

    A shallow embedding of the two compute shaders (BGRA to YUY2 encode,
    NV12 to RGBA decode) and of the host code that sizes the buffers and
    issues the dispatch, followed by the properties of the specification.

    Conventions.
    - [uint]/[UINT] values are integers in [0, 2^32); every operation of
      the source is followed by its wrap-around, written [u32 (...)].
    - [float] values are rationals.  Every arithmetic operation and every
      literal of the source is followed by the rounding operator [fl] of
      a [Rounding]; the development is parametric in it.  Two instances
      are given: [exact] (real arithmetic, no rounding) and [binary32]
      (24-bit significand, round to nearest, ties to even).  Infinities
      and NaN are not modelled: the textures [Convert] binds hold 8-bit
      UNORM texels, and the buffers hold bytes.
    - Bytes are [Byte.byte]; memory is a list of bytes, little-endian.
    - The threads of a dispatch are a list of thread ids; what is proved
      of their writes does not depend on the order of the list. *)

From Stdlib Require Import ZArith QArith Qround Qminmax Qabs Qpower.
From Stdlib Require Import List Bool Lia Lqa Strings.Byte Morphisms.
From Stdlib Require Import Permutation.
Import ListNotations.

Local Open Scope Z_scope.

(** ** 32-bit unsigned integers *)

Definition u32 (z : Z) : Z := z mod 2 ^ 32.

(** [ceil(a / b)] over the mathematical integers, as the specification
    writes it. *)
Definition ceil_div (a b : Z) : Z := (a + b - 1) / b.

(** ** Floating point *)

(** The laws of a rounding operator that the proofs rely on.  They hold
    for the identity and for IEEE-754 round-to-nearest at any precision
    of at least 24 bits (away from underflow and overflow). *)
Class Rounding := {
  fl : Q -> Q;
  fl_mono : forall x y : Q, (x <= y)%Q -> (fl x <= fl y)%Q;
  fl_idem : forall x : Q, (fl (fl x) == fl x)%Q;
  fl_int : forall z : Z, Z.abs z <= 2 ^ 24 -> (fl (inject_Z z) == inject_Z z)%Q;
  fl_half : (fl (1 # 2) == 1 # 2)%Q;
  fl_double : forall x : Q, (fl (2 * fl x) == 2 * fl x)%Q
}.

Module HLSL.
Section Intrinsics.
Context {R : Rounding}.
Local Open Scope Q_scope.

(** A [float] literal. *)
Definition lit (q : Q) : Q := fl q.

Definition fadd (a b : Q) : Q := fl (a + b).
Definition fsub (a b : Q) : Q := fl (a - b).
Definition fmul (a b : Q) : Q := fl (a * b).
Definition fdiv (a b : Q) : Q := fl (a / b).

(** [clamp(x, lo, hi) = min(max(x, lo), hi)] and [saturate(x) =
    clamp(x, 0, 1)]. *)
Definition clamp (x lo hi : Q) : Q := Qmin (Qmax x lo) hi.
Definition saturate (x : Q) : Q := clamp x 0 1.

(** [round]: nearest integer, halfway cases to the nearest even. *)
Definition round_ne (x : Q) : Z :=
  let f := Qfloor x in
  match Qcompare (x - inject_Z f) (1 # 2) with
  | Lt => f
  | Gt => (f + 1)%Z
  | Eq => if Z.even f then f else (f + 1)%Z
  end.

Definition round (x : Q) : Q := inject_Z (round_ne x).

(** [(uint)x]: truncation toward zero, saturating at the ends of the
    [uint] range. *)
Definition Qtrunc (x : Q) : Z :=
  if Qle_bool 0 x then Qfloor x else Qceiling x.

Definition ftou (x : Q) : Z := Z.min (Z.max 0 (Qtrunc x)) (2 ^ 32 - 1).

(** [(float)n] for a [uint] [n]. *)
Definition utof (n : Z) : Q := fl (inject_Z n).
End Intrinsics.
End HLSL.

(** [float3] and [float4]; [r g b a] are the swizzle names of [x y z w]. *)
Module F3.
Record t := mk { x : Q; y : Q; z : Q }.
Definition r := x.
Definition g := y.
Definition b := z.
End F3.

Module F4.
Record t := mk { x : Q; y : Q; z : Q; w : Q }.
Definition r := x.
Definition g := y.
Definition b := z.
Definition a := w.
Definition rgb (p : t) : F3.t := F3.mk (r p) (g p) (b p).
End F4.

Definition uint2 : Type := Z * Z.

(** A bound 2D texture, as the shader sees it: [Load(uint3(x, y, 0))]. *)
Definition Texture2D : Type := Z -> Z -> F4.t.

(** The shader constant buffer [ConversionParams]. *)
Record ConversionParams := {
  ImageWidth : Z;
  ImageHeight : Z;
  OutputStride : Z;
  Padding : Z
}.

(** ** The BGRA to YUY2 shader, raw-buffer variant *)

Module Encode.
Section Shader.
Context {R : Rounding}.
Import HLSL.

Definition RGBToYUV (rgb : F3.t) : F3.t :=
  let rgb := F3.mk (saturate (F3.r rgb)) (saturate (F3.g rgb))
                   (saturate (F3.b rgb)) in
  let Y := fadd (fadd (fmul (lit 0.299) (F3.r rgb))
                      (fmul (lit 0.587) (F3.g rgb)))
                (fmul (lit 0.114) (F3.b rgb)) in
  let U := fadd (fsub (fmul (lit (-0.14713)) (F3.r rgb))
                      (fmul (lit 0.28886) (F3.g rgb)))
                (fmul (lit 0.436) (F3.b rgb)) in
  let V := fsub (fsub (fmul (lit 0.615) (F3.r rgb))
                      (fmul (lit 0.51499) (F3.g rgb)))
                (fmul (lit 0.10001) (F3.b rgb)) in
  let Y := fadd (fmul Y (lit 219)) (lit 16) in
  let U := fadd (fmul (fadd U (lit 0.5)) (lit 224)) (lit 16) in
  let V := fadd (fmul (fadd V (lit 0.5)) (lit 224)) (lit 16) in
  let Y := clamp Y (lit 16) (lit 235) in
  let U := clamp U (lit 16) (lit 240) in
  let V := clamp V (lit 16) (lit 240) in
  F3.mk Y U V.

Definition PackYUY2 (y0 u y1 v : Z) : Z :=
  Z.lor (Z.lor (Z.lor (u32 (Z.shiftl v 24)) (u32 (Z.shiftl y1 16)))
               (u32 (Z.shiftl u 8)))
        y0.

(** The four 8-bit values a thread computes from its two pixels
    (source lines "BGRA -> RGB" to "(uint)round(v_avg)"). *)
Record Macropixel := { Y0 : Z; U : Z; Y1 : Z; V : Z }.

Definition encode_pair (pixel0 pixel1 : F4.t) : Macropixel :=
  let rgb0 := F3.mk (F4.b pixel0) (F4.g pixel0) (F4.r pixel0) in
  let rgb1 := F3.mk (F4.b pixel1) (F4.g pixel1) (F4.r pixel1) in
  let yuv0 := RGBToYUV rgb0 in
  let yuv1 := RGBToYUV rgb1 in
  let u_avg := fmul (fadd (F3.y yuv0) (F3.y yuv1)) (lit 0.5) in
  let v_avg := fmul (fadd (F3.z yuv0) (F3.z yuv1)) (lit 0.5) in
  {| Y0 := ftou (round (F3.x yuv0));
     Y1 := ftou (round (F3.x yuv1));
     U := ftou (round u_avg);
     V := ftou (round v_avg) |}.

Definition pack (m : Macropixel) : Z := PackYUY2 (Y0 m) (U m) (Y1 m) (V m).

(** The two pixels a thread loads; [None] when the bounds check
    returns. *)
Definition load_pair (P : ConversionParams) (InputTexture : Texture2D)
    (id : uint2) : option (F4.t * F4.t) :=
  let pixelPos : uint2 := (u32 (fst id * 2), snd id) in
  if (ImageWidth P <=? fst pixelPos) || (ImageHeight P <=? snd pixelPos)
  then None
  else
    let pixel0 := InputTexture (fst pixelPos) (snd pixelPos) in
    let pixel1 :=
      if u32 (fst pixelPos + 1) <? ImageWidth P
      then InputTexture (u32 (fst pixelPos + 1)) (snd pixelPos)
      else pixel0 in
    Some (pixel0, pixel1).

(** One thread of [CSMain]: [Some (byteOffset, word)] when it reaches
    [OutputBuffer.Store], [None] when it writes nothing. *)
Definition CSMain (P : ConversionParams) (InputTexture : Texture2D)
    (id : uint2) : option (Z * Z) :=
  match load_pair P InputTexture id with
  | None => None
  | Some (pixel0, pixel1) =>
      let pixelPos : uint2 := (u32 (fst id * 2), snd id) in
      let packedYUY2 := pack (encode_pair pixel0 pixel1) in
      let outputIndex :=
        u32 (u32 (snd pixelPos * (u32 (ImageWidth P + 1) / 2)) + fst id) in
      let byteOffset := u32 (outputIndex * 4) in
      let maxIndex := u32 ((u32 (ImageWidth P + 1) / 2) * ImageHeight P) in
      if outputIndex <? maxIndex then Some (byteOffset, packedYUY2)
      else None
  end.
End Shader.
End Encode.

(** ** Real arithmetic as a rounding operator *)

#[refine] Instance exact : Rounding := {| fl := fun q => q |}.
Proof.
  - intros x y H; exact H.
  - intros x; reflexivity.
  - intros z _; reflexivity.
  - reflexivity.
  - intros x; reflexivity.
Defined.

(** ** The BGRA to YUY2 shader, structured-buffer variant *)

Module EncodeMatrix.
Section Shader.
Context {R : Rounding}.
Import HLSL.

(** One row of [mul(float3x3, float3)]. *)
Definition dot3 (m0 m1 m2 : Q) (v : F3.t) : Q :=
  fadd (fadd (fmul m0 (F3.x v)) (fmul m1 (F3.y v))) (fmul m2 (F3.z v)).

Definition RGBToYUV (rgb : F3.t) : F3.t :=
  let yuv := F3.mk (dot3 (lit 0.299) (lit 0.587) (lit 0.114) rgb)
                   (dot3 (lit (-0.169)) (lit (-0.331)) (lit 0.500) rgb)
                   (dot3 (lit 0.500) (lit (-0.419)) (lit (-0.081)) rgb) in
  let yuv := F3.mk (fadd (fmul (F3.x yuv) (lit 219)) (lit 16))
                   (fadd (fmul (F3.y yuv) (lit 224)) (lit 128))
                   (fadd (fmul (F3.z yuv) (lit 224)) (lit 128)) in
  F3.mk (clamp (F3.x yuv) (lit 16) (lit 235))
        (clamp (F3.y yuv) (lit 16) (lit 240))
        (clamp (F3.z yuv) (lit 16) (lit 240)).

Definition encode_pair (pixel0 pixel1 : F4.t) : Encode.Macropixel :=
  let rgb0 := F4.rgb pixel0 in
  let rgb1 := F4.rgb pixel1 in
  let yuv0 := RGBToYUV rgb0 in
  let yuv1 := RGBToYUV rgb1 in
  let u_avg := fmul (fadd (F3.y yuv0) (F3.y yuv1)) (lit 0.5) in
  let v_avg := fmul (fadd (F3.z yuv0) (F3.z yuv1)) (lit 0.5) in
  {| Encode.Y0 := ftou (round (F3.x yuv0));
     Encode.Y1 := ftou (round (F3.x yuv1));
     Encode.U := ftou (round u_avg);
     Encode.V := ftou (round v_avg) |}.

(** One thread of [CSMain]: [Some (outputIndex, word)] for the element
    assigned in [OutputBuffer], [None] when the bounds check returns. *)
Definition CSMain (P : ConversionParams) (InputTexture : Texture2D)
    (id : uint2) : option (Z * Z) :=
  let pixelPos : uint2 := (u32 (fst id * 2), snd id) in
  if (ImageWidth P <=? fst pixelPos) || (ImageHeight P <=? snd pixelPos)
  then None
  else
    let pixel0 := InputTexture (fst pixelPos) (snd pixelPos) in
    let hasSecondPixel := u32 (fst pixelPos + 1) <? ImageWidth P in
    let pixel1 :=
      if hasSecondPixel
      then InputTexture (u32 (fst pixelPos + 1)) (snd pixelPos)
      else pixel0 in
    let packedYUY2 := Encode.pack (encode_pair pixel0 pixel1) in
    let outputIndex :=
      u32 (u32 (snd pixelPos * (u32 (ImageWidth P + 1) / 2))
           + fst pixelPos / 2) in
    Some (outputIndex, packedYUY2).
End Shader.
End EncodeMatrix.

(** ** Byte-addressed buffers *)

Definition byte_val (b : byte) : Z := Z.of_N (Byte.to_N b).

Definition byte_of_Z (z : Z) : byte :=
  match Byte.of_N (Z.to_N (z mod 256)) with
  | Some b => b
  | None => x00
  end.

(** The bytes of a buffer visible through a raw view. *)
Definition ByteAddressBuffer : Type := list byte.

Fixpoint le_combine (bs : list byte) : Z :=
  match bs with
  | [] => 0
  | b :: bs' => Z.lor (byte_val b) (Z.shiftl (le_combine bs') 8)
  end.

Fixpoint le_split (n : nat) (w : Z) : list byte :=
  match n with
  | O => []
  | S n' => byte_of_Z w :: le_split n' (Z.shiftr w 8)
  end.

Definition bytes_at (buf : ByteAddressBuffer) (addr : Z) (n : nat) : list byte :=
  firstn n (skipn (Z.to_nat addr) buf).

Definition byte_at (buf : ByteAddressBuffer) (addr : Z) : Z :=
  byte_val (nth (Z.to_nat addr) buf x00).

(** [Store(address, value)] of a 32-bit word; a store that is not wholly
    inside the view is dropped. *)
Definition Store (buf : ByteAddressBuffer) (addr w : Z) : ByteAddressBuffer :=
  if (0 <=? addr) && (addr + 4 <=? Z.of_nat (length buf))
  then firstn (Z.to_nat addr) buf ++ le_split 4 w
       ++ skipn (Z.to_nat addr + 4) buf
  else buf.

(** ** The NV12 to RGBA shader *)

Record NV12ConversionParams := {
  NV12ImageWidth : Z;
  NV12ImageHeight : Z;
  YPlaneStride : Z;
  UVPlaneStride : Z
}.

Module Decode.
Section Shader.
Context {R : Rounding}.
Import HLSL.

(** Direct3D leaves the result of a raw load undefined when the byte
    address is not a multiple of 4; [unaligned_load] stands for what
    the device returns then. *)
Variable unaligned_load : ByteAddressBuffer -> Z -> Z.

(** [Load(address)]: the 32-bit little-endian word at [address]; a
    load outside the view returns 0. *)
Definition Load (buf : ByteAddressBuffer) (addr : Z) : Z :=
  if addr mod 4 =? 0
  then if addr + 4 <=? Z.of_nat (length buf)
       then le_combine (bytes_at buf addr 4)
       else 0
  else unaligned_load buf addr.

Definition YUVToRGB (y u v : Q) : F3.t :=
  let y := fdiv (fsub y (lit 16)) (lit 219) in
  let u := fdiv (fsub u (lit 128)) (lit 224) in
  let v := fdiv (fsub v (lit 128)) (lit 224) in
  let yuv := F3.mk y u v in
  let rgb :=
    F3.mk (EncodeMatrix.dot3 (lit 1.000) (lit 0.000) (lit 1.402) yuv)
          (EncodeMatrix.dot3 (lit 1.000) (lit (-0.344)) (lit (-0.714)) yuv)
          (EncodeMatrix.dot3 (lit 1.000) (lit 1.772) (lit 0.000) yuv) in
  F3.mk (saturate (F3.x rgb)) (saturate (F3.y rgb)) (saturate (F3.z rgb)).

(** The three values a thread loads and the byte offsets it loads
    them from. *)
Record Fetch := {
  yOffset : Z; uvOffset : Z;
  yValue : Z; uValue : Z; vValue : Z
}.

Definition fetch (P : NV12ConversionParams) (InputBuffer : ByteAddressBuffer)
    (pixelPos : uint2) : Fetch :=
  let yOffset := u32 (u32 (snd pixelPos * YPlaneStride P) + fst pixelPos) in
  let yValue := Load InputBuffer yOffset in
  let uvX := u32 (fst pixelPos / 2 * 2) in
  let uvY := snd pixelPos / 2 in
  let uvPlaneOffset := u32 (NV12ImageWidth P * NV12ImageHeight P) in
  let uvOffset := u32 (u32 (uvPlaneOffset + u32 (uvY * UVPlaneStride P)) + uvX) in
  let uValue := Load InputBuffer uvOffset in
  let vValue := Load InputBuffer (u32 (uvOffset + 1)) in
  {| yOffset := yOffset; uvOffset := uvOffset;
     yValue := yValue; uValue := uValue; vValue := vValue |}.

(** One thread of [CSMain]: [Some (pixelPos, rgba)] for the texel
    assigned in [OutputTexture], [None] when the bounds check returns. *)
Definition CSMain (P : NV12ConversionParams) (InputBuffer : ByteAddressBuffer)
    (id : uint2) : option (uint2 * F4.t) :=
  let pixelPos : uint2 := id in
  if (NV12ImageWidth P <=? fst pixelPos) || (NV12ImageHeight P <=? snd pixelPos)
  then None
  else
    let f := fetch P InputBuffer pixelPos in
    let y := utof (yValue f) in
    let u := utof (uValue f) in
    let v := utof (vValue f) in
    let rgb := YUVToRGB y u v in
    let rgba := F4.mk (F3.x rgb) (F3.y rgb) (F3.z rgb) (lit 1.0) in
    Some (pixelPos, rgba).
End Shader.
End Decode.

(** Conversion of a [float] channel to the byte of an 8-bit UNORM texel:
    clamp to [0, 1], scale by 255, add one half and drop the fraction. *)
Definition float_to_unorm8 (c : Q) : Z :=
  Qfloor (HLSL.saturate c * 255 + (1 # 2))%Q.

(** Conversion of the byte of an 8-bit UNORM texel to [float]. *)
Definition unorm8_to_float {R : Rounding} (c : Z) : Q :=
  fl (inject_Z c / 255)%Q.

(** ** Dispatch of a [numthreads(16, 16, 1)] shader *)

Definition zrange (n : Z) : list Z := map Z.of_nat (seq 0 (Z.to_nat n)).

(** [SV_DispatchThreadID] of the threads of one group. *)
Definition group_threads (g : uint2) : list uint2 :=
  map (fun t : uint2 => (fst g * 16 + fst t, snd g * 16 + snd t))
      (list_prod (zrange 16) (zrange 16)).

(** The threads of [Dispatch(groupsX, groupsY, 1)], in some order. *)
Definition dispatch_threads (groupsX groupsY : Z) : list uint2 :=
  flat_map group_threads (list_prod (zrange groupsX) (zrange groupsY)).

(** What the threads of a dispatch write, thread by thread. *)
Definition writes {A : Type} (kernel : uint2 -> option A)
    (threads : list uint2) : list A :=
  flat_map (fun id => match kernel id with Some s => [s] | None => [] end)
           threads.

(** The buffer after a list of stores [(byteOffset, word)], in order. *)
Definition apply_stores (buf : ByteAddressBuffer) (stores : list (Z * Z))
    : ByteAddressBuffer :=
  fold_left (fun b s => Store b (fst s) (snd s)) stores buf.

(** ** Host code *)

Definition HRESULT : Type := Z.
Definition S_OK : HRESULT := 0.
Definition E_FAIL : HRESULT := -2147467259.
Definition E_INVALIDARG : HRESULT := -2147024809.
Definition FAILED (hr : HRESULT) : bool := hr <? 0.
Definition SUCCEEDED (hr : HRESULT) : bool := 0 <=? hr.

(** [DXGI_FORMAT] values, numbered as in the message logged by
    [Convert]. *)
Definition DXGI_FORMAT : Type := Z.
Definition DXGI_FORMAT_R8G8B8A8_UNORM : DXGI_FORMAT := 28.
Definition DXGI_FORMAT_R8G8B8A8_UNORM_SRGB : DXGI_FORMAT := 29.
Definition DXGI_FORMAT_B8G8R8A8_UNORM : DXGI_FORMAT := 87.
Definition DXGI_FORMAT_B8G8R8A8_UNORM_SRGB : DXGI_FORMAT := 91.

Inductive D3D11_USAGE :=
  D3D11_USAGE_DEFAULT | D3D11_USAGE_DYNAMIC | D3D11_USAGE_STAGING.
Inductive BindFlag := BIND_NONE | D3D11_BIND_UNORDERED_ACCESS.
Inductive CpuAccess :=
  CPU_ACCESS_NONE | D3D11_CPU_ACCESS_READ | D3D11_CPU_ACCESS_WRITE.
Inductive MiscFlag := MISC_NONE | D3D11_RESOURCE_MISC_BUFFER_ALLOW_RAW_VIEWS.

Record D3D11_BUFFER_DESC := {
  ByteWidth : Z;
  Usage : D3D11_USAGE;
  BindFlags : BindFlag;
  CPUAccessFlags : CpuAccess;
  MiscFlags : MiscFlag;
  StructureByteStride : Z
}.

Inductive Message :=
| MsgCreateOutputBufferFailed
| MsgCreateNV12InputBufferFailed
| MsgInputTextureNull
| MsgUnsupportedFormat (fmt : DXGI_FORMAT)
| MsgCreateSRVFailed (hr : HRESULT)
| MsgConversionFailed
| MsgConversionCompleted.

(** What the host does to the device, the context and the log. *)
Inductive Call :=
| LogError (m : Message)
| LogMessage (m : Message)
| PrintHResultFailed (hr : HRESULT) (what : Z)
| CreateBuffer (desc : D3D11_BUFFER_DESC)
| CreateShaderResourceView (fmt : DXGI_FORMAT)
| CreateUnorderedAccessView (NumElements : Z)
| MapConstantBuffer
| WriteConstantBuffer (P : ConversionParams)
| UnmapConstantBuffer
| CSSetShader
| CSSetShaderResources (bound : bool)
| CSSetUnorderedAccessViews (bound : bool)
| CSSetConstantBuffers
| Dispatch (x y z : Z)
| ReleaseView
| CopyResource
| MapStaging
| UnmapStaging
| ReleaseStaging.

(** The results the device returns to the calls that can fail. *)
Record Device := {
  CreateBuffer_result : HRESULT;
  CreateShaderResourceView_result : HRESULT;
  CreateUnorderedAccessView_result : HRESULT;
  Map_result : HRESULT
}.

(** A computation of the host: it appends to the log of calls and ends
    with a value, with a [return hr], or with a thrown exception. *)
Inductive Outcome (A : Type) :=
| Value (a : A)
| Return (hr : HRESULT)
| Throw.
Arguments Value {A} a.
Arguments Return {A} hr.
Arguments Throw {A}.

Definition Host (A : Type) : Type := list Call -> Outcome A * list Call.

Definition ret {A : Type} (a : A) : Host A := fun log => (Value a, log).

Definition bind {A B : Type} (m : Host A) (k : A -> Host B) : Host B :=
  fun log =>
    match m log with
    | (Value a, log') => k a log'
    | (Return hr, log') => (Return hr, log')
    | (Throw, log') => (Throw, log')
    end.

Definition call (c : Call) : Host unit := fun log => (Value tt, log ++ [c]).
Definition return_ {A : Type} (hr : HRESULT) : Host A := fun log => (Return hr, log).
Definition throw {A : Type} : Host A := fun log => (Throw, log).

Notation "x <- m ;; k" := (bind m (fun x => k))
  (at level 61, m at next level, right associativity).
Notation "m ;;; k" := (bind m (fun _ => k))
  (at level 61, right associativity).

Definition when (b : bool) (m : Host unit) : Host unit :=
  if b then m else ret tt.

(** [ThrowIfFailed] of Utils.h; [what] numbers the call site. *)
Definition ThrowIfFailed (hr : HRESULT) (what : Z) : Host unit :=
  when (FAILED hr) (call (PrintHResultFailed hr what) ;;; throw).

(** [try { body } catch (...) { LogError(msg); return E_FAIL; }], run
    from an empty log. *)
Definition try_catch (body : Host HRESULT) (msg : Message)
    : HRESULT * list Call :=
  match body [] with
  | (Value hr, log) => (hr, log)
  | (Return hr, log) => (hr, log)
  | (Throw, log) => (E_FAIL, log ++ [LogError msg])
  end.

Module BGRAToYUY2Converter.

Definition yuy2Size (width height : Z) : Z :=
  u32 (u32 (u32 (width + 1) / 2 * height) * 4).

(** [CreateOutputBuffer]: the result and the calls made. *)
Definition CreateOutputBuffer (dev : Device) (width height : Z)
    : HRESULT * list Call :=
  let bufferDesc :=
    {| ByteWidth := yuy2Size width height;
       Usage := D3D11_USAGE_DEFAULT;
       BindFlags := D3D11_BIND_UNORDERED_ACCESS;
       CPUAccessFlags := CPU_ACCESS_NONE;
       MiscFlags := D3D11_RESOURCE_MISC_BUFFER_ALLOW_RAW_VIEWS;
       StructureByteStride := 0 |} in
  let hr := CreateBuffer_result dev in
  (hr, CreateBuffer bufferDesc ::
       (if FAILED hr then [LogError MsgCreateOutputBufferFailed] else [])).

Definition supported_format (fmt : DXGI_FORMAT) : bool :=
  (fmt =? DXGI_FORMAT_B8G8R8A8_UNORM) || (fmt =? DXGI_FORMAT_R8G8B8A8_UNORM)
  || (fmt =? DXGI_FORMAT_B8G8R8A8_UNORM_SRGB)
  || (fmt =? DXGI_FORMAT_R8G8B8A8_UNORM_SRGB).

Definition srv_format (fmt : DXGI_FORMAT) : DXGI_FORMAT :=
  if fmt =? DXGI_FORMAT_B8G8R8A8_UNORM_SRGB then DXGI_FORMAT_B8G8R8A8_UNORM
  else if fmt =? DXGI_FORMAT_R8G8B8A8_UNORM_SRGB then DXGI_FORMAT_R8G8B8A8_UNORM
  else fmt.

Definition params (width height : Z) : ConversionParams :=
  {| ImageWidth := width;
     ImageHeight := height;
     OutputStride := u32 (u32 (width + 1) / 2 * 4);
     Padding := 0 |}.

Definition dispatchX (width : Z) : Z := u32 (width + 31) / 32.
Definition dispatchY (height : Z) : Z := u32 (height + 15) / 16.

(** The body of the [try] block of [Convert].  [inputTexture] is the
    format in the texture's description, [None] for a null pointer;
    [elapsed] is the number of seconds since the last success log. *)
Definition Convert_body (dev : Device) (inputTexture : option DXGI_FORMAT)
    (width height : Z) (elapsed : Z) : Host HRESULT :=
  match inputTexture with
  | None => call (LogError MsgInputTextureNull) ;;; return_ E_INVALIDARG
  | Some Format =>
      when (negb (supported_format Format))
           (call (LogError (MsgUnsupportedFormat Format)) ;;;
            return_ E_INVALIDARG) ;;;
      call (CreateShaderResourceView (srv_format Format)) ;;;
      let srvResult := CreateShaderResourceView_result dev in
      when (FAILED srvResult)
           (call (LogError (MsgCreateSRVFailed srvResult)) ;;;
            return_ srvResult) ;;;
      call (CreateUnorderedAccessView
              (u32 (u32 (u32 (width + 1) / 2 * height) * 4) / 4)) ;;;
      ThrowIfFailed (CreateUnorderedAccessView_result dev) 1 ;;;
      call MapConstantBuffer ;;;
      ThrowIfFailed (Map_result dev) 2 ;;;
      call (WriteConstantBuffer (params width height)) ;;;
      call UnmapConstantBuffer ;;;
      call CSSetShader ;;;
      call (CSSetShaderResources true) ;;;
      call (CSSetUnorderedAccessViews true) ;;;
      call CSSetConstantBuffers ;;;
      call (Dispatch (dispatchX width) (dispatchY height) 1) ;;;
      call (CSSetShaderResources false) ;;;
      call (CSSetUnorderedAccessViews false) ;;;
      call ReleaseView ;;;
      call ReleaseView ;;;
      when (10 <=? elapsed) (call (LogMessage MsgConversionCompleted)) ;;;
      ret S_OK
  end.

(** [Convert].  [outputBuffer] tells whether the pointer is non-null. *)
Definition Convert (m_initialized : bool) (dev : Device)
    (inputTexture : option DXGI_FORMAT) (outputBuffer : bool)
    (width height : Z) (elapsed : Z) : HRESULT * list Call :=
  if negb m_initialized || negb (match inputTexture with Some _ => true | None => false end)
     || negb outputBuffer
  then (E_INVALIDARG, [])
  else try_catch (Convert_body dev inputTexture width height elapsed)
                 MsgConversionFailed.

(** [ReadOutputBuffer]: the result, the value left in [dataSize] and
    the calls made.  [buffer] and [outData] tell whether the pointers
    are non-null, [dataSize0] is the value of [dataSize] on entry. *)
Definition ReadOutputBuffer (dev : Device) (buffer : bool)
    (width height : Z) (outData : bool) (dataSize0 : Z)
    : HRESULT * Z * list Call :=
  if negb buffer || negb outData then (E_INVALIDARG, dataSize0, [])
  else
    let dataSize := u32 (u32 (u32 (width + 1) / 2 * height) * 4) in
    let stagingDesc :=
      {| ByteWidth := dataSize;
         Usage := D3D11_USAGE_STAGING;
         BindFlags := BIND_NONE;
         CPUAccessFlags := D3D11_CPU_ACCESS_READ;
         MiscFlags := MISC_NONE;
         StructureByteStride := 0 |} in
    let hr := CreateBuffer_result dev in
    if FAILED hr then (hr, dataSize, [CreateBuffer stagingDesc])
    else
      let hr := Map_result dev in
      (hr, dataSize,
       [CreateBuffer stagingDesc; CopyResource; MapStaging]
       ++ (if SUCCEEDED hr then [UnmapStaging] else [])
       ++ [ReleaseStaging]).

End BGRAToYUY2Converter.

Module NV12ToRGBAConverter.

Definition yPlaneSize (width height : Z) : Z := u32 (width * height).
Definition uvPlaneSize (width height : Z) : Z := u32 (width * height) / 2.
Definition totalSize (width height : Z) : Z :=
  u32 (yPlaneSize width height + uvPlaneSize width height).

Definition CreateNV12InputBuffer (dev : Device) (width height : Z)
    : HRESULT * list Call :=
  let bufferDesc :=
    {| ByteWidth := totalSize width height;
       Usage := D3D11_USAGE_DEFAULT;
       BindFlags := D3D11_BIND_UNORDERED_ACCESS;
       CPUAccessFlags := CPU_ACCESS_NONE;
       MiscFlags := D3D11_RESOURCE_MISC_BUFFER_ALLOW_RAW_VIEWS;
       StructureByteStride := 0 |} in
  let hr := CreateBuffer_result dev in
  (hr, CreateBuffer bufferDesc ::
       (if FAILED hr then [LogError MsgCreateNV12InputBufferFailed] else [])).

End NV12ToRGBAConverter.


(** ** IEEE-754 binary32 as a rounding operator

    Round to nearest, ties to even, onto the values [m * 2^k] with a
    24-bit significand [m].  The exponent range is not bounded: overflow
    and subnormal numbers are outside this model. *)

Definition pow2 (k : Z) : Q := (2 ^ k)%Q.

(** The exponent [e] with [2^e <= |q| < 2^(e+1)], for [q] other than 0. *)
Definition binade (q : Q) : Z :=
  let e0 := Z.log2 (Z.abs (Qnum q)) - Z.log2 (Zpos (Qden q)) in
  if Qle_bool (pow2 e0) (Qabs q) then e0 else e0 - 1.

Definition ulp32 (q : Q) : Q := pow2 (binade q - 23).

Definition round_binary32 (q : Q) : Q :=
  (inject_Z (HLSL.round_ne (q / ulp32 q)) * ulp32 q)%Q.

(** A value [m * 2^k] with a 24-bit significand [m]. *)
Definition normal (q : Q) : Prop :=
  exists m k : Z, 2 ^ 23 <= Z.abs m < 2 ^ 24 /\ (q == inject_Z m * pow2 k)%Q.

(** ** Vocabulary of the specification *)

(** The four bytes a [Store] of [w] leaves in memory, in address order. *)
Definition word_bytes (w : Z) : list Z := map byte_val (le_split 4 w).

(** A macropixel [Y0, U, Y1, V] within the studio range. *)
Definition studio_range (macropixel : list Z) : Prop :=
  match macropixel with
  | [y0; u; y1; v] =>
      16 <= y0 <= 235 /\ 16 <= u <= 240 /\ 16 <= y1 <= 235 /\ 16 <= v <= 240
  | _ => False
  end.

(** The range of a [float3] returned by either [RGBToYUV]. *)
Definition yuv_in_range (yuv : F3.t) : Prop :=
  ((16 <= F3.x yuv)%Q /\ (F3.x yuv <= 235)%Q)
  /\ ((16 <= F3.y yuv)%Q /\ (F3.y yuv <= 240)%Q)
  /\ ((16 <= F3.z yuv)%Q /\ (F3.z yuv <= 240)%Q).

(** The luma and chroma bytes of a single pixel: its own [RGBToYUV]
    components, quantized like the shader quantizes, with no averaging. *)
Section OwnBytes.
Context {R : Rounding}.

Definition own_yuv (pixel : F4.t) : F3.t :=
  Encode.RGBToYUV (F3.mk (F4.b pixel) (F4.g pixel) (F4.r pixel)).

Definition own_Y (pixel : F4.t) : Z :=
  HLSL.ftou (HLSL.round (F3.x (own_yuv pixel))).
Definition own_U (pixel : F4.t) : Z :=
  HLSL.ftou (HLSL.round (F3.y (own_yuv pixel))).
Definition own_V (pixel : F4.t) : Z :=
  HLSL.ftou (HLSL.round (F3.z (own_yuv pixel))).

(** Values that rounding leaves unchanged. *)
Definition representable (x : Q) : Prop := (fl x == x)%Q.

End OwnBytes.

(** The byte triple of a [float3] of luma and chroma, quantized like the
    encode shader quantizes. *)
Definition yuv_bytes (yuv : F3.t) : Z * Z * Z :=
  (HLSL.ftou (HLSL.round (F3.x yuv)), HLSL.ftou (HLSL.round (F3.y yuv)),
   HLSL.ftou (HLSL.round (F3.z yuv))).

(** What [Load] returns for a texel of an 8-bit UNORM view, given the four
    bytes of the texel in memory order: Direct3D delivers every channel
    under its own name, whatever the byte order of the format. *)
Definition texel_fetch {R : Rounding} (fmt : DXGI_FORMAT) (texel : list Z)
    : F4.t :=
  match texel with
  | [b0; b1; b2; b3] =>
      if fmt =? DXGI_FORMAT_B8G8R8A8_UNORM
      then F4.mk (unorm8_to_float b2) (unorm8_to_float b1)
                 (unorm8_to_float b0) (unorm8_to_float b3)
      else F4.mk (unorm8_to_float b0) (unorm8_to_float b1)
                 (unorm8_to_float b2) (unorm8_to_float b3)
  | _ => F4.mk 0 0 0 0
  end.

(** The R, G, B bytes the decode shader stores for the luma and chroma
    bytes [y], [u], [v]. *)
Definition decode_bytes {R : Rounding} (y u v : Z) : Z * Z * Z :=
  let rgb := Decode.YUVToRGB (HLSL.utof y) (HLSL.utof u) (HLSL.utof v) in
  (float_to_unorm8 (F3.x rgb), float_to_unorm8 (F3.y rgb),
   float_to_unorm8 (F3.z rgb)).

(** Encode of a pixel paired with itself, then decode of the macropixel. *)
Definition round_trip {R : Rounding} (pixel : F4.t) : Z * Z * Z :=
  let m := Encode.encode_pair pixel pixel in
  decode_bytes (Encode.Y0 m) (Encode.U m) (Encode.V m).

Definition round_trip_matrix {R : Rounding} (pixel : F4.t) : Z * Z * Z :=
  let m := EncodeMatrix.encode_pair pixel pixel in
  decode_bytes (Encode.Y0 m) (Encode.U m) (Encode.V m).

(** Largest difference, over the three channels, between two colours. *)
Definition channel_distance (c d : Z * Z * Z) : Z :=
  let '(c0, c1, c2) := c in
  let '(d0, d1, d2) := d in
  Z.max (Z.abs (c0 - d0)) (Z.max (Z.abs (c1 - d1)) (Z.abs (c2 - d2))).

Definition uint2_eq_dec (a b : uint2) : {a = b} + {a <> b}.
Proof. decide equality; apply Z.eq_dec. Defined.

(** The calls that do work on the device: everything but logging. *)
Definition is_work (c : Call) : bool :=
  match c with
  | LogError _ | LogMessage _ | PrintHResultFailed _ _ => false
  | _ => true
  end.

(** The colour that comes back for a solid red image (R = 255, G = 0,
    B = 0), for the two byte orders that [Convert] accepts. *)
Definition red_round_trips {R : Rounding} : list (Z * Z * Z) :=
  [round_trip (texel_fetch DXGI_FORMAT_B8G8R8A8_UNORM [0; 0; 255; 255]);
   round_trip (texel_fetch DXGI_FORMAT_R8G8B8A8_UNORM [255; 0; 0; 255])].

(** ** [NV12ToRGBAConverter]: upload and conversion *)

(** [memcpy(dst + offset, src, n)] on a vector: the [n] first bytes of
    [src] replace the bytes [offset .. offset + n - 1] of [dst]. *)
Definition memcpy (dst : list byte) (offset : Z) (src : list byte) (n : Z)
    : list byte :=
  firstn (Z.to_nat offset) dst ++ firstn (Z.to_nat n) src
  ++ skipn (Z.to_nat (offset + n)) dst.

Module NV12Host.

Inductive Message :=
| MsgConversionFailed
| MsgConversionCompleted.

(** What [WriteNV12Data] and [Convert] do to the device, the context
    and the log. *)
Inductive Call :=
| LogError (m : Message)
| LogMessage (m : Message)
| PrintHResultFailed (hr : HRESULT) (what : Z)
| CreateStagingBuffer (desc : D3D11_BUFFER_DESC)
| MapStaging
| WriteStaging (data : list byte)
| UnmapStaging
| CopyResource
| ReleaseStaging
| CreateInputUAV (NumElements : Z)
| CreateOutputUAV (fmt : DXGI_FORMAT)
| MapConstantBuffer
| WriteConstantBuffer (P : NV12ConversionParams)
| UnmapConstantBuffer
| CSSetShader
| CSSetUnorderedAccessViews (bound : bool)
| CSSetConstantBuffers
| Dispatch (x y z : Z)
| ReleaseInputUAV
| ReleaseOutputUAV.

(** The results the device returns to the calls that can fail. *)
Record Results := {
  CreateBuffer_result : HRESULT;
  MapStaging_result : HRESULT;
  CreateInputUAV_result : HRESULT;
  CreateOutputUAV_result : HRESULT;
  MapConstantBuffer_result : HRESULT
}.

(** [WriteNV12Data]: the result, the bytes copied into [buffer] if any,
    and the calls made.  [buffer] tells whether the pointer is non-null;
    [yPlaneData] and [uvPlaneData] are the bytes readable from the two
    pointers, [None] for a null pointer. *)
Definition WriteNV12Data (dev : Results) (buffer : bool)
    (yPlaneData uvPlaneData : option (list byte)) (width height : Z)
    : HRESULT * option ByteAddressBuffer * list Call :=
  match buffer, yPlaneData, uvPlaneData with
  | true, Some yPlaneData, Some uvPlaneData =>
      let yPlaneSize := u32 (width * height) in
      let uvPlaneSize := u32 (width * height) / 2 in
      let totalSize := u32 (yPlaneSize + uvPlaneSize) in
      let nv12Data := repeat x00 (Z.to_nat totalSize) in
      let nv12Data := memcpy nv12Data 0 yPlaneData yPlaneSize in
      let nv12Data := memcpy nv12Data yPlaneSize uvPlaneData uvPlaneSize in
      let stagingDesc :=
        {| ByteWidth := totalSize;
           Usage := D3D11_USAGE_STAGING;
           BindFlags := BIND_NONE;
           CPUAccessFlags := D3D11_CPU_ACCESS_WRITE;
           MiscFlags := MISC_NONE;
           StructureByteStride := 0 |} in
      let hr := CreateBuffer_result dev in
      if FAILED hr then (hr, None, [CreateStagingBuffer stagingDesc])
      else
        let hr := MapStaging_result dev in
        if SUCCEEDED hr
        then (hr, Some (firstn (Z.to_nat totalSize) nv12Data),
              [CreateStagingBuffer stagingDesc; MapStaging;
               WriteStaging (firstn (Z.to_nat totalSize) nv12Data);
               UnmapStaging; CopyResource; ReleaseStaging])
        else (hr, None,
              [CreateStagingBuffer stagingDesc; MapStaging; ReleaseStaging])
  | _, _, _ => (E_INVALIDARG, None, [])
  end.

Definition NumElements (width height : Z) : Z :=
  u32 (u32 (u32 (width * height) * 3) / 2) / 4.

Definition params (width height : Z) : NV12ConversionParams :=
  {| NV12ImageWidth := width;
     NV12ImageHeight := height;
     YPlaneStride := width;
     UVPlaneStride := width |}.

Definition dispatchX (width : Z) : Z := u32 (width + 15) / 16.
Definition dispatchY (height : Z) : Z := u32 (height + 15) / 16.

(** [Convert]: the result and the calls made.  [nv12Buffer] and
    [outputTexture] tell whether the pointers are non-null; [elapsed]
    is the number of seconds since the last success log.  A failing
    [ThrowIfFailed] prints, and the [catch] logs and returns
    [E_FAIL]. *)
Definition Convert (m_initialized : bool) (dev : Results)
    (nv12Buffer outputTexture : bool) (width height : Z) (elapsed : Z)
    : HRESULT * list Call :=
  if negb m_initialized || negb nv12Buffer || negb outputTexture
  then (E_INVALIDARG, [])
  else
    let hr := CreateInputUAV_result dev in
    if FAILED hr
    then (E_FAIL, [CreateInputUAV (NumElements width height);
                   PrintHResultFailed hr 1; LogError MsgConversionFailed])
    else
      let hr := CreateOutputUAV_result dev in
      if FAILED hr
      then (E_FAIL, [CreateInputUAV (NumElements width height);
                     CreateOutputUAV DXGI_FORMAT_R8G8B8A8_UNORM;
                     PrintHResultFailed hr 2; LogError MsgConversionFailed])
      else
        let hr := MapConstantBuffer_result dev in
        if FAILED hr
        then (E_FAIL, [CreateInputUAV (NumElements width height);
                       CreateOutputUAV DXGI_FORMAT_R8G8B8A8_UNORM;
                       MapConstantBuffer;
                       PrintHResultFailed hr 3; LogError MsgConversionFailed])
        else
          (S_OK,
           [CreateInputUAV (NumElements width height);
            CreateOutputUAV DXGI_FORMAT_R8G8B8A8_UNORM;
            MapConstantBuffer;
            WriteConstantBuffer (params width height);
            UnmapConstantBuffer;
            CSSetShader;
            CSSetUnorderedAccessViews true;
            CSSetConstantBuffers;
            Dispatch (dispatchX width) (dispatchY height) 1;
            CSSetUnorderedAccessViews false;
            ReleaseInputUAV;
            ReleaseOutputUAV]
           ++ (if 10 <=? elapsed then [LogMessage MsgConversionCompleted]
               else [])).

End NV12Host.

(** The bytes a shader sees through a raw view of [NumElements] 32-bit
    elements that starts at the first byte of the buffer. *)
Definition raw_view (buf : ByteAddressBuffer) (NumElements : Z)
    : ByteAddressBuffer :=
  firstn (Z.to_nat (4 * NumElements)) buf.

(** ** The output texture of the decode shader *)

(** An 8-bit RGBA texture: the bytes R, G, B, A of each texel. *)
Definition RGBA8Texture : Type := Z -> Z -> list Z.

(** [OutputTexture[pixelPos] = rgba] on an [R8G8B8A8_UNORM] view. *)
Definition store_texel (tex : RGBA8Texture) (s : uint2 * F4.t)
    : RGBA8Texture :=
  fun x y =>
    if (x =? fst (fst s)) && (y =? snd (fst s))
    then [float_to_unorm8 (F4.r (snd s)); float_to_unorm8 (F4.g (snd s));
          float_to_unorm8 (F4.b (snd s)); float_to_unorm8 (F4.a (snd s))]
    else tex x y.

(** The texture after a list of texel stores, in order. *)
Definition apply_texel_stores (tex : RGBA8Texture)
    (stores : list (uint2 * F4.t)) : RGBA8Texture :=
  fold_left store_texel stores tex.

(** Counting the calls of a log. *)
Definition count_calls {C : Type} (p : C -> bool) (calls : list C) : nat :=
  length (filter p calls).

Definition is_dispatch (c : Call) : bool :=
  match c with Dispatch _ _ _ => true | _ => false end.
Definition is_release_view (c : Call) : bool :=
  match c with ReleaseView => true | _ => false end.
Definition is_create_view (c : Call) : bool :=
  match c with
  | CreateShaderResourceView _ | CreateUnorderedAccessView _ => true
  | _ => false
  end.

Definition nv12_is_dispatch (c : NV12Host.Call) : bool :=
  match c with NV12Host.Dispatch _ _ _ => true | _ => false end.
Definition nv12_is_release_view (c : NV12Host.Call) : bool :=
  match c with
  | NV12Host.ReleaseInputUAV | NV12Host.ReleaseOutputUAV => true
  | _ => false
  end.
Definition nv12_is_create_view (c : NV12Host.Call) : bool :=
  match c with
  | NV12Host.CreateInputUAV _ | NV12Host.CreateOutputUAV _ => true
  | _ => false
  end.

(** ** The demo program: validation of a converted frame *)

(** What the validation functions of main.cpp write to the log. *)
Inductive DemoLog :=
| ErrSizeMismatch (expectedSize dataSize : Z)
| ErrInvalidY
| ErrInvalidUV
| DebugFirstValues
| ErrTooManyInvalidY
| ErrTooManyInvalidUV
| MsgValidationPassed
| MsgDataCheck (nonZeroCount : Z)
| SaveYUY2ToFile (data : list byte)
| ErrValidationFailed
| ErrReadFailed.

(** The values [i] takes in [for (UINT i = 0; i < dataSize; i += 4)].
    The loops below are reached with a [dataSize] that is a multiple
    of 4, for which [i += 4] does not wrap. *)
Definition macropixel_offsets (dataSize : Z) : list Z :=
  map (fun k => 4 * k) (zrange ((dataSize + 3) / 4)).

(** [ReadOutputBuffer] with the data it returns: the result, [*outData]
    after the call ([None] when it was not assigned) and [dataSize]
    after the call.  [buffer] holds the bytes of the device buffer,
    [None] for a null pointer; [outData] is non-null, and [dataSize0]
    is the value of [dataSize] on entry. *)
Definition ReadOutputBuffer_data (dev : Device)
    (buffer : option ByteAddressBuffer) (width height : Z) (dataSize0 : Z)
    : HRESULT * option (list byte) * Z :=
  match buffer with
  | None => (E_INVALIDARG, None, dataSize0)
  | Some contents =>
      let dataSize := u32 (u32 (u32 (width + 1) / 2 * height) * 4) in
      let hr := CreateBuffer_result dev in
      if FAILED hr then (hr, None, dataSize)
      else
        let hr := Map_result dev in
        if SUCCEEDED hr
        then (hr, Some (firstn (Z.to_nat dataSize) contents), dataSize)
        else (hr, None, dataSize)
  end.

(** The first version of main.cpp. *)
Module Demo0.

(** The loop of [ValidateYUY2Data]; it returns at the first macropixel
    out of range. *)
Fixpoint scan (data : list byte) (offsets : list Z) : bool * list DemoLog :=
  match offsets with
  | [] => (true, [])
  | i :: rest =>
      let y0 := byte_at data i in
      let u := byte_at data (i + 1) in
      let y1 := byte_at data (i + 2) in
      let v := byte_at data (i + 3) in
      if (y0 <? 16) || (235 <? y0) || (y1 <? 16) || (235 <? y1)
      then (false, [ErrInvalidY])
      else if (u <? 16) || (240 <? u) || (v <? 16) || (240 <? v)
      then (false, [ErrInvalidUV])
      else scan data rest
  end.

Definition ValidateYUY2Data (data : list byte) (dataSize width height : Z)
    : bool * list DemoLog :=
  let expectedSize := u32 (u32 (u32 (width + 1) / 2 * height) * 4) in
  if negb (dataSize =? expectedSize)
  then (false, [ErrSizeMismatch expectedSize dataSize])
  else scan data (macropixel_offsets dataSize).

(** [ValidateConversion]: what it logs.  [buffer] holds the bytes of
    the output buffer. *)
Definition ValidateConversion (dev : Device)
    (buffer : option ByteAddressBuffer) (width height m_frameCount : Z)
    : list DemoLog :=
  let '(hr, yuy2Data, dataSize) :=
    ReadOutputBuffer_data dev buffer width height 0 in
  match yuy2Data with
  | Some yuy2Data =>
      if SUCCEEDED hr
      then
        let '(isValid, log) :=
          ValidateYUY2Data yuy2Data dataSize width height in
        log ++ (if isValid
                then MsgValidationPassed
                     :: (if m_frameCount =? 0 then [SaveYUY2ToFile yuy2Data]
                         else [])
                else [ErrValidationFailed])
      else [ErrReadFailed]
  | None => [ErrReadFailed]
  end.

End Demo0.

(** The current main.cpp. *)
Module Demo.
Section Host.
Context {R : Rounding}.
Import HLSL.

(** The loop of [ValidateYUY2Data]: [(invalidYCount, invalidUVCount)]
    after the macropixels at [offsets]. *)
Fixpoint count (data : list byte) (offsets : list Z)
    (invalidYCount invalidUVCount : Z) : Z * Z :=
  match offsets with
  | [] => (invalidYCount, invalidUVCount)
  | i :: rest =>
      let y0 := byte_at data i in
      let u := byte_at data (i + 1) in
      let y1 := byte_at data (i + 2) in
      let v := byte_at data (i + 3) in
      let invalidYCount :=
        if (y0 <? 10) || (245 <? y0) || (y1 <? 10) || (245 <? y1)
        then u32 (invalidYCount + 1) else invalidYCount in
      let invalidUVCount :=
        if (u <? 10) || (245 <? u) || (v <? 10) || (245 <? v)
        then u32 (invalidUVCount + 1) else invalidUVCount in
      count data rest invalidYCount invalidUVCount
  end.

(** [a > b] on [float]. *)
Definition fgt (a b : Q) : bool := negb (Qle_bool a b).

(** [ValidateYUY2Data].  For an empty frame C++ divides 0.0f by 0 and
    gets a NaN, which is not greater than 0.1f; the quotient of the
    model is 0 there, which is not greater either. *)
Definition ValidateYUY2Data (data : list byte) (dataSize width height : Z)
    : bool * list DemoLog :=
  let expectedSize := u32 (u32 (u32 (width + 1) / 2 * height) * 4) in
  if negb (dataSize =? expectedSize)
  then (false, [ErrSizeMismatch expectedSize dataSize])
  else
    let totalPixels := dataSize / 4 in
    let '(invalidYCount, invalidUVCount) :=
      count data (macropixel_offsets dataSize) 0 0 in
    let invalidYRatio := fdiv (utof invalidYCount) (utof totalPixels) in
    let invalidUVRatio := fdiv (utof invalidUVCount) (utof totalPixels) in
    let debug :=
      if fgt invalidYRatio (lit 0.1) || fgt invalidUVRatio (lit 0.1)
      then [DebugFirstValues] else [] in
    if fgt invalidYRatio (lit 0.1)
    then (false, debug ++ [ErrTooManyInvalidY])
    else if fgt invalidUVRatio (lit 0.1)
    then (false, debug ++ [ErrTooManyInvalidUV])
    else (true, debug).

(** The number of non-zero bytes among the first [min(400, dataSize)]. *)
Definition nonZeroCount (yuy2Data : list byte) (dataSize : Z) : Z :=
  Z.of_nat (length (filter (fun i => negb (byte_at yuy2Data i =? 0))
                           (zrange (Z.min 400 dataSize)))).

Definition ValidateConversion (dev : Device)
    (buffer : option ByteAddressBuffer) (width height m_frameCount : Z)
    : list DemoLog :=
  let '(hr, yuy2Data, dataSize) :=
    ReadOutputBuffer_data dev buffer width height 0 in
  match yuy2Data with
  | Some yuy2Data =>
      if SUCCEEDED hr
      then
        let '(isValid, log) :=
          ValidateYUY2Data yuy2Data dataSize width height in
        log ++ (if isValid
                then MsgValidationPassed
                     :: (if m_frameCount =? 30
                         then [MsgDataCheck (nonZeroCount yuy2Data dataSize);
                               SaveYUY2ToFile yuy2Data]
                         else [])
                else [ErrValidationFailed])
      else [ErrReadFailed]
  | None => [ErrReadFailed]
  end.

End Host.
End Demo.

(** ** The NV12 test of main.cpp *)

(** [v[i] = b] on a vector of bytes, [b] cast to [BYTE].  An index
    outside the vector is undefined behaviour in C++; it changes
    nothing here. *)
Definition set_byte (v : list byte) (i : Z) (b : Z) : list byte :=
  if (0 <=? i) && (i <? Z.of_nat (length v))
  then firstn (Z.to_nat i) v ++ byte_of_Z b :: skipn (Z.to_nat i + 1) v
  else v.

Module NV12Test.

(** [CreateTestNV12Data]: the gradient test pattern. *)
Definition CreateTestNV12Data (width height : Z) : list byte :=
  let yPlaneSize := u32 (width * height) in
  let uvPlaneSize := u32 (width * height) / 2 in
  let totalSize := u32 (yPlaneSize + uvPlaneSize) in
  let nv12Data := repeat x00 (Z.to_nat totalSize) in
  let nv12Data :=
    fold_left
      (fun nv12Data y =>
         fold_left
           (fun nv12Data x =>
              let yValue := u32 (16 + u32 (x * 219) / width) in
              set_byte nv12Data (u32 (u32 (y * width) + x)) yValue)
           (zrange width) nv12Data)
      (zrange height) nv12Data in
  fold_left
    (fun nv12Data y =>
       fold_left
         (fun nv12Data x =>
            let uvIndex :=
              u32 (u32 (yPlaneSize + u32 (y * width)) + u32 (x * 2)) in
            let uValue := u32 (16 + u32 (y * 224) / (height / 2)) in
            let vValue := u32 (16 + u32 (x * 224) / (width / 2)) in
            let nv12Data := set_byte nv12Data uvIndex uValue in
            set_byte nv12Data (u32 (uvIndex + 1)) vValue)
         (zrange (width / 2)) nv12Data)
    (zrange (height / 2)) nv12Data.

(** The assignments [(index, value)] of the two loop nests of
    [CreateTestNV12Data], in the order they are made. *)
Definition luma_stores (width height : Z) : list (Z * Z) :=
  flat_map
    (fun y =>
       map (fun x => (u32 (u32 (y * width) + x),
                      u32 (16 + u32 (x * 219) / width)))
           (zrange width))
    (zrange height).

Definition chroma_stores (width height : Z) : list (Z * Z) :=
  flat_map
    (fun y =>
       flat_map
         (fun x =>
            let uvIndex :=
              u32 (u32 (u32 (width * height) + u32 (y * width))
                   + u32 (x * 2)) in
            [(uvIndex, u32 (16 + u32 (y * 224) / (height / 2)));
             (u32 (uvIndex + 1), u32 (16 + u32 (x * 224) / (width / 2)))])
         (zrange (width / 2)))
    (zrange (height / 2)).

(** The loops of [ValidateRGBAOutput] over the sample points, with the
    mapped texture as a list of bytes.  [fuel] bounds the number of
    iterations; [None] when it runs out. *)
Fixpoint sample_row (fuel : nat) (rgbaData : list byte) (RowPitch width : Z)
    (testY testX : Z) (isValid : bool) : option bool :=
  if (testX <? width) && isValid
  then match fuel with
       | O => None
       | S fuel =>
           let pixelIndex := u32 (u32 (testY * RowPitch) + u32 (testX * 4)) in
           let r := byte_at rgbaData pixelIndex in
           let g := byte_at rgbaData (u32 (pixelIndex + 1)) in
           let b := byte_at rgbaData (u32 (pixelIndex + 2)) in
           let a := byte_at rgbaData (u32 (pixelIndex + 3)) in
           let isValid := if negb (a =? 255) then false else isValid in
           let isValid :=
             if (255 <? r) || (255 <? g) || (255 <? b) then false
             else isValid in
           sample_row fuel rgbaData RowPitch width testY
                      (u32 (testX + width / 4)) isValid
       end
  else Some isValid.

Fixpoint sample_rows (fuel : nat) (rgbaData : list byte)
    (RowPitch width height : Z) (testY : Z) (isValid : bool) : option bool :=
  if (testY <? height) && isValid
  then match fuel with
       | O => None
       | S fuel =>
           match sample_row fuel rgbaData RowPitch width testY 0 isValid with
           | None => None
           | Some isValid =>
               sample_rows fuel rgbaData RowPitch width height
                           (u32 (testY + height / 4)) isValid
           end
       end
  else Some isValid.

(** The value of [isValid] after the two loops of
    [ValidateRGBAOutput]. *)
Definition ValidateRGBAOutput_samples (fuel : nat) (rgbaData : list byte)
    (RowPitch width height : Z) : option bool :=
  sample_rows fuel rgbaData RowPitch width height 0 true.

End NV12Test.

(** The bytes [Map] shows for an 8-bit RGBA texture of the given size:
    the texel [(x, y)] is at the offset [y * RowPitch + 4 * x]. *)
Definition mapped (tex : RGBA8Texture) (width height RowPitch : Z)
    (rgbaData : list byte) : Prop :=
  forall x y c, 0 <= x < width -> 0 <= y < height -> 0 <= c < 4 ->
    byte_at rgbaData (y * RowPitch + 4 * x + c)
    = nth (Z.to_nat c) (tex x y) 0.


(** * Properties *)

(** ** Rounding to integers and conversion to [uint] *)

Section RoundingFacts.
Import HLSL.

Lemma round_ne_bounds (a b : Z) (x : Q) :
  (inject_Z a <= x)%Q -> (x <= inject_Z b)%Q -> a <= round_ne x <= b.
Proof.
  intros Ha Hb. unfold round_ne.
  assert (Hfa : a <= Qfloor x).
  { rewrite <- (Qfloor_Z a). apply Qfloor_resp_le. exact Ha. }
  assert (Hfb : Qfloor x <= b).
  { rewrite <- (Qfloor_Z b). apply Qfloor_resp_le. exact Hb. }
  assert (Hstep : (inject_Z (Qfloor x) < x)%Q -> Qfloor x + 1 <= b).
  { intros Hlt. assert (Qfloor x < b); [| lia].
    rewrite Zlt_Qlt. eapply Qlt_le_trans; eauto. }
  destruct (Qcompare (x - inject_Z (Qfloor x)) (1 # 2)) eqn:Hc.
  - apply Qeq_alt in Hc. destruct (Z.even (Qfloor x)); [lia |].
    split; [lia |]. apply Hstep. lra.
  - lia.
  - apply Qgt_alt in Hc. split; [lia |]. apply Hstep. lra.
Qed.

Lemma round_ne_comp (x y : Q) : (x == y)%Q -> round_ne x = round_ne y.
Proof.
  intros H. unfold round_ne. rewrite (Qfloor_comp _ _ H).
  assert (Hc : Qcompare (x - inject_Z (Qfloor y)) (1 # 2)
               = Qcompare (y - inject_Z (Qfloor y)) (1 # 2)).
  { apply Qcompare_comp; [rewrite H; reflexivity | reflexivity]. }
  rewrite Hc. reflexivity.
Qed.

Lemma round_ne_inject (z : Z) : round_ne (inject_Z z) = z.
Proof.
  unfold round_ne. rewrite Qfloor_Z.
  assert (Hc : Qcompare (inject_Z z - inject_Z z) (1 # 2) = Lt).
  { apply -> Qlt_alt. lra. }
  rewrite Hc. reflexivity.
Qed.

Lemma ftou_inject (z : Z) : 0 <= z < 2 ^ 32 -> ftou (inject_Z z) = z.
Proof.
  intros Hz. unfold ftou, Qtrunc.
  assert (Hle : Qle_bool 0 (inject_Z z) = true).
  { apply Qle_bool_iff. change 0%Q with (inject_Z 0). rewrite <- Zle_Qle. lia. }
  rewrite Hle, Qfloor_Z. lia.
Qed.

Lemma ftou_round_bounds (a b : Z) (x : Q) :
  0 <= a -> b < 2 ^ 32 ->
  (inject_Z a <= x)%Q -> (x <= inject_Z b)%Q -> a <= ftou (round x) <= b.
Proof.
  intros Ha Hb Hax Hxb. unfold round.
  pose proof (round_ne_bounds a b x Hax Hxb) as Hr.
  rewrite ftou_inject by lia. exact Hr.
Qed.

Lemma clamp_bounds (x lo hi : Q) :
  (lo <= hi)%Q -> (lo <= clamp x lo hi)%Q /\ (clamp x lo hi <= hi)%Q.
Proof.
  intros H. unfold clamp. split.
  - apply Q.min_glb; [apply Q.le_max_r | exact H].
  - apply Q.le_min_r.
Qed.

Context {R : Rounding}.

Lemma fl_comp (x y : Q) : (x == y)%Q -> (fl x == fl y)%Q.
Proof.
  intros H. apply Qle_antisym; apply fl_mono; rewrite H; apply Qle_refl.
Qed.

#[global] Instance fl_Proper : Proper (Qeq ==> Qeq) fl.
Proof. intros x y H. apply fl_comp. exact H. Qed.

Lemma lit_int (z : Z) : Z.abs z <= 2 ^ 24 -> (lit (inject_Z z) == inject_Z z)%Q.
Proof. intros H. unfold lit. apply fl_int. exact H. Qed.

Lemma lit_half : (lit 0.5 == 1 # 2)%Q.
Proof.
  unfold lit. transitivity (fl (1 # 2)); [apply fl_comp; reflexivity |].
  apply fl_half.
Qed.

(** Rounding keeps a value between two integers it lies between. *)
Lemma fl_bounds (a b : Z) (x : Q) :
  Z.abs a <= 2 ^ 24 -> Z.abs b <= 2 ^ 24 ->
  (inject_Z a <= x)%Q -> (x <= inject_Z b)%Q ->
  (inject_Z a <= fl x)%Q /\ (fl x <= inject_Z b)%Q.
Proof.
  intros Ha Hb Hax Hxb. split.
  - rewrite <- (fl_int a Ha). apply fl_mono. exact Hax.
  - rewrite <- (fl_int b Hb). apply fl_mono. exact Hxb.
Qed.

(** The average of two values of [16, 240], as the shaders compute it. *)
Lemma average_bounds (a b : Q) :
  (16 <= a)%Q -> (a <= 240)%Q -> (16 <= b)%Q -> (b <= 240)%Q ->
  (16 <= fmul (fadd a b) (lit 0.5))%Q /\ (fmul (fadd a b) (lit 0.5) <= 240)%Q.
Proof.
  intros Ha1 Ha2 Hb1 Hb2. unfold fmul, fadd.
  destruct (fl_bounds 32 480 (a + b)) as [Hs1 Hs2]; try lia.
  { change (inject_Z 32) with 32%Q. lra. }
  { change (inject_Z 480) with 480%Q. lra. }
  change (inject_Z 32) with 32%Q in Hs1. change (inject_Z 480) with 480%Q in Hs2.
  pose proof lit_half as Hh.
  apply (fl_bounds 16 240); try lia.
  - change (inject_Z 16) with 16%Q. rewrite Hh. lra.
  - change (inject_Z 240) with 240%Q. rewrite Hh. lra.
Qed.

End RoundingFacts.

(** ** The laws of [Rounding] for binary32 *)

Section Binary32.
Import HLSL.
Local Open Scope Q_scope.

Lemma pow2_pos (k : Z) : 0 < pow2 k.
Proof. unfold pow2. apply Qpower_0_lt. reflexivity. Qed.

Lemma pow2_add (a b : Z) : pow2 (a + b) == pow2 a * pow2 b.
Proof. unfold pow2. apply Qpower_plus. discriminate. Qed.

Lemma pow2_succ (a : Z) : pow2 (a + 1) == 2 * pow2 a.
Proof. rewrite pow2_add. unfold pow2 at 2. rewrite Qpower_1_r. ring. Qed.

Lemma pow2_le (a b : Z) : (a <= b)%Z -> pow2 a <= pow2 b.
Proof. intros H. unfold pow2. apply Qpower_le_compat_l; [exact H | discriminate]. Qed.

Lemma pow2_lt_inv (a b : Z) : pow2 a < pow2 b -> (a < b)%Z.
Proof. intros H. apply (Qpower_lt_compat_l_inv 2); [exact H | reflexivity]. Qed.

Lemma pow2_inject (k : Z) : (0 <= k)%Z -> pow2 k == inject_Z (2 ^ k).
Proof. intros H. unfold pow2. rewrite Zpower_Qpower by exact H. reflexivity. Qed.

Lemma Qabs_Qmake (n : Z) (d : positive) : Qabs (n # d) = (Z.abs n # d).
Proof. reflexivity. Qed.

Lemma binade_spec (q : Q) :
  ~ q == 0 -> pow2 (binade q) <= Qabs q /\ Qabs q < pow2 (binade q + 1).
Proof.
  intros Hq. unfold binade.
  set (a := Z.log2 (Z.abs (Qnum q))). set (b := Z.log2 (Z.pos (Qden q))).
  assert (HN : (0 < Z.abs (Qnum q))%Z).
  { destruct q as [n d]. unfold Qeq in Hq. cbn in *. lia. }
  destruct (Z.log2_spec _ HN) as [Ha1 Ha2]. fold a in Ha1, Ha2.
  destruct (Z.log2_spec (Z.pos (Qden q)) eq_refl) as [Hb1 Hb2].
  fold b in Hb1, Hb2.
  assert (Ha0 : (0 <= a)%Z) by apply Z.log2_nonneg.
  assert (Hb0 : (0 <= b)%Z) by apply Z.log2_nonneg.
  set (N := inject_Z (Z.abs (Qnum q))). set (D := inject_Z (Z.pos (Qden q))).
  assert (Habs : Qabs q == N / D).
  { destruct q as [n d]. rewrite Qabs_Qmake. apply Qmake_Qdiv. }
  assert (HA1 : pow2 a <= N).
  { rewrite pow2_inject by lia. unfold N. rewrite <- Zle_Qle. exact Ha1. }
  assert (HA2 : N < 2 * pow2 a).
  { rewrite <- pow2_succ. rewrite pow2_inject by lia. unfold N.
    rewrite <- Zlt_Qlt. exact Ha2. }
  assert (HB1 : pow2 b <= D).
  { rewrite pow2_inject by lia. unfold D. rewrite <- Zle_Qle. exact Hb1. }
  assert (HB2 : D < 2 * pow2 b).
  { rewrite <- pow2_succ. rewrite pow2_inject by lia. unfold D.
    rewrite <- Zlt_Qlt. exact Hb2. }
  assert (HE : pow2 (a - b) * pow2 b == pow2 a).
  { rewrite <- pow2_add. replace (a - b + b)%Z with a by lia. reflexivity. }
  pose proof (pow2_pos (a - b)) as HEpos. pose proof (pow2_pos b) as HBpos.
  pose proof (pow2_pos a) as HApos.
  assert (HD : 0 < D) by lra.
  assert (Hlow : pow2 (a - b - 1) < Qabs q).
  { rewrite Habs. apply Qlt_shift_div_l; [exact HD |].
    assert (H2 : 2 * pow2 (a - b - 1) == pow2 (a - b)).
    { rewrite <- pow2_succ. replace (a - b - 1 + 1)%Z with (a - b)%Z by lia.
      reflexivity. }
    nra. }
  assert (Hhigh : Qabs q < pow2 (a - b + 1)).
  { rewrite Habs. apply Qlt_shift_div_r; [exact HD |].
    rewrite pow2_succ. nra. }
  destruct (Qle_bool (pow2 (a - b)) (Qabs q)) eqn:E.
  - apply Qle_bool_iff in E. split; assumption.
  - assert (Hlt : Qabs q < pow2 (a - b)).
    { apply Qnot_le_lt. intros Hle. apply Qle_bool_iff in Hle. congruence. }
    split; [apply Qlt_le_weak; exact Hlow |].
    replace (a - b - 1 + 1)%Z with (a - b)%Z by lia. exact Hlt.
Qed.

Lemma binade_unique (q : Q) (e : Z) :
  pow2 e <= Qabs q -> Qabs q < pow2 (e + 1) -> binade q = e.
Proof.
  intros H1 H2.
  assert (Hq : ~ q == 0).
  { intros H0. apply Qabs_wd in H0. change (Qabs 0) with 0 in H0.
    pose proof (pow2_pos e). lra. }
  destruct (binade_spec q Hq) as [S1 S2].
  assert (e < binade q + 1)%Z by (apply pow2_lt_inv; lra).
  assert (binade q < e + 1)%Z by (apply pow2_lt_inv; lra).
  lia.
Qed.

Lemma binade_comp (x y : Q) : x == y -> ~ x == 0 -> binade x = binade y.
Proof.
  intros Hxy Hx. symmetry. destruct (binade_spec x Hx) as [S1 S2].
  apply binade_unique; rewrite <- (Qabs_wd _ _ Hxy); assumption.
Qed.

Lemma ulp32_pos (q : Q) : 0 < ulp32 q.
Proof. apply pow2_pos. Qed.

Lemma round_ne_zero (x : Q) : x == 0 -> round_ne x = 0%Z.
Proof.
  intros H. rewrite (round_ne_comp x (inject_Z 0)) by exact H.
  apply round_ne_inject.
Qed.

Lemma round_binary32_zero (x : Q) : x == 0 -> round_binary32 x == 0.
Proof.
  intros H. unfold round_binary32. rewrite round_ne_zero.
  - ring.
  - unfold Qdiv. transitivity (0 * / ulp32 x); [| ring].
    apply Qmult_comp; [exact H | reflexivity].
Qed.

Lemma round_binary32_comp (x y : Q) :
  x == y -> round_binary32 x == round_binary32 y.
Proof.
  intros Hxy. destruct (Qeq_dec x 0) as [H0 | H0].
  - rewrite (round_binary32_zero x H0).
    rewrite (round_binary32_zero y); [reflexivity |].
    rewrite <- Hxy. exact H0.
  - unfold round_binary32, ulp32. rewrite (binade_comp x y Hxy H0).
    rewrite (round_ne_comp (x / pow2 (binade y - 23))
                           (y / pow2 (binade y - 23))).
    + reflexivity.
    + rewrite Hxy. reflexivity.
Qed.

Lemma Qabs_inject_Z (m : Z) : Qabs (inject_Z m) = inject_Z (Z.abs m).
Proof. reflexivity. Qed.

Lemma normal_fixed (q : Q) : normal q -> round_binary32 q == q.
Proof.
  intros (m & k & Hm & Hq).
  assert (Habs : Qabs q == inject_Z (Z.abs m) * pow2 k).
  { rewrite (Qabs_wd _ _ Hq), Qabs_Qmult, Qabs_inject_Z.
    rewrite (Qabs_pos (pow2 k)); [reflexivity |].
    apply Qlt_le_weak. apply pow2_pos. }
  pose proof (pow2_pos k) as Hk.
  assert (Hm1 : inject_Z (2 ^ 23) <= inject_Z (Z.abs m))
    by (rewrite <- Zle_Qle; lia).
  assert (Hm2 : inject_Z (Z.abs m) < inject_Z (2 ^ 24))
    by (rewrite <- Zlt_Qlt; lia).
  assert (Hb : binade q = (k + 23)%Z).
  { apply binade_unique; rewrite Habs.
    - rewrite Z.add_comm, pow2_add, (pow2_inject 23) by lia. nra.
    - replace (k + 23 + 1)%Z with (24 + k)%Z by lia.
      rewrite pow2_add, (pow2_inject 24) by lia. nra. }
  unfold round_binary32, ulp32. rewrite Hb.
  replace (k + 23 - 23)%Z with k by lia.
  rewrite (round_ne_comp _ (inject_Z m)).
  - rewrite round_ne_inject. symmetry. exact Hq.
  - rewrite Hq. field. lra.
Qed.

Lemma round_ne_floor_or_succ (x : Q) :
  round_ne x = Qfloor x \/ round_ne x = (Qfloor x + 1)%Z.
Proof.
  unfold round_ne. destruct (Qcompare _ _); [destruct (Z.even _) | |]; auto.
Qed.

Ltac qcompare_in H :=
  match type of H with
  | Qcompare _ _ = Eq => apply Qeq_alt in H
  | Qcompare _ _ = Lt => apply Qlt_alt in H
  | Qcompare _ _ = Gt => apply Qgt_alt in H
  end.

Lemma round_ne_mono (x y : Q) : x <= y -> (round_ne x <= round_ne y)%Z.
Proof.
  intros Hxy. pose proof (Qfloor_resp_le x y Hxy) as Hf.
  destruct (Z.eq_dec (Qfloor x) (Qfloor y)) as [Heq | Hne].
  - unfold round_ne. rewrite Heq.
    destruct (Qcompare (x - inject_Z (Qfloor y)) (1 # 2)) eqn:Cx;
      destruct (Qcompare (y - inject_Z (Qfloor y)) (1 # 2)) eqn:Cy;
      try (destruct (Z.even (Qfloor y))); try lia;
      qcompare_in Cx; qcompare_in Cy; exfalso; lra.
  - destruct (round_ne_floor_or_succ x) as [Hx | Hx];
      destruct (round_ne_floor_or_succ y) as [Hy | Hy]; lia.
Qed.

Lemma Qfloor_opp_frac (x : Q) :
  ~ x == inject_Z (Qfloor x) -> Qfloor (- x) = (- Qfloor x - 1)%Z.
Proof.
  intros Hn. pose proof (Qfloor_le x) as H1. pose proof (Qlt_floor x) as H2.
  rewrite inject_Z_plus in H2. change (inject_Z 1) with 1 in H2.
  assert (Hlt : inject_Z (Qfloor x) < x).
  { apply Qle_lteq in H1. destruct H1 as [H1 | H1]; [exact H1 |].
    exfalso. apply Hn. symmetry. exact H1. }
  pose proof (Qfloor_le (- x)) as G1. pose proof (Qlt_floor (- x)) as G2.
  rewrite inject_Z_plus in G2. change (inject_Z 1) with 1 in G2.
  assert (A : (Qfloor (- x) < - Qfloor x)%Z).
  { rewrite Zlt_Qlt, inject_Z_opp. lra. }
  assert (B : (- Qfloor x - 1 < Qfloor (- x) + 1)%Z).
  { rewrite Zlt_Qlt. rewrite inject_Z_plus. unfold Z.sub.
    rewrite inject_Z_plus, !inject_Z_opp. change (inject_Z 1) with 1. lra. }
  lia.
Qed.

Lemma round_ne_opp (x : Q) : round_ne (- x) = (- round_ne x)%Z.
Proof.
  destruct (Qeq_dec x (inject_Z (Qfloor x))) as [Hint | Hfrac].
  - rewrite (round_ne_comp x _ Hint).
    rewrite (round_ne_comp (- x) (inject_Z (- Qfloor x))).
    + rewrite !round_ne_inject. reflexivity.
    + rewrite inject_Z_opp. rewrite <- Hint. reflexivity.
  - pose proof (Qfloor_opp_frac x Hfrac) as Hf. unfold round_ne. rewrite Hf.
    unfold Z.sub. rewrite inject_Z_plus, !inject_Z_opp.
    change (inject_Z 1) with 1.
    assert (Hev : Z.even (- Qfloor x + - (1)) = negb (Z.even (Qfloor x))).
    { replace (- Qfloor x + - (1))%Z with (- (Qfloor x + 1))%Z by lia.
      rewrite Z.even_opp, Z.add_1_r, Z.even_succ, <- Z.negb_even.
      reflexivity. }
    destruct (Qcompare (x - inject_Z (Qfloor x)) (1 # 2)) eqn:Cx.
    + apply Qeq_alt in Cx.
      assert (C : Qcompare (- x - (- inject_Z (Qfloor x) + - (1))) (1 # 2) = Eq).
      { apply -> Qeq_alt. lra. }
      rewrite C, Hev. destruct (Z.even (Qfloor x)); cbn [negb]; lia.
    + apply Qlt_alt in Cx.
      assert (C : Qcompare (- x - (- inject_Z (Qfloor x) + - (1))) (1 # 2) = Gt).
      { apply -> Qgt_alt. lra. }
      rewrite C. lia.
    + apply Qgt_alt in Cx.
      assert (C : Qcompare (- x - (- inject_Z (Qfloor x) + - (1))) (1 # 2) = Lt).
      { apply -> Qlt_alt. lra. }
      rewrite C. lia.
Qed.

Lemma binade_opp (q : Q) : binade (- q) = binade q.
Proof.
  destruct (Qeq_dec q 0) as [H0 | H0].
  - destruct q as [n d]. unfold Qeq in H0. cbn in H0.
    assert (n = 0%Z) by lia. subst n. reflexivity.
  - destruct (binade_spec q H0) as [S1 S2].
    apply binade_unique; rewrite Qabs_opp; assumption.
Qed.

Lemma round_binary32_opp (q : Q) : round_binary32 (- q) == - round_binary32 q.
Proof.
  unfold round_binary32, ulp32. rewrite binade_opp.
  rewrite (round_ne_comp (- q / pow2 (binade q - 23))
                         (- (q / pow2 (binade q - 23)))).
  - rewrite round_ne_opp, inject_Z_opp. ring.
  - pose proof (pow2_pos (binade q - 23)). field. lra.
Qed.

(** The significand of a positive value lies in [2^23, 2^24). *)
Lemma significand_bounds (q : Q) :
  0 < q ->
  inject_Z (2 ^ 23) <= q / ulp32 q /\ q / ulp32 q < inject_Z (2 ^ 24).
Proof.
  intros Hq. assert (H0 : ~ q == 0) by lra.
  destruct (binade_spec q H0) as [S1 S2].
  rewrite (Qabs_pos q) in S1, S2 by lra.
  pose proof (ulp32_pos q) as Hu. unfold ulp32 in *.
  set (e := binade q) in *.
  assert (He : pow2 e == pow2 23 * pow2 (e - 23)).
  { rewrite <- pow2_add. replace (23 + (e - 23))%Z with e by lia. reflexivity. }
  assert (He1 : pow2 (e + 1) == pow2 24 * pow2 (e - 23)).
  { rewrite <- pow2_add. replace (24 + (e - 23))%Z with (e + 1)%Z by lia.
    reflexivity. }
  rewrite <- (pow2_inject 23), <- (pow2_inject 24) by lia. split.
  - apply Qle_shift_div_l; [exact Hu |]. rewrite <- He. exact S1.
  - apply Qlt_shift_div_r; [exact Hu |]. rewrite <- He1. exact S2.
Qed.

Lemma round_binary32_normal_pos (q : Q) : 0 < q -> normal (round_binary32 q).
Proof.
  intros Hq. destruct (significand_bounds q Hq) as [B1 B2].
  pose proof (round_ne_bounds (2 ^ 23) (2 ^ 24) (q / ulp32 q) B1
                              (Qlt_le_weak _ _ B2)) as [R1 R2].
  unfold round_binary32. set (r := round_ne (q / ulp32 q)) in *.
  destruct (Z.eq_dec r (2 ^ 24)) as [Htop | Hlow].
  - exists (2 ^ 23)%Z, (binade q - 23 + 1)%Z. split; [lia |].
    rewrite Htop. unfold ulp32. rewrite pow2_succ.
    change (inject_Z (2 ^ 24)) with (2 * inject_Z (2 ^ 23)). ring.
  - exists r, (binade q - 23)%Z. split; [lia |]. reflexivity.
Qed.

Lemma normal_opp (q : Q) : normal q -> normal (- q).
Proof.
  intros (m & k & Hm & Hq). exists (- m)%Z, k. split; [lia |].
  rewrite Hq, inject_Z_opp. ring.
Qed.

Lemma round_binary32_normal (q : Q) : ~ q == 0 -> normal (round_binary32 q).
Proof.
  intros H0. destruct (Qlt_le_dec 0 q) as [Hpos | Hneg].
  - apply round_binary32_normal_pos. exact Hpos.
  - assert (Hq : 0 < - q).
    { apply Qle_lteq in Hneg. destruct Hneg as [Hneg | Hneg]; [lra |].
      exfalso. apply H0. exact Hneg. }
    pose proof (normal_opp _ (round_binary32_normal_pos _ Hq)) as Hn.
    destruct Hn as (m & k & Hm & Hn). exists m, k. split; [exact Hm |].
    rewrite <- Hn. rewrite round_binary32_opp. ring.
Qed.

Lemma round_binary32_idem (x : Q) :
  round_binary32 (round_binary32 x) == round_binary32 x.
Proof.
  destruct (Qeq_dec x 0) as [H0 | H0].
  - pose proof (round_binary32_zero x H0) as Hz.
    rewrite (round_binary32_zero (round_binary32 x) Hz). symmetry. exact Hz.
  - apply normal_fixed. apply round_binary32_normal. exact H0.
Qed.

Lemma round_binary32_double (x : Q) :
  round_binary32 (2 * round_binary32 x) == 2 * round_binary32 x.
Proof.
  destruct (Qeq_dec x 0) as [H0 | H0].
  - pose proof (round_binary32_zero x H0) as Hz.
    rewrite (round_binary32_zero (2 * round_binary32 x)); lra.
  - apply normal_fixed.
    destruct (round_binary32_normal x H0) as (m & k & Hm & Hq).
    exists m, (k + 1)%Z. split; [exact Hm |]. rewrite Hq, pow2_succ. ring.
Qed.

Lemma normal_int (z : Z) :
  (0 < Z.abs z <= 2 ^ 24)%Z -> normal (inject_Z z).
Proof.
  intros Hz. destruct (Z.eq_dec (Z.abs z) (2 ^ 24)) as [Htop | Hlow].
  - exists (z / 2)%Z, 1%Z.
    assert (Hz2 : z = (2 * (z / 2))%Z).
    { assert (z = 2 ^ 24 \/ z = - 2 ^ 24)%Z as [-> | ->] by lia; reflexivity. }
    split; [lia |]. rewrite Hz2 at 1. rewrite inject_Z_mult.
    unfold pow2. rewrite Qpower_1_r. ring.
  - set (j := (23 - Z.log2 (Z.abs z))%Z).
    destruct (Z.log2_spec (Z.abs z)) as [L1 L2]; [lia |].
    assert (Hl : (Z.log2 (Z.abs z) < 24)%Z) by (apply Z.log2_lt_pow2; lia).
    assert (Hj : (0 <= j)%Z) by (unfold j; lia).
    pose proof (Z.log2_nonneg (Z.abs z)) as Hl0.
    exists (z * 2 ^ j)%Z, (- j)%Z. split.
    + rewrite Z.abs_mul, (Z.abs_eq (2 ^ j)) by (apply Z.pow_nonneg; lia).
      assert (E1 : (2 ^ 23 = 2 ^ Z.log2 (Z.abs z) * 2 ^ j)%Z).
      { rewrite <- Z.pow_add_r by lia. f_equal. unfold j. lia. }
      assert (E2 : (2 ^ 24 = 2 ^ Z.succ (Z.log2 (Z.abs z)) * 2 ^ j)%Z).
      { rewrite <- Z.pow_add_r by lia. f_equal. unfold j. lia. }
      assert (0 < 2 ^ j)%Z by (apply Z.pow_pos_nonneg; lia).
      rewrite E1, E2. nia.
    + rewrite inject_Z_mult, <- (pow2_inject j) by exact Hj.
      rewrite <- Qmult_assoc, <- pow2_add.
      replace (j + - j)%Z with 0%Z by lia. unfold pow2 at 1.
      rewrite Qpower_0_r. ring.
Qed.

Lemma round_binary32_int (z : Z) :
  (Z.abs z <= 2 ^ 24)%Z -> round_binary32 (inject_Z z) == inject_Z z.
Proof.
  intros Hz. destruct (Z.eq_dec z 0) as [-> | Hnz].
  - apply round_binary32_zero. reflexivity.
  - apply normal_fixed. apply normal_int. lia.
Qed.

Lemma round_binary32_half : round_binary32 (1 # 2) == 1 # 2.
Proof.
  apply normal_fixed. exists (2 ^ 23)%Z, (- 24)%Z. split; [lia |]. reflexivity.
Qed.

Lemma round_binary32_nonneg (q : Q) : 0 <= q -> 0 <= round_binary32 q.
Proof.
  intros Hq. unfold round_binary32. pose proof (ulp32_pos q) as Hu.
  assert (Hs : 0 <= q / ulp32 q).
  { apply Qle_shift_div_l; [exact Hu | lra]. }
  pose proof (round_ne_mono 0 _ Hs) as Hr.
  rewrite (round_ne_zero 0) in Hr by reflexivity.
  apply Qmult_le_0_compat; [| lra].
  change 0 with (inject_Z 0). rewrite <- Zle_Qle. exact Hr.
Qed.

Lemma binade_mono (x y : Q) : 0 < x -> x <= y -> (binade x <= binade y)%Z.
Proof.
  intros Hx Hxy.
  destruct (binade_spec x) as [X1 X2]; [lra |].
  destruct (binade_spec y) as [Y1 Y2]; [lra |].
  rewrite (Qabs_pos x) in X1, X2 by lra.
  rewrite (Qabs_pos y) in Y1, Y2 by lra.
  assert (binade x < binade y + 1)%Z by (apply pow2_lt_inv; lra).
  lia.
Qed.

Lemma round_binary32_in_binade (q : Q) :
  0 < q ->
  pow2 (binade q) <= round_binary32 q /\ round_binary32 q <= pow2 (binade q + 1).
Proof.
  intros Hq. destruct (significand_bounds q Hq) as [B1 B2].
  pose proof (round_ne_bounds (2 ^ 23) (2 ^ 24) (q / ulp32 q) B1
                              (Qlt_le_weak _ _ B2)) as [R1 R2].
  rewrite Zle_Qle in R1. rewrite Zle_Qle in R2.
  rewrite <- (pow2_inject 23) in R1 by lia.
  rewrite <- (pow2_inject 24) in R2 by lia.
  pose proof (ulp32_pos q) as Hu. unfold round_binary32.
  set (r := inject_Z (round_ne (q / ulp32 q))) in *.
  unfold ulp32 in *. set (e := binade q) in *.
  assert (He : pow2 e == pow2 23 * pow2 (e - 23)).
  { rewrite <- pow2_add. replace (23 + (e - 23))%Z with e by lia. reflexivity. }
  assert (He1 : pow2 (e + 1) == pow2 24 * pow2 (e - 23)).
  { rewrite <- pow2_add. replace (24 + (e - 23))%Z with (e + 1)%Z by lia.
    reflexivity. }
  rewrite He, He1. split; apply Qmult_le_compat_r; lra.
Qed.

Lemma round_binary32_mono_pos (x y : Q) :
  0 < x -> x <= y -> round_binary32 x <= round_binary32 y.
Proof.
  intros Hx Hxy. pose proof (binade_mono x y Hx Hxy) as He.
  destruct (Z.eq_dec (binade x) (binade y)) as [Heq | Hne].
  - unfold round_binary32, ulp32. rewrite Heq.
    pose proof (pow2_pos (binade y - 23)) as Hu.
    apply Qmult_le_compat_r; [| lra]. rewrite <- Zle_Qle.
    apply round_ne_mono. apply Qmult_le_compat_r; [exact Hxy |].
    apply Qlt_le_weak. apply Qinv_lt_0_compat. exact Hu.
  - destruct (round_binary32_in_binade x Hx) as [_ Ux].
    destruct (round_binary32_in_binade y) as [Ly _]; [lra |].
    assert (Hp : pow2 (binade x + 1) <= pow2 (binade y)) by (apply pow2_le; lia).
    lra.
Qed.

Lemma round_binary32_mono (x y : Q) :
  x <= y -> round_binary32 x <= round_binary32 y.
Proof.
  intros Hxy. destruct (Qlt_le_dec 0 x) as [Hx | Hx].
  - apply round_binary32_mono_pos; assumption.
  - destruct (Qlt_le_dec y 0) as [Hy | Hy].
    + assert (H : round_binary32 (- y) <= round_binary32 (- x))
        by (apply round_binary32_mono_pos; lra).
      rewrite !round_binary32_opp in H. lra.
    + pose proof (round_binary32_nonneg y Hy) as H1.
      assert (H2 : 0 <= round_binary32 (- x))
        by (apply round_binary32_nonneg; lra).
      rewrite round_binary32_opp in H2. lra.
Qed.

End Binary32.

#[refine] Instance binary32 : Rounding := {| fl := round_binary32 |}.
Proof.
  - exact round_binary32_mono.
  - exact round_binary32_idem.
  - exact round_binary32_int.
  - exact round_binary32_half.
  - exact round_binary32_double.
Defined.

(** ** Bytes and words *)

Lemma byte_val_range (b : byte) : 0 <= byte_val b < 256.
Proof.
  unfold byte_val. pose proof (Byte.to_N_bounded b) as H. lia.
Qed.

Lemma byte_val_of_Z (z : Z) : 0 <= z < 256 -> byte_val (byte_of_Z z) = z.
Proof.
  intros Hz. unfold byte_val, byte_of_Z. rewrite Z.mod_small by lia.
  destruct (Byte.of_N (Z.to_N z)) as [b |] eqn:E.
  - apply Byte.to_of_N in E. rewrite E. lia.
  - apply Byte.of_N_None_iff in E. lia.
Qed.

Lemma byte_of_Z_mod (a b : Z) :
  a mod 256 = b mod 256 -> byte_of_Z a = byte_of_Z b.
Proof. intros H. unfold byte_of_Z. rewrite H. reflexivity. Qed.

Lemma testbit_byte_high (a i : Z) :
  0 <= a < 256 -> 8 <= i -> Z.testbit a i = false.
Proof.
  intros Ha Hi. rewrite <- (Z.mod_small a (2 ^ 8)) by lia.
  apply Z.mod_pow2_bits_high. lia.
Qed.

(** Equality of the low byte of two words built from shifts and ors of
    8-bit fields, bit by bit. *)
Ltac byte_bits :=
  apply Z.bits_inj'; intros i Hi;
  change 256 with (2 ^ 8); rewrite !Z.testbit_mod_pow2 by lia;
  destruct (i <? 8) eqn:Ei; [apply Z.ltb_lt in Ei | reflexivity];
  cbn [andb]; unfold Encode.PackYUY2, u32;
  repeat (rewrite ?Z.shiftr_spec, ?Z.lor_spec, ?Z.testbit_mod_pow2,
                  ?Z.shiftl_spec by lia);
  repeat match goal with
         | |- context [Z.testbit ?a ?j] =>
             first [ rewrite (Z.testbit_neg_r a j) by lia
                   | rewrite (testbit_byte_high a j) by lia ]
         | |- context [?a <? ?b] =>
             first [ replace (a <? b) with true
                       by (symmetry; apply Z.ltb_lt; lia)
                   | replace (a <? b) with false
                       by (symmetry; apply Z.ltb_ge; lia) ]
         end;
  cbn [andb orb]; rewrite ?Bool.orb_false_r, ?Bool.orb_false_l;
  try reflexivity; try (f_equal; lia).

Lemma le_split_PackYUY2 (y0 u y1 v : Z) :
  0 <= y0 < 256 -> 0 <= u < 256 -> 0 <= y1 < 256 -> 0 <= v < 256 ->
  le_split 4 (Encode.PackYUY2 y0 u y1 v)
  = [byte_of_Z y0; byte_of_Z u; byte_of_Z y1; byte_of_Z v].
Proof.
  intros H0 Hu H1 Hv. cbn [le_split].
  f_equal; [apply byte_of_Z_mod; byte_bits |].
  f_equal; [apply byte_of_Z_mod; byte_bits |].
  f_equal; [apply byte_of_Z_mod; byte_bits |].
  f_equal; apply byte_of_Z_mod; byte_bits.
Qed.

Lemma word_bytes_PackYUY2 (y0 u y1 v : Z) :
  0 <= y0 < 256 -> 0 <= u < 256 -> 0 <= y1 < 256 -> 0 <= v < 256 ->
  word_bytes (Encode.PackYUY2 y0 u y1 v) = [y0; u; y1; v].
Proof.
  intros H0 Hu H1 Hv. unfold word_bytes.
  rewrite le_split_PackYUY2 by assumption.
  cbn [map]. rewrite !byte_val_of_Z by assumption. reflexivity.
Qed.

(** ** The studio range of the encoder *)

Section StudioRange.
Context {R : Rounding}.
Import HLSL.

Lemma lit_16 : (lit 16 == 16)%Q.
Proof. apply (lit_int 16). lia. Qed.

Lemma lit_235 : (lit 235 == 235)%Q.
Proof. apply (lit_int 235). lia. Qed.

Lemma lit_240 : (lit 240 == 240)%Q.
Proof. apply (lit_int 240). lia. Qed.

Lemma clamp_luma (x : Q) :
  (16 <= clamp x (lit 16) (lit 235))%Q /\ (clamp x (lit 16) (lit 235) <= 235)%Q.
Proof.
  destruct (clamp_bounds x (lit 16) (lit 235)) as [H1 H2].
  - rewrite lit_16, lit_235. lra.
  - split.
    + eapply Qle_trans; [| exact H1]. rewrite lit_16. apply Qle_refl.
    + eapply Qle_trans; [exact H2 |]. rewrite lit_235. apply Qle_refl.
Qed.

Lemma clamp_chroma (x : Q) :
  (16 <= clamp x (lit 16) (lit 240))%Q /\ (clamp x (lit 16) (lit 240) <= 240)%Q.
Proof.
  destruct (clamp_bounds x (lit 16) (lit 240)) as [H1 H2].
  - rewrite lit_16, lit_240. lra.
  - split.
    + eapply Qle_trans; [| exact H1]. rewrite lit_16. apply Qle_refl.
    + eapply Qle_trans; [exact H2 |]. rewrite lit_240. apply Qle_refl.
Qed.

Lemma RGBToYUV_range (rgb : F3.t) : yuv_in_range (Encode.RGBToYUV rgb).
Proof.
  unfold yuv_in_range, Encode.RGBToYUV. cbn [F3.x F3.y F3.z].
  repeat split; first [apply clamp_luma | apply clamp_chroma].
Qed.

Lemma RGBToYUV_matrix_range (rgb : F3.t) :
  yuv_in_range (EncodeMatrix.RGBToYUV rgb).
Proof.
  unfold yuv_in_range, EncodeMatrix.RGBToYUV. cbn [F3.x F3.y F3.z].
  repeat split; first [apply clamp_luma | apply clamp_chroma].
Qed.

(** What both [encode_pair] do with the two converted pixels. *)
Lemma quantize_range (yuv0 yuv1 : F3.t) :
  yuv_in_range yuv0 -> yuv_in_range yuv1 ->
  16 <= ftou (round (F3.x yuv0)) <= 235
  /\ 16 <= ftou (round (fmul (fadd (F3.y yuv0) (F3.y yuv1)) (lit 0.5))) <= 240
  /\ 16 <= ftou (round (F3.x yuv1)) <= 235
  /\ 16 <= ftou (round (fmul (fadd (F3.z yuv0) (F3.z yuv1)) (lit 0.5))) <= 240.
Proof.
  intros [[Hx0 Hx0'] [[Hy0 Hy0'] [Hz0 Hz0']]] [[Hx1 Hx1'] [[Hy1 Hy1'] [Hz1 Hz1']]].
  destruct (average_bounds _ _ Hy0 Hy0' Hy1 Hy1') as [Hu Hu'].
  destruct (average_bounds _ _ Hz0 Hz0' Hz1 Hz1') as [Hv Hv'].
  split; [| split; [| split]]; apply ftou_round_bounds; try lia; assumption.
Qed.

Lemma encode_pair_range (pixel0 pixel1 : F4.t) :
  let m := Encode.encode_pair pixel0 pixel1 in
  16 <= Encode.Y0 m <= 235 /\ 16 <= Encode.U m <= 240
  /\ 16 <= Encode.Y1 m <= 235 /\ 16 <= Encode.V m <= 240.
Proof.
  cbv zeta. unfold Encode.encode_pair. cbn [Encode.Y0 Encode.U Encode.Y1 Encode.V].
  apply quantize_range; apply RGBToYUV_range.
Qed.

Lemma encode_pair_matrix_range (pixel0 pixel1 : F4.t) :
  let m := EncodeMatrix.encode_pair pixel0 pixel1 in
  16 <= Encode.Y0 m <= 235 /\ 16 <= Encode.U m <= 240
  /\ 16 <= Encode.Y1 m <= 235 /\ 16 <= Encode.V m <= 240.
Proof.
  cbv zeta. unfold EncodeMatrix.encode_pair.
  cbn [Encode.Y0 Encode.U Encode.Y1 Encode.V].
  apply quantize_range; apply RGBToYUV_matrix_range.
Qed.

Lemma pack_studio_range (m : Encode.Macropixel) :
  16 <= Encode.Y0 m <= 235 /\ 16 <= Encode.U m <= 240
  /\ 16 <= Encode.Y1 m <= 235 /\ 16 <= Encode.V m <= 240 ->
  studio_range (word_bytes (Encode.pack m)).
Proof.
  intros (H0 & Hu & H1 & Hv). unfold Encode.pack.
  rewrite word_bytes_PackYUY2 by lia. cbn [studio_range]. lia.
Qed.

Lemma Forall_writes {A : Type} (Q : A -> Prop) (kernel : uint2 -> option A)
    (threads : list uint2) :
  (forall id s, kernel id = Some s -> Q s) ->
  Forall Q (writes kernel threads).
Proof.
  intros H. unfold writes. apply Forall_flat_map. apply Forall_forall.
  intros id _. destruct (kernel id) as [s |] eqn:E.
  - constructor; [apply (H id); exact E | constructor].
  - constructor.
Qed.

End StudioRange.

Section EncodeWrites.
Context {R : Rounding}.

Lemma CSMain_word (P : ConversionParams) (InputTexture : Texture2D)
    (id : uint2) (byteOffset word : Z) :
  Encode.CSMain P InputTexture id = Some (byteOffset, word) ->
  exists pixel0 pixel1,
    Encode.load_pair P InputTexture id = Some (pixel0, pixel1)
    /\ word = Encode.pack (Encode.encode_pair pixel0 pixel1).
Proof.
  unfold Encode.CSMain.
  destruct (Encode.load_pair P InputTexture id) as [[pixel0 pixel1] |];
    [| discriminate].
  cbv zeta. destruct (_ <? _); [| discriminate].
  intros H. injection H as _ Hw. exists pixel0, pixel1. split; [reflexivity |].
  symmetry. exact Hw.
Qed.

Lemma CSMain_matrix_word (P : ConversionParams) (InputTexture : Texture2D)
    (id : uint2) (outputIndex word : Z) :
  EncodeMatrix.CSMain P InputTexture id = Some (outputIndex, word) ->
  exists pixel0 pixel1,
    word = Encode.pack (EncodeMatrix.encode_pair pixel0 pixel1).
Proof.
  unfold EncodeMatrix.CSMain. destruct (_ || _); [discriminate |].
  cbv zeta. intros H. injection H as _ Hw. eexists _, _. symmetry. exact Hw.
Qed.

End EncodeWrites.

(** ** The layout of a macropixel in memory *)

Lemma PackYUY2_no_wrap (y0 u y1 v : Z) :
  0 <= u < 256 -> 0 <= y1 < 256 -> 0 <= v < 256 ->
  Encode.PackYUY2 y0 u y1 v
  = Z.lor (Z.lor (Z.lor (Z.shiftl v 24) (Z.shiftl y1 16)) (Z.shiftl u 8)) y0.
Proof.
  intros Hu H1 Hv. unfold Encode.PackYUY2, u32.
  rewrite !Z.shiftl_mul_pow2 by lia.
  rewrite !Z.mod_small by lia. reflexivity.
Qed.

Lemma length_le_split (n : nat) (w : Z) : length (le_split n w) = n.
Proof.
  revert w. induction n as [| n IH]; intros w; cbn [le_split length].
  - reflexivity.
  - rewrite IH. reflexivity.
Qed.

Lemma bytes_at_Store (buf : ByteAddressBuffer) (addr w : Z) :
  0 <= addr -> addr + 4 <= Z.of_nat (length buf) ->
  bytes_at (Store buf addr w) addr 4 = le_split 4 w.
Proof.
  intros H0 Hlen. unfold Store, bytes_at.
  assert (Hb : (addr + 4 <=? Z.of_nat (length buf)) = true)
    by (apply Z.leb_le; exact Hlen).
  assert (Hb0 : (0 <=? addr) = true) by (apply Z.leb_le; exact H0).
  rewrite Hb, Hb0. cbn [andb].
  assert (Hn : length (firstn (Z.to_nat addr) buf) = Z.to_nat addr)
    by (apply firstn_length_le; lia).
  rewrite skipn_app, Hn, Nat.sub_diag.
  rewrite (skipn_all2 (firstn (Z.to_nat addr) buf)) by lia.
  cbn [skipn app]. rewrite firstn_app, length_le_split.
  rewrite firstn_all2 by (rewrite length_le_split; lia).
  rewrite Nat.sub_diag. cbn [firstn]. apply app_nil_r.
Qed.

Lemma length_Store (buf : ByteAddressBuffer) (addr w : Z) :
  length (Store buf addr w) = length buf.
Proof.
  unfold Store. destruct (0 <=? addr) eqn:E0; [| reflexivity].
  destruct (addr + 4 <=? Z.of_nat (length buf)) eqn:E; [| reflexivity].
  apply Z.leb_le in E0. apply Z.leb_le in E. cbn [andb].
  rewrite !length_app, length_le_split, length_skipn.
  rewrite firstn_length_le by lia. lia.
Qed.

Lemma nth_Store (buf : ByteAddressBuffer) (addr w : Z) (k : nat) (d : byte) :
  0 <= addr -> addr + 4 <= Z.of_nat (length buf) ->
  nth k (Store buf addr w) d
  = if (Z.to_nat addr <=? k)%nat && (k <? Z.to_nat addr + 4)%nat
    then nth (k - Z.to_nat addr) (le_split 4 w) d
    else nth k buf d.
Proof.
  intros H0 Hlen. unfold Store.
  replace (0 <=? addr) with true by (symmetry; apply Z.leb_le; exact H0).
  replace (addr + 4 <=? Z.of_nat (length buf)) with true
    by (symmetry; apply Z.leb_le; exact Hlen).
  cbn [andb]. set (a := Z.to_nat addr).
  assert (Ha : (a + 4 <= length buf)%nat) by lia.
  assert (Hfa : length (firstn a buf) = a) by (apply firstn_length_le; lia).
  destruct (a <=? k)%nat eqn:E1; cbn [andb].
  - apply Nat.leb_le in E1. rewrite app_nth2 by lia. rewrite Hfa.
    destruct (k <? a + 4)%nat eqn:E2.
    + apply Nat.ltb_lt in E2. apply app_nth1. rewrite length_le_split. lia.
    + apply Nat.ltb_ge in E2. rewrite app_nth2 by (rewrite length_le_split; lia).
      rewrite length_le_split, nth_skipn. f_equal. lia.
  - apply Nat.leb_gt in E1. rewrite app_nth1 by lia.
    rewrite nth_firstn. replace (k <? a)%nat with true
      by (symmetry; apply Nat.ltb_lt; lia). reflexivity.
Qed.

Lemma bytes_at_nth (buf : ByteAddressBuffer) (addr : Z) (d : byte) :
  0 <= addr -> addr + 4 <= Z.of_nat (length buf) ->
  bytes_at buf addr 4
  = [nth (Z.to_nat addr + 0) buf d; nth (Z.to_nat addr + 1) buf d;
     nth (Z.to_nat addr + 2) buf d; nth (Z.to_nat addr + 3) buf d].
Proof.
  intros H0 Hlen. unfold bytes_at. set (a := Z.to_nat addr).
  assert (Ha : (a + 4 <= length buf)%nat) by lia.
  rewrite <- !(nth_skipn a buf _ d).
  assert (Hl : (4 <= length (skipn a buf))%nat) by (rewrite length_skipn; lia).
  destruct (skipn a buf) as [| b0 [| b1 [| b2 [| b3 rest]]]];
    cbn [length] in Hl; try lia.
  reflexivity.
Qed.

Lemma bytes_at_Store_other (buf : ByteAddressBuffer) (a b w : Z) :
  0 <= a -> a + 4 <= Z.of_nat (length buf) ->
  0 <= b -> b + 4 <= Z.of_nat (length buf) ->
  a + 4 <= b \/ b + 4 <= a ->
  bytes_at (Store buf a w) b 4 = bytes_at buf b 4.
Proof.
  intros Ha Ha' Hb Hb' Hdis.
  rewrite (bytes_at_nth (Store buf a w) b x00)
    by (rewrite ?length_Store; lia).
  rewrite (bytes_at_nth buf b x00) by lia.
  rewrite !nth_Store by lia.
  repeat match goal with
         | |- context [((?x <=? ?y)%nat && (?u <? ?v)%nat)] =>
             replace ((x <=? y)%nat && (u <? v)%nat) with false
               by (symmetry; apply andb_false_iff;
                   rewrite Nat.leb_gt, Nat.ltb_ge; lia)
         end.
  reflexivity.
Qed.

Lemma apply_stores_cons (buf : ByteAddressBuffer) (s : Z * Z)
    (rest : list (Z * Z)) :
  apply_stores buf (s :: rest) = apply_stores (Store buf (fst s) (snd s)) rest.
Proof. reflexivity. Qed.

Lemma length_apply_stores (stores : list (Z * Z)) (buf : ByteAddressBuffer) :
  length (apply_stores buf stores) = length buf.
Proof.
  revert buf. induction stores as [| s rest IH]; intros buf.
  - reflexivity.
  - rewrite apply_stores_cons, IH. apply length_Store.
Qed.

(** Stores to other aligned words leave a word unchanged. *)
Lemma apply_stores_other (stores : list (Z * Z)) (buf : ByteAddressBuffer)
    (b : Z) :
  0 <= b -> b + 4 <= Z.of_nat (length buf) -> b mod 4 = 0 ->
  Forall (fun s => 0 <= fst s /\ fst s mod 4 = 0 /\ fst s <> b) stores ->
  bytes_at (apply_stores buf stores) b 4 = bytes_at buf b 4.
Proof.
  intros Hb Hb' Hal. revert buf Hb'.
  induction stores as [| s rest IH]; intros buf Hb' Hall.
  - reflexivity.
  - inversion Hall as [| s' rest' (Hs0 & Hsal & Hne) Hrest]; subst.
    rewrite apply_stores_cons.
    rewrite IH; [| rewrite length_Store; exact Hb' | exact Hrest].
    destruct (Z.leb_spec (fst s + 4) (Z.of_nat (length buf))) as [Hin | Hout].
    + apply bytes_at_Store_other; try lia.
      pose proof (Z.div_mod (fst s) 4). pose proof (Z.div_mod b 4). lia.
    + unfold Store.
      replace (fst s + 4 <=? Z.of_nat (length buf)) with false
        by (symmetry; apply Z.leb_gt; lia).
      rewrite andb_false_r. reflexivity.
Qed.

(** With pairwise distinct aligned offsets, every store of the list is
    in the final buffer. *)
Lemma apply_stores_lookup (stores : list (Z * Z)) (buf : ByteAddressBuffer)
    (b w : Z) :
  NoDup (map fst stores) ->
  Forall (fun s => 0 <= fst s /\ fst s mod 4 = 0
                   /\ fst s + 4 <= Z.of_nat (length buf)) stores ->
  In (b, w) stores ->
  bytes_at (apply_stores buf stores) b 4 = le_split 4 w.
Proof.
  revert buf. induction stores as [| s rest IH]; intros buf Hnd Hall Hin.
  - contradiction.
  - cbn [map] in Hnd. inversion Hnd as [| k ks Hk Hnd']; subst.
    inversion Hall as [| s' rest' (Hs0 & Hsal & Hsin) Hrest]; subst.
    rewrite apply_stores_cons.
    destruct Hin as [Heq | Hin].
    + subst s. cbn [fst snd] in *.
      rewrite apply_stores_other; try (rewrite ?length_Store; lia).
      * apply bytes_at_Store; lia.
      * apply Forall_forall. intros s Hs.
        pose proof (proj1 (Forall_forall _ _) Hrest s Hs) as (H1 & H2 & _).
        split; [exact H1 | split; [exact H2 |]].
        intros Heq. apply Hk. apply in_map_iff. exists s. split; assumption.
    + apply IH; [exact Hnd' | | exact Hin].
      apply Forall_forall. intros s' Hs'.
      pose proof (proj1 (Forall_forall _ _) Hrest s' Hs') as (H1 & H2 & H3).
      rewrite length_Store. auto.
Qed.

Section Layout.
Context {R : Rounding}.

Lemma CSMain_offset (P : ConversionParams) (InputTexture : Texture2D)
    (id : uint2) (byteOffset word : Z) :
  Encode.CSMain P InputTexture id = Some (byteOffset, word) ->
  0 <= byteOffset < 2 ^ 32.
Proof.
  unfold Encode.CSMain.
  destruct (Encode.load_pair P InputTexture id) as [[pixel0 pixel1] |];
    [| discriminate].
  cbv zeta. destruct (_ <? _); [| discriminate].
  intros H. injection H as Ho _. subst byteOffset. unfold u32.
  apply Z.mod_pos_bound. lia.
Qed.

(** C7.  A thread of the YUY2 encode that writes, writes the word
    [(V << 24) | (Y1 << 16) | (U << 8) | Y0] of the four 8-bit values it
    computed from its two pixels, and after the store the four bytes at
    the byte offset are [Y0, U, Y1, V] in address order. *)
Theorem yuy2_word_is_Y0_U_Y1_V (P : ConversionParams)
    (InputTexture : Texture2D) (id : uint2) (byteOffset word : Z) :
  Encode.CSMain P InputTexture id = Some (byteOffset, word) ->
  exists pixel0 pixel1,
    Encode.load_pair P InputTexture id = Some (pixel0, pixel1)
    /\ let m := Encode.encode_pair pixel0 pixel1 in
       (0 <= Encode.Y0 m < 256 /\ 0 <= Encode.U m < 256
        /\ 0 <= Encode.Y1 m < 256 /\ 0 <= Encode.V m < 256)
       /\ word = Z.lor (Z.lor (Z.lor (Z.shiftl (Encode.V m) 24)
                                     (Z.shiftl (Encode.Y1 m) 16))
                              (Z.shiftl (Encode.U m) 8))
                       (Encode.Y0 m)
       /\ forall OutputBuffer : ByteAddressBuffer,
            byteOffset + 4 <= Z.of_nat (length OutputBuffer) ->
            map byte_val (bytes_at (Store OutputBuffer byteOffset word)
                                   byteOffset 4)
            = [Encode.Y0 m; Encode.U m; Encode.Y1 m; Encode.V m].
Proof.
  intros H. pose proof (CSMain_offset _ _ _ _ _ H) as Hoff.
  apply CSMain_word in H. destruct H as (pixel0 & pixel1 & Hload & ->).
  exists pixel0, pixel1. split; [exact Hload |]. cbv zeta.
  pose proof (encode_pair_range pixel0 pixel1) as Hr. cbv zeta in Hr.
  destruct Hr as (H0 & Hu & H1 & Hv).
  split; [lia |]. split.
  - unfold Encode.pack. apply PackYUY2_no_wrap; lia.
  - intros OutputBuffer Hlen. rewrite bytes_at_Store by lia.
    apply word_bytes_PackYUY2; lia.
Qed.

End Layout.

Lemma yuy2_word_is_Y0_U_Y1_V_witness :
  let P := {| ImageWidth := 2; ImageHeight := 1; OutputStride := 4;
              Padding := 0 |} in
  let InputTexture : Texture2D := fun _ _ => F4.mk 1 0 0 1 in
  exists pixel0 pixel1,
    Encode.load_pair P InputTexture (0, 0) = Some (pixel0, pixel1)
    /\ let m := Encode.encode_pair (R := binary32) pixel0 pixel1 in
       (0 <= Encode.Y0 m < 256 /\ 0 <= Encode.U m < 256
        /\ 0 <= Encode.Y1 m < 256 /\ 0 <= Encode.V m < 256)
       /\ 1781129769 = Z.lor (Z.lor (Z.lor (Z.shiftl (Encode.V m) 24)
                                     (Z.shiftl (Encode.Y1 m) 16))
                              (Z.shiftl (Encode.U m) 8))
                       (Encode.Y0 m)
       /\ forall OutputBuffer : ByteAddressBuffer,
            0 + 4 <= Z.of_nat (length OutputBuffer) ->
            map byte_val (bytes_at (Store OutputBuffer 0 1781129769) 0 4)
            = [Encode.Y0 m; Encode.U m; Encode.Y1 m; Encode.V m].
Proof.
  cbv zeta.
  apply (yuy2_word_is_Y0_U_Y1_V (R := binary32)
           {| ImageWidth := 2; ImageHeight := 1; OutputStride := 4;
              Padding := 0 |}
           (fun _ _ => F4.mk 1 0 0 1) (0, 0) 0 1781129769).
  vm_compute. reflexivity.
Defined.

(** ** Odd widths *)

Section OddWidth.
Context {R : Rounding}.
Import HLSL.

Lemma representable_fl (x : Q) : representable (fl x).
Proof. apply fl_idem. Qed.

Lemma representable_comp (x y : Q) :
  (x == y)%Q -> representable x -> representable y.
Proof.
  unfold representable. intros Hxy Hx.
  rewrite <- (fl_comp _ _ Hxy). rewrite Hx. exact Hxy.
Qed.

Lemma representable_Qmax (a b : Q) :
  representable a -> representable b -> representable (Qmax a b).
Proof.
  intros Ha Hb. destruct (Q.max_spec a b) as [[_ H] | [_ H]].
  - apply (representable_comp b); [symmetry; exact H | exact Hb].
  - apply (representable_comp a); [symmetry; exact H | exact Ha].
Qed.

Lemma representable_Qmin (a b : Q) :
  representable a -> representable b -> representable (Qmin a b).
Proof.
  intros Ha Hb. destruct (Q.min_spec a b) as [[_ H] | [_ H]].
  - apply (representable_comp a); [symmetry; exact H | exact Ha].
  - apply (representable_comp b); [symmetry; exact H | exact Hb].
Qed.

Lemma representable_clamp (x lo hi : Q) :
  representable x -> representable lo -> representable hi ->
  representable (clamp x lo hi).
Proof.
  intros Hx Hlo Hhi. unfold clamp.
  apply representable_Qmin; [apply representable_Qmax |]; assumption.
Qed.

(** The average of a representable value with itself is that value. *)
Lemma average_same (u : Q) :
  representable u -> (fmul (fadd u u) (lit 0.5) == u)%Q.
Proof.
  unfold representable. intros Hu. unfold fmul, fadd.
  assert (Hs : (fl (u + u) == 2 * u)%Q).
  { transitivity (fl (2 * fl u)).
    - apply fl_comp. rewrite Hu. ring.
    - rewrite fl_double. rewrite Hu. reflexivity. }
  transitivity (fl u); [| exact Hu].
  apply fl_comp. rewrite Hs, lit_half. field.
Qed.

Lemma RGBToYUV_representable (rgb : F3.t) :
  representable (F3.y (Encode.RGBToYUV rgb))
  /\ representable (F3.z (Encode.RGBToYUV rgb)).
Proof.
  unfold Encode.RGBToYUV. cbn [F3.y F3.z].
  split; apply representable_clamp; apply representable_fl.
Qed.

Lemma encode_pair_same (pixel : F4.t) :
  Encode.encode_pair pixel pixel
  = {| Encode.Y0 := own_Y pixel; Encode.U := own_U pixel;
       Encode.Y1 := own_Y pixel; Encode.V := own_V pixel |}.
Proof.
  unfold Encode.encode_pair, own_Y, own_U, own_V, own_yuv.
  set (rgb := F3.mk (F4.b pixel) (F4.g pixel) (F4.r pixel)).
  destruct (RGBToYUV_representable rgb) as [Hy Hz].
  unfold round.
  rewrite (round_ne_comp _ _ (average_same _ Hy)).
  rewrite (round_ne_comp _ _ (average_same _ Hz)).
  reflexivity.
Qed.

End OddWidth.

Lemma u32_small (z : Z) : 0 <= z < 2 ^ 32 -> u32 z = z.
Proof. intros H. unfold u32. apply Z.mod_small. exact H. Qed.

Section OddWidthClaim.
Context {R : Rounding}.

(** The pixels loaded by the thread of the last pixel of an odd row. *)
Lemma load_pair_trailing (P : ConversionParams) (InputTexture : Texture2D)
    (y : Z) :
  0 < ImageWidth P < 2 ^ 32 -> Z.odd (ImageWidth P) = true ->
  0 <= y < ImageHeight P ->
  Encode.load_pair P InputTexture ((ImageWidth P - 1) / 2, y)
  = Some (InputTexture (ImageWidth P - 1) y, InputTexture (ImageWidth P - 1) y).
Proof.
  intros HW Hodd Hy. unfold Encode.load_pair. cbn [fst snd].
  destruct (proj1 (Z.odd_spec _) Hodd) as [k Hk].
  assert (Hx : (ImageWidth P - 1) / 2 = k).
  { rewrite Hk. replace (2 * k + 1 - 1) with (k * 2) by lia.
    apply Z.div_mul. lia. }
  rewrite Hx. rewrite (u32_small (k * 2)) by lia.
  replace (k * 2) with (ImageWidth P - 1) by lia.
  replace (ImageWidth P - 1 + 1) with (ImageWidth P) by lia.
  rewrite (u32_small (ImageWidth P)) by lia.
  replace (ImageWidth P <=? ImageWidth P - 1) with false
    by (symmetry; apply Z.leb_gt; lia).
  replace (ImageHeight P <=? y) with false
    by (symmetry; apply Z.leb_gt; lia).
  rewrite Z.ltb_irrefl. reflexivity.
Qed.

(** C5.  In a row of odd width the thread of the last pixel pairs that
    pixel with itself; the macropixel it computes has [Y0 = Y1] and the
    pixel's own, unaveraged chroma bytes; and when the width is 1 the
    only thread of row [y] that writes is thread 0, which writes exactly
    that macropixel. *)
Theorem odd_width_duplicates_last_pixel (P : ConversionParams)
    (InputTexture : Texture2D) (y : Z) :
  0 < ImageWidth P < 2 ^ 32 -> Z.odd (ImageWidth P) = true ->
  0 <= y < ImageHeight P -> ImageHeight P < 2 ^ 32 ->
  let pixel := InputTexture (ImageWidth P - 1) y in
  Encode.load_pair P InputTexture ((ImageWidth P - 1) / 2, y)
  = Some (pixel, pixel)
  /\ Encode.encode_pair pixel pixel
     = {| Encode.Y0 := own_Y pixel; Encode.U := own_U pixel;
          Encode.Y1 := own_Y pixel; Encode.V := own_V pixel |}
  /\ (ImageWidth P = 1 ->
      forall x : Z, 0 <= x < 2 ^ 31 ->
      Encode.CSMain P InputTexture (x, y)
      = if x =? 0
        then Some (u32 (y * 4),
                   Encode.PackYUY2 (own_Y pixel) (own_U pixel)
                                   (own_Y pixel) (own_V pixel))
        else None).
Proof.
  intros HW Hodd Hy HH pixel.
  split; [apply load_pair_trailing; assumption |].
  split; [apply encode_pair_same |].
  intros HW1 x Hx. destruct (x =? 0) eqn:Ex.
  - apply Z.eqb_eq in Ex. subst x.
    pose proof (load_pair_trailing P InputTexture y HW Hodd Hy) as Hl.
    rewrite HW1 in Hl. change ((1 - 1) / 2) with 0 in Hl.
    unfold Encode.CSMain. rewrite Hl. cbv zeta. cbn [fst snd].
    rewrite HW1. change (u32 (1 + 1) / 2) with 1.
    rewrite Z.mul_1_r, Z.mul_1_l, Z.add_0_r.
    rewrite !(u32_small y) by lia. rewrite (u32_small (ImageHeight P)) by lia.
    replace (y <? ImageHeight P) with true by (symmetry; apply Z.ltb_lt; lia).
    fold pixel. subst pixel. rewrite HW1. rewrite encode_pair_same.
    reflexivity.
  - apply Z.eqb_neq in Ex. unfold Encode.CSMain, Encode.load_pair.
    cbn [fst snd]. rewrite (u32_small (x * 2)) by lia.
    replace (ImageWidth P <=? x * 2) with true
      by (symmetry; apply Z.leb_le; lia).
    reflexivity.
Qed.

End OddWidthClaim.

Lemma odd_width_duplicates_last_pixel_witness :
  let P := {| ImageWidth := 1; ImageHeight := 2; OutputStride := 4;
              Padding := 0 |} in
  let InputTexture : Texture2D :=
    fun x y => F4.mk (inject_Z y) (1 # 2) (1 # 4) 1 in
  let pixel := InputTexture 0 1 in
  Encode.load_pair P InputTexture (0, 1) = Some (pixel, pixel)
  /\ Encode.encode_pair (R := binary32) pixel pixel
     = {| Encode.Y0 := own_Y pixel; Encode.U := own_U pixel;
          Encode.Y1 := own_Y pixel; Encode.V := own_V pixel |}
  /\ (1 = 1 ->
      forall x : Z, 0 <= x < 2 ^ 31 ->
      Encode.CSMain (R := binary32) P InputTexture (x, 1)
      = if x =? 0
        then Some (u32 (1 * 4),
                   Encode.PackYUY2 (own_Y pixel) (own_U pixel)
                                   (own_Y pixel) (own_V pixel))
        else None).
Proof.
  cbv zeta.
  apply (odd_width_duplicates_last_pixel (R := binary32)
           {| ImageWidth := 1; ImageHeight := 2; OutputStride := 4;
              Padding := 0 |}
           (fun x y => F4.mk (inject_Z y) (1 # 2) (1 # 4) 1) 1).
  - cbn. lia.
  - reflexivity.
  - cbn. lia.
  - cbn. lia.
Defined.

(** ** The NV12 to RGBA shader *)

Lemma saturate_one (x : Q) : (x == 1)%Q -> (HLSL.saturate x == 1)%Q.
Proof.
  intros H. unfold HLSL.saturate, HLSL.clamp.
  rewrite (Q.max_l x 0) by (rewrite H; discriminate).
  rewrite (Q.min_l x 1) by (rewrite H; apply Qle_refl).
  exact H.
Qed.

Lemma float_to_unorm8_one (x : Q) : (x == 1)%Q -> float_to_unorm8 x = 255.
Proof.
  intros H. unfold float_to_unorm8.
  rewrite (Qfloor_comp _ (511 # 2)).
  - reflexivity.
  - rewrite (saturate_one x H). reflexivity.
Qed.

Section DecodeClaims.
Context {R : Rounding}.

(** C10.  A thread of the NV12 decode whose position is inside the image
    writes its own texel, and the alpha channel it writes is 1.0, stored
    as the byte 255, whatever the buffer holds and whatever the loads
    return. *)
Theorem nv12_decode_alpha_is_one
    (unaligned_load : ByteAddressBuffer -> Z -> Z)
    (P : NV12ConversionParams) (InputBuffer : ByteAddressBuffer) (x y : Z) :
  x < NV12ImageWidth P -> y < NV12ImageHeight P ->
  exists rgba : F4.t,
    Decode.CSMain unaligned_load P InputBuffer (x, y) = Some ((x, y), rgba)
    /\ (F4.a rgba == 1)%Q
    /\ float_to_unorm8 (F4.a rgba) = 255.
Proof.
  intros Hx Hy. unfold Decode.CSMain. cbn [fst snd].
  replace (NV12ImageWidth P <=? x) with false
    by (symmetry; apply Z.leb_gt; exact Hx).
  replace (NV12ImageHeight P <=? y) with false
    by (symmetry; apply Z.leb_gt; exact Hy).
  cbn [orb]. eexists. split; [reflexivity |].
  cbn [F4.a F4.w].
  assert (Ha : (HLSL.lit 1.0 == 1)%Q).
  { unfold HLSL.lit. transitivity (fl (inject_Z 1)).
    - apply fl_comp. reflexivity.
    - apply fl_int. lia. }
  split; [exact Ha | apply float_to_unorm8_one; exact Ha].
Qed.

End DecodeClaims.

Lemma nv12_decode_alpha_is_one_witness :
  exists rgba : F4.t,
    Decode.CSMain (R := binary32) (fun _ _ => 0)
      {| NV12ImageWidth := 4; NV12ImageHeight := 2;
         YPlaneStride := 4; UVPlaneStride := 4 |}
      [x10; xeb; x64; xc8; x32; x3c; x46; x50; x80; x80; x5a; xf0]%byte
      (1, 1)
    = Some ((1, 1), rgba)
    /\ (F4.a rgba == 1)%Q
    /\ float_to_unorm8 (F4.a rgba) = 255.
Proof.
  apply (nv12_decode_alpha_is_one (R := binary32)); cbn; lia.
Defined.

(** The offsets of the NV12 loads, when no [uint] computation wraps. *)
Lemma fetch_offsets (unaligned_load : ByteAddressBuffer -> Z -> Z)
    (P : NV12ConversionParams) (InputBuffer : ByteAddressBuffer) (x y : Z) :
  0 <= x < NV12ImageWidth P -> 0 <= y < NV12ImageHeight P ->
  0 <= YPlaneStride P -> 0 <= UVPlaneStride P ->
  y * YPlaneStride P + x < 2 ^ 32 ->
  NV12ImageWidth P * NV12ImageHeight P + y / 2 * UVPlaneStride P + x < 2 ^ 32 ->
  let f := Decode.fetch unaligned_load P InputBuffer (x, y) in
  Decode.yOffset f = y * YPlaneStride P + x
  /\ Decode.uvOffset f
     = NV12ImageWidth P * NV12ImageHeight P + y / 2 * UVPlaneStride P
       + (x - x mod 2).
Proof.
  intros Hx Hy Hs Hs' Hy32 Huv32. cbv zeta. unfold Decode.fetch.
  cbn [Decode.yOffset Decode.uvOffset fst snd].
  assert (Hx2 : x / 2 * 2 = x - x mod 2).
  { pose proof (Z.div_mod x 2). lia. }
  assert (Hm : 0 <= x mod 2 < 2) by (apply Z.mod_pos_bound; lia).
  assert (Hy2 : 0 <= y / 2) by (apply Z.div_pos; lia).
  assert (Hp1 : 0 <= y * YPlaneStride P) by (apply Z.mul_nonneg_nonneg; lia).
  assert (Hp2 : 0 <= y / 2 * UVPlaneStride P)
    by (apply Z.mul_nonneg_nonneg; lia).
  assert (Hp3 : 0 <= NV12ImageWidth P * NV12ImageHeight P)
    by (apply Z.mul_nonneg_nonneg; lia).
  rewrite Hx2.
  rewrite (u32_small (y * YPlaneStride P)) by lia.
  rewrite (u32_small (y * YPlaneStride P + x)) by lia.
  rewrite (u32_small (x - x mod 2)) by lia.
  rewrite (u32_small (NV12ImageWidth P * NV12ImageHeight P)) by lia.
  rewrite (u32_small (y / 2 * UVPlaneStride P)) by lia.
  rewrite (u32_small (_ + y / 2 * UVPlaneStride P)) by lia.
  rewrite (u32_small (_ + (x - x mod 2))) by lia.
  split; reflexivity.
Qed.

(** A load at an aligned offset inside the buffer returns a word whose
    low 8 bits are the byte at that offset; the other 24 bits are the
    three bytes that follow. *)
Lemma Load_low_byte (unaligned_load : ByteAddressBuffer -> Z -> Z)
    (buf : ByteAddressBuffer) (addr : Z) :
  0 <= addr -> addr mod 4 = 0 -> addr + 4 <= Z.of_nat (length buf) ->
  Decode.Load unaligned_load buf addr mod 256 = byte_at buf addr.
Proof.
  intros H0 Hal Hlen. unfold Decode.Load, bytes_at, byte_at.
  rewrite Hal. cbn [Z.eqb].
  replace (addr + 4 <=? Z.of_nat (length buf)) with true
    by (symmetry; apply Z.leb_le; exact Hlen).
  assert (Hn : (Z.to_nat addr < length buf)%nat) by lia.
  remember (Z.to_nat addr) as n eqn:En. clear En H0 Hal Hlen.
  rewrite <- (firstn_skipn n buf) at 2.
  rewrite app_nth2 by (rewrite firstn_length_le; lia).
  rewrite firstn_length_le by lia. rewrite Nat.sub_diag.
  destruct (skipn n buf) as [| b0 rest] eqn:Es.
  - apply (f_equal (@length byte)) in Es. rewrite length_skipn in Es.
    cbn in Es. lia.
  - cbn [firstn le_combine nth].
    pose proof (byte_val_range b0) as Hb.
    apply Z.bits_inj'. intros i Hi. change 256 with (2 ^ 8).
    rewrite Z.testbit_mod_pow2 by lia. rewrite Z.lor_spec.
    destruct (i <? 8) eqn:Ei.
    + apply Z.ltb_lt in Ei. rewrite Z.shiftl_spec_low by lia.
      rewrite Bool.orb_false_r. reflexivity.
    + apply Z.ltb_ge in Ei. rewrite testbit_byte_high by lia. reflexivity.
Qed.

(** C2.  On a 4 by 2 NV12 buffer the thread of pixel (0, 0) loads from
    the offsets the specification gives, 0 for luma and 8 for chroma,
    but what it uses as luma is the 32-bit word at offset 0, the four
    luma bytes of the row, not the byte 16 stored there; as U the word
    at offset 8, not the byte 128; and as V the result of a load at the
    unaligned offset 9. *)
Theorem nv12_decode_loads_words_not_bytes
    (unaligned_load : ByteAddressBuffer -> Z -> Z) :
  let P := {| NV12ImageWidth := 4; NV12ImageHeight := 2;
              YPlaneStride := 4; UVPlaneStride := 4 |} in
  let InputBuffer : ByteAddressBuffer :=
    [x10; xeb; x64; xc8; x32; x3c; x46; x50; x80; x80; x5a; xf0]%byte in
  let f := Decode.fetch unaligned_load P InputBuffer (0, 0) in
  (Decode.yOffset f = 0 /\ byte_at InputBuffer 0 = 16
   /\ Decode.yValue f = 3362056976)
  /\ (Decode.uvOffset f = 8 /\ byte_at InputBuffer 8 = 128
      /\ Decode.uValue f = 4032462976)
  /\ (byte_at InputBuffer 9 = 128
      /\ Decode.vValue f = unaligned_load InputBuffer 9).
Proof.
  cbv zeta. repeat split; reflexivity.
Qed.

(** ** The two colour transforms of the encoder *)

(** C3.  On pure blue the two [RGBToYUV] give the same luma byte but
    chroma bytes 14 and 4 apart: (41, 226, 106) with the coefficients
    0.436 / 0.615 and the remapping [(U + 0.5) * 224 + 16], against
    (41, 240, 110) with the matrix and [U * 224 + 128]; in real
    arithmetic and in binary32 alike. *)
Theorem RGBToYUV_variants_differ_on_blue :
  (yuv_bytes (Encode.RGBToYUV (R := exact) (F3.mk 0 0 1)) = (41, 226, 106)
   /\ yuv_bytes (EncodeMatrix.RGBToYUV (R := exact) (F3.mk 0 0 1))
      = (41, 240, 110))
  /\ (yuv_bytes (Encode.RGBToYUV (R := binary32) (F3.mk 0 0 1))
      = (41, 226, 106)
      /\ yuv_bytes (EncodeMatrix.RGBToYUV (R := binary32) (F3.mk 0 0 1))
         = (41, 240, 110)).
Proof.
  split; split; vm_compute; reflexivity.
Qed.

(** The same on pure green, where V differs by 18. *)
Lemma RGBToYUV_variants_differ_on_green :
  (yuv_bytes (Encode.RGBToYUV (R := exact) (F3.mk 0 1 0)) = (145, 63, 16)
   /\ yuv_bytes (EncodeMatrix.RGBToYUV (R := exact) (F3.mk 0 1 0))
      = (145, 54, 34))
  /\ (yuv_bytes (Encode.RGBToYUV (R := binary32) (F3.mk 0 1 0))
      = (145, 63, 16)
      /\ yuv_bytes (EncodeMatrix.RGBToYUV (R := binary32) (F3.mk 0 1 0))
         = (145, 54, 34)).
Proof.
  split; split; vm_compute; reflexivity.
Qed.

Section SameLuma.
Context {R : Rounding}.
Import HLSL.

Lemma saturate_unit (x : Q) : (0 <= x)%Q -> (x <= 1)%Q -> (saturate x == x)%Q.
Proof.
  intros H0 H1. unfold saturate, clamp.
  rewrite (Q.max_l x 0) by exact H0. apply Q.min_l. exact H1.
Qed.

(** The luma rows of the two variants agree on [0, 1]^3: only the chroma
    rows differ. *)
Lemma RGBToYUV_variants_same_luma (rgb : F3.t) :
  (0 <= F3.x rgb)%Q -> (F3.x rgb <= 1)%Q ->
  (0 <= F3.y rgb)%Q -> (F3.y rgb <= 1)%Q ->
  (0 <= F3.z rgb)%Q -> (F3.z rgb <= 1)%Q ->
  (F3.x (Encode.RGBToYUV rgb) == F3.x (EncodeMatrix.RGBToYUV rgb))%Q.
Proof.
  intros Hx0 Hx1 Hy0 Hy1 Hz0 Hz1.
  unfold Encode.RGBToYUV, EncodeMatrix.RGBToYUV, EncodeMatrix.dot3.
  cbn [F3.x F3.y F3.z F3.r F3.g F3.b].
  unfold F3.r, F3.g, F3.b. cbn [F3.x F3.y F3.z].
  unfold clamp, fadd, fmul.
  rewrite (saturate_unit _ Hx0 Hx1), (saturate_unit _ Hy0 Hy1),
    (saturate_unit _ Hz0 Hz1).
  reflexivity.
Qed.

End SameLuma.

(** ** Round trip of solid red *)

(** C4.  A texel of a solid red image, in either byte order that
    [Convert] accepts, is encoded by the raw-buffer shader and decoded by
    [YUVToRGB] to the colour (0, 9, 227): blue, at distance 255 from pure
    red; in real arithmetic and in binary32 alike.  The structured-buffer
    shader, which does not exchange the channels, gives (254, 0, 0). *)
Theorem red_round_trip_is_blue :
  red_round_trips (R := exact) = [(0, 9, 227); (0, 9, 227)]
  /\ red_round_trips (R := binary32) = [(0, 9, 227); (0, 9, 227)]
  /\ Forall (fun c => channel_distance c (255, 0, 0) = 255)
            (red_round_trips (R := binary32))
  /\ round_trip_matrix (R := binary32)
       (texel_fetch (R := binary32) DXGI_FORMAT_B8G8R8A8_UNORM
                    [0; 0; 255; 255])
     = (254, 0, 0).
Proof.
  split; [vm_compute; reflexivity |].
  split; [vm_compute; reflexivity |].
  split; [| vm_compute; reflexivity].
  repeat constructor; vm_compute; reflexivity.
Qed.

(** Had the fetch delivered the bytes of a BGRA texel in memory order,
    as the comment of the raw-buffer shader assumes, red would come back
    as (254, 0, 9): the chroma scale of that shader does not match the
    decoder's. *)
Lemma red_round_trip_memory_order :
  round_trip (R := exact) (F4.mk 0 0 1 1) = (254, 0, 9)
  /\ round_trip (R := binary32) (F4.mk 0 0 1 1) = (254, 0, 9).
Proof.
  split; vm_compute; reflexivity.
Qed.

(** ** The threads of a dispatch *)

Lemma In_zrange (n z : Z) : In z (zrange n) <-> 0 <= z < n.
Proof.
  unfold zrange. rewrite in_map_iff. split.
  - intros [k [Hk Hin]]. apply in_seq in Hin. lia.
  - intros Hz. exists (Z.to_nat z). split; [lia |]. apply in_seq. lia.
Qed.

Lemma NoDup_zrange (n : Z) : NoDup (zrange n).
Proof.
  unfold zrange. apply NoDup_map_NoDup_ForallPairs.
  - intros a b _ _ H. lia.
  - apply seq_NoDup.
Qed.

Lemma NoDup_list_prod {A B : Type} (l : list A) (l' : list B) :
  NoDup l -> NoDup l' -> NoDup (list_prod l l').
Proof.
  intros Hl Hl'. induction Hl as [| a l Ha Hl IH]; cbn [list_prod].
  - constructor.
  - apply NoDup_app.
    + apply NoDup_map_NoDup_ForallPairs; [| exact Hl'].
      intros x y _ _ H. injection H as H. exact H.
    + exact IH.
    + intros [x y] Hin Hin'. apply in_map_iff in Hin.
      destruct Hin as [y' [Heq _]]. injection Heq as Hx _. subst x.
      apply in_prod_iff in Hin'. destruct Hin' as [Hin' _]. contradiction.
Qed.

Lemma NoDup_flat_map {A B : Type} (f : A -> list B) (l : list A) :
  NoDup l ->
  (forall a, In a l -> NoDup (f a)) ->
  (forall a a' b, In a l -> In a' l -> In b (f a) -> In b (f a') -> a = a') ->
  NoDup (flat_map f l).
Proof.
  intros Hl. induction Hl as [| a l Ha Hl IH]; intros Hf Hdisj;
    cbn [flat_map].
  - constructor.
  - apply NoDup_app.
    + apply Hf. left. reflexivity.
    + apply IH.
      * intros a' Ha'. apply Hf. right. exact Ha'.
      * intros a1 a2 b H1 H2. apply Hdisj; right; assumption.
    + intros b Hb Hb'. apply in_flat_map in Hb'.
      destruct Hb' as [a' [Ha' Hb']].
      assert (a = a') by (apply (Hdisj a a' b); auto using in_eq, in_cons).
      subst a'. contradiction.
Qed.

Lemma In_group_threads (g id : uint2) :
  In id (group_threads g)
  <-> (fst g * 16 <= fst id < fst g * 16 + 16)
      /\ (snd g * 16 <= snd id < snd g * 16 + 16).
Proof.
  unfold group_threads. rewrite in_map_iff. split.
  - intros [[tx ty] [Heq Hin]]. apply in_prod_iff in Hin.
    rewrite !In_zrange in Hin. subst id. cbn [fst snd]. lia.
  - intros [Hx Hy]. exists (fst id - fst g * 16, snd id - snd g * 16).
    split.
    + cbn [fst snd]. destruct id as [i j]. cbn [fst snd]. f_equal; lia.
    + apply in_prod_iff. rewrite !In_zrange. cbn [fst snd]. lia.
Qed.

Lemma NoDup_group_threads (g : uint2) : NoDup (group_threads g).
Proof.
  unfold group_threads. apply NoDup_map_NoDup_ForallPairs.
  - intros [tx ty] [tx' ty'] _ _ H. cbn [fst snd] in H.
    injection H as Hx Hy. f_equal; lia.
  - apply NoDup_list_prod; apply NoDup_zrange.
Qed.

Lemma In_dispatch_threads (groupsX groupsY : Z) (id : uint2) :
  In id (dispatch_threads groupsX groupsY)
  <-> 0 <= fst id < 16 * groupsX /\ 0 <= snd id < 16 * groupsY.
Proof.
  unfold dispatch_threads. rewrite in_flat_map. split.
  - intros [[gx gy] [Hg Hid]]. apply in_prod_iff in Hg.
    rewrite !In_zrange in Hg. apply In_group_threads in Hid.
    cbn [fst snd] in Hid. lia.
  - intros [Hx Hy]. exists (fst id / 16, snd id / 16).
    pose proof (Z.div_mod (fst id) 16) as Dx.
    pose proof (Z.div_mod (snd id) 16) as Dy.
    pose proof (Z.mod_pos_bound (fst id) 16) as Mx.
    pose proof (Z.mod_pos_bound (snd id) 16) as My.
    split.
    + apply in_prod_iff. rewrite !In_zrange.
      split; (split; [apply Z.div_pos; lia | apply Z.div_lt_upper_bound; lia]).
    + apply In_group_threads. cbn [fst snd]. lia.
Qed.

Lemma NoDup_dispatch_threads (groupsX groupsY : Z) :
  NoDup (dispatch_threads groupsX groupsY).
Proof.
  unfold dispatch_threads. apply NoDup_flat_map.
  - apply NoDup_list_prod; apply NoDup_zrange.
  - intros g _. apply NoDup_group_threads.
  - intros [gx gy] [gx' gy'] id _ _ H H'.
    apply In_group_threads in H. apply In_group_threads in H'.
    cbn [fst snd] in H, H'. f_equal; lia.
Qed.

Lemma In_writes {A : Type} (kernel : uint2 -> option A)
    (threads : list uint2) (s : A) :
  In s (writes kernel threads)
  <-> exists id, In id threads /\ kernel id = Some s.
Proof.
  unfold writes. rewrite in_flat_map. split.
  - intros [id [Hid Hs]]. exists id. split; [exact Hid |].
    destruct (kernel id) as [s' |]; cbn in Hs; [| contradiction].
    destruct Hs as [Hs | []]. subst s'. reflexivity.
  - intros [id [Hid Hs]]. exists id. split; [exact Hid |].
    rewrite Hs. left. reflexivity.
Qed.

(** When no two writing threads share a key, no key is written twice. *)
Lemma NoDup_writes_keys {A K : Type} (key : A -> K)
    (kernel : uint2 -> option A) (threads : list uint2) :
  NoDup threads ->
  (forall id id' s s', In id threads -> In id' threads ->
     kernel id = Some s -> kernel id' = Some s' -> key s = key s' ->
     id = id') ->
  NoDup (map key (writes kernel threads)).
Proof.
  intros Hnd. induction Hnd as [| id l Hid Hnd IH]; intros Hinj.
  - constructor.
  - unfold writes. cbn [flat_map]. fold (writes kernel l).
    assert (IH' : NoDup (map key (writes kernel l))).
    { apply IH. intros a b s s' Ha Hb. apply Hinj; right; assumption. }
    destruct (kernel id) as [s |] eqn:Ek; cbn [app map]; [| exact IH'].
    constructor; [| exact IH'].
    intros Hin. apply in_map_iff in Hin. destruct Hin as [s' [Hk Hs']].
    apply In_writes in Hs'. destruct Hs' as [id' [Hid' Hk']].
    assert (id = id').
    { apply (Hinj id id' s s'); auto using in_eq, in_cons. }
    subst id'. contradiction.
Qed.

(** ** The dispatch grid of the encoder *)

Lemma ceil_div_2 (W : Z) : ceil_div W 2 = (W + 1) / 2.
Proof. unfold ceil_div. f_equal. lia. Qed.

Lemma ceil_div_2_bounds (W : Z) : 1 <= W -> 1 <= ceil_div W 2 <= W.
Proof.
  intros HW. rewrite ceil_div_2. split.
  - apply Z.div_le_lower_bound; lia.
  - apply Z.div_le_upper_bound; lia.
Qed.

(** A pixel pair starts inside the row exactly when its index is below
    [ceil(W / 2)]. *)
Lemma pair_inside (W i : Z) : 2 * i < W <-> i < ceil_div W 2.
Proof.
  rewrite ceil_div_2. pose proof (Z.div_mod (W + 1) 2) as D.
  pose proof (Z.mod_pos_bound (W + 1) 2) as M. lia.
Qed.

Lemma dispatchX_ceil (W : Z) :
  0 <= W -> W + 31 < 2 ^ 32 ->
  BGRAToYUY2Converter.dispatchX W = ceil_div (ceil_div W 2) 16.
Proof.
  intros H0 HW. unfold BGRAToYUY2Converter.dispatchX.
  rewrite u32_small by lia. rewrite ceil_div_2. unfold ceil_div.
  replace ((W + 1) / 2 + 16 - 1) with ((W + 1 + 15 * 2) / 2)
    by (rewrite Z.div_add by lia; lia).
  rewrite Z.div_div by lia. f_equal. lia.
Qed.

Lemma dispatchY_ceil (H : Z) :
  0 <= H -> H + 15 < 2 ^ 32 ->
  BGRAToYUY2Converter.dispatchY H = ceil_div H 16.
Proof.
  intros H0 HH. unfold BGRAToYUY2Converter.dispatchY, ceil_div.
  rewrite u32_small by lia. f_equal. lia.
Qed.

(** Sizes for which the output buffer fits the [UINT] range. *)
Lemma fits_bounds (W H : Z) :
  1 <= W -> 1 <= H -> ceil_div W 2 * H * 4 < 2 ^ 32 ->
  W < 2 ^ 31 /\ H < 2 ^ 30 /\ ceil_div W 2 * H < 2 ^ 30.
Proof.
  intros HW HH Hfit. pose proof (ceil_div_2_bounds W HW) as Hc.
  assert (Hw2 : W <= 2 * ceil_div W 2).
  { rewrite ceil_div_2. pose proof (Z.div_mod (W + 1) 2) as D.
    pose proof (Z.mod_pos_bound (W + 1) 2) as M. lia. }
  split; [nia | split; nia].
Qed.

Lemma yuy2Size_no_wrap (W H : Z) :
  1 <= W -> 1 <= H -> ceil_div W 2 * H * 4 < 2 ^ 32 ->
  BGRAToYUY2Converter.yuy2Size W H = ceil_div W 2 * H * 4.
Proof.
  intros HW HH Hfit.
  destruct (fits_bounds W H HW HH Hfit) as (HW31 & HH30 & Hprod).
  pose proof (ceil_div_2_bounds W HW) as Hc.
  unfold BGRAToYUY2Converter.yuy2Size.
  rewrite (u32_small (W + 1)) by lia. rewrite <- ceil_div_2.
  assert (0 <= ceil_div W 2 * H) by nia.
  rewrite (u32_small (ceil_div W 2 * H)) by lia.
  apply u32_small. lia.
Qed.

Section Coverage.
Context {R : Rounding}.

(** What a thread of the grid does, when no [uint] computation wraps. *)
Lemma CSMain_inside_outside (W H : Z) (InputTexture : Texture2D) (i j : Z) :
  1 <= W -> 1 <= H -> ceil_div W 2 * H * 4 < 2 ^ 32 ->
  0 <= i < 2 ^ 31 -> 0 <= j ->
  Encode.CSMain (BGRAToYUY2Converter.params W H) InputTexture (i, j)
  = if (i <? ceil_div W 2) && (j <? H)
    then Some (4 * (j * ceil_div W 2 + i),
               Encode.pack
                 (Encode.encode_pair
                    (InputTexture (2 * i) j)
                    (if 2 * i + 1 <? W then InputTexture (2 * i + 1) j
                     else InputTexture (2 * i) j)))
    else None.
Proof.
  intros HW HH Hfit Hi Hj.
  destruct (fits_bounds W H HW HH Hfit) as (HW31 & HH30 & Hprod).
  pose proof (ceil_div_2_bounds W HW) as Hc.
  unfold Encode.CSMain, Encode.load_pair, BGRAToYUY2Converter.params.
  cbn [ImageWidth ImageHeight fst snd].
  rewrite (u32_small (i * 2)) by lia.
  replace (i * 2) with (2 * i) by lia.
  destruct (i <? ceil_div W 2) eqn:Ei.
  - apply Z.ltb_lt in Ei. pose proof (proj2 (pair_inside W i) Ei) as Hin.
    replace (W <=? 2 * i) with false by (symmetry; apply Z.leb_gt; lia).
    destruct (j <? H) eqn:Ej; cbn [orb andb].
    + apply Z.ltb_lt in Ej.
      replace (H <=? j) with false by (symmetry; apply Z.leb_gt; lia).
      rewrite (u32_small (2 * i + 1)) by lia.
      rewrite (u32_small (W + 1)) by lia. rewrite <- ceil_div_2.
      assert (Hidx : 0 <= j * ceil_div W 2 + i < ceil_div W 2 * H) by nia.
      assert (Hj' : 0 <= j * ceil_div W 2) by nia.
      rewrite (u32_small (j * ceil_div W 2)) by lia.
      rewrite (u32_small (j * ceil_div W 2 + i)) by lia.
      rewrite (u32_small (ceil_div W 2 * H)) by lia.
      rewrite (u32_small (_ * 4)) by lia.
      replace (_ <? ceil_div W 2 * H) with true
        by (symmetry; apply Z.ltb_lt; lia).
      f_equal. f_equal. lia.
    + apply Z.ltb_ge in Ej.
      replace (H <=? j) with true by (symmetry; apply Z.leb_le; lia).
      reflexivity.
  - apply Z.ltb_ge in Ei.
    assert (Hout : W <= 2 * i).
    { destruct (Z.lt_ge_cases (2 * i) W) as [Hlt | Hge]; [| exact Hge].
      apply pair_inside in Hlt. lia. }
    replace (W <=? 2 * i) with true by (symmetry; apply Z.leb_le; lia).
    reflexivity.
Qed.

End Coverage.

Lemma ceil_div_16_covers (a : Z) : a <= 16 * ceil_div a 16.
Proof.
  unfold ceil_div. pose proof (Z.div_mod (a + 16 - 1) 16) as D.
  pose proof (Z.mod_pos_bound (a + 16 - 1) 16) as M. lia.
Qed.

Lemma flat_index_inj (n i j i' j' : Z) :
  0 <= i < n -> 0 <= i' < n -> j * n + i = j' * n + i' -> i = i' /\ j = j'.
Proof.
  intros Hi Hi' Heq. assert (j = j') by nia. subst j'. lia.
Qed.

Section CoverageClaim.
Context {R : Rounding}.
Variables (W H : Z) (InputTexture : Texture2D).
Hypothesis HW : 1 <= W.
Hypothesis HH : 1 <= H.
Hypothesis Hfit : ceil_div W 2 * H * 4 < 2 ^ 32.

Local Abbreviation threads :=
  (dispatch_threads (BGRAToYUY2Converter.dispatchX W)
                    (BGRAToYUY2Converter.dispatchY H)).
Local Abbreviation kernel :=
  (Encode.CSMain (BGRAToYUY2Converter.params W H) InputTexture).

(** The macropixel of the pair [i] of row [j]. *)
Local Abbreviation macropixel i j :=
  (Encode.encode_pair
     (InputTexture (2 * i) j)
     (if 2 * i + 1 <? W then InputTexture (2 * i + 1) j
      else InputTexture (2 * i) j)).

Lemma grid_is_ceil :
  BGRAToYUY2Converter.dispatchX W = ceil_div (ceil_div W 2) 16
  /\ BGRAToYUY2Converter.dispatchY H = ceil_div H 16.
Proof.
  destruct (fits_bounds W H HW HH Hfit) as (HW31 & HH30 & Hprod).
  split; [apply dispatchX_ceil | apply dispatchY_ceil]; lia.
Qed.

Lemma grid_thread_bounds (id : uint2) :
  In id threads -> 0 <= fst id < 2 ^ 31 /\ 0 <= snd id.
Proof.
  intros Hid. apply In_dispatch_threads in Hid.
  destruct (fits_bounds W H HW HH Hfit) as (HW31 & HH30 & Hprod).
  destruct grid_is_ceil as [HgX _]. rewrite HgX in Hid.
  change (ceil_div (ceil_div W 2) 16)
    with ((ceil_div W 2 + 16 - 1) / 16) in Hid.
  pose proof (Z.mul_div_le (ceil_div W 2 + 16 - 1) 16).
  pose proof (Z.mul_div_le (W + 1) 2). rewrite <- ceil_div_2 in *. lia.
Qed.

Lemma grid_covers (i j : Z) :
  0 <= i < ceil_div W 2 -> 0 <= j < H -> In (i, j) threads.
Proof.
  intros Hi Hj. apply In_dispatch_threads. cbn [fst snd].
  destruct grid_is_ceil as [HgX HgY]. rewrite HgX, HgY.
  pose proof (ceil_div_16_covers (ceil_div W 2)).
  pose proof (ceil_div_16_covers H). lia.
Qed.

Lemma kernel_inside (i j : Z) :
  0 <= i < ceil_div W 2 -> 0 <= j < H ->
  kernel (i, j)
  = Some (4 * (j * ceil_div W 2 + i), Encode.pack (macropixel i j)).
Proof.
  intros Hi Hj.
  destruct (grid_thread_bounds (i, j) (grid_covers i j Hi Hj)) as [Hi' Hj'].
  cbn [fst snd] in Hi', Hj'.
  rewrite (CSMain_inside_outside W H InputTexture i j HW HH Hfit Hi' Hj').
  replace (i <? ceil_div W 2) with true by (symmetry; apply Z.ltb_lt; lia).
  replace (j <? H) with true by (symmetry; apply Z.ltb_lt; lia).
  reflexivity.
Qed.

(** A thread of the grid that writes is inside, and writes its own
    macropixel at its own offset. *)
Lemma kernel_writes (id : uint2) (s : Z * Z) :
  In id threads -> kernel id = Some s ->
  (0 <= fst id < ceil_div W 2 /\ 0 <= snd id < H)
  /\ s = (4 * (snd id * ceil_div W 2 + fst id),
          Encode.pack (macropixel (fst id) (snd id))).
Proof.
  destruct id as [i j]. intros Hid Hs.
  destruct (grid_thread_bounds _ Hid) as [Hi Hj]. cbn [fst snd] in *.
  rewrite (CSMain_inside_outside W H InputTexture i j HW HH Hfit Hi Hj) in Hs.
  destruct (i <? ceil_div W 2) eqn:Ei; [| discriminate].
  destruct (j <? H) eqn:Ej; [| discriminate].
  apply Z.ltb_lt in Ei. apply Z.ltb_lt in Ej.
  cbn [andb] in Hs. injection Hs as Hs. split; [lia | symmetry; exact Hs].
Qed.

Lemma grid_offsets_NoDup : NoDup (map fst (writes kernel threads)).
Proof.
  apply NoDup_writes_keys; [apply NoDup_dispatch_threads |].
  intros [i j] [i' j'] s s' Hid Hid' Hs Hs' Hkey.
  destruct (kernel_writes _ _ Hid Hs) as [[Hi Hj] ->].
  destruct (kernel_writes _ _ Hid' Hs') as [[Hi' Hj'] ->].
  cbn [fst snd] in *.
  destruct (flat_index_inj (ceil_div W 2) i j i' j'); try lia.
  subst. reflexivity.
Qed.

(** C6, for sizes whose output buffer fits the [UINT] range.  The grid
    [Convert] dispatches is [(ceil(ceil(W/2)/16), ceil(H/16))]; a thread
    of that grid whose position is outside [0, ceil(W/2)) x [0, H)
    writes nothing; every position inside is the position of exactly one
    thread, which writes one word at byte offset [4 * (j * ceil(W/2) + i)],
    and no other thread writes at that offset. *)
Theorem encode_grid_writes_each_pair_once :
  let groupsX := BGRAToYUY2Converter.dispatchX W in
  let groupsY := BGRAToYUY2Converter.dispatchY H in
  (groupsX, groupsY) = (ceil_div (ceil_div W 2) 16, ceil_div H 16)
  /\ (forall id : uint2, In id (dispatch_threads groupsX groupsY) ->
        ~ (fst id < ceil_div W 2 /\ snd id < H) -> kernel id = None)
  /\ (forall i j : Z, 0 <= i < ceil_div W 2 -> 0 <= j < H ->
        count_occ uint2_eq_dec (dispatch_threads groupsX groupsY) (i, j)
        = 1%nat
        /\ (exists word : Z,
              kernel (i, j) = Some (4 * (j * ceil_div W 2 + i), word))
        /\ count_occ Z.eq_dec
                     (map fst (writes kernel
                                      (dispatch_threads groupsX groupsY)))
                     (4 * (j * ceil_div W 2 + i)) = 1%nat).
Proof.
  cbv zeta. split; [| split].
  - destruct grid_is_ceil as [-> ->]. reflexivity.
  - intros id Hid Hout. destruct (kernel id) as [s |] eqn:Ek; [| reflexivity].
    destruct (kernel_writes id s Hid Ek) as [Hin _]. lia.
  - intros i j Hi Hj. pose proof (kernel_inside i j Hi Hj) as Hw.
    pose proof (grid_covers i j Hi Hj) as Hin.
    split; [| split].
    + apply (proj1 (NoDup_count_occ' uint2_eq_dec threads));
        [apply NoDup_dispatch_threads | exact Hin].
    + eexists. exact Hw.
    + apply (proj1 (NoDup_count_occ' Z.eq_dec _) grid_offsets_NoDup).
      apply in_map_iff. eexists. split; [| apply In_writes; eexists; eauto].
      reflexivity.
Qed.

(** The output buffer after the dispatch: rows of [ceil(W/2) * 4] bytes,
    and in row [j] the macropixel [i] holds the bytes [Y0, U, Y1, V] of
    the pixel pair [i], whatever the order in which the threads ran. *)
Lemma encode_output_layout (OutputBuffer : ByteAddressBuffer) :
  Z.of_nat (length OutputBuffer) = BGRAToYUY2Converter.yuy2Size W H ->
  let final := apply_stores OutputBuffer (writes kernel threads) in
  length final = length OutputBuffer
  /\ forall i j : Z, 0 <= i < ceil_div W 2 -> 0 <= j < H ->
       map byte_val (bytes_at final (j * (ceil_div W 2 * 4) + i * 4) 4)
       = [Encode.Y0 (macropixel i j); Encode.U (macropixel i j);
          Encode.Y1 (macropixel i j); Encode.V (macropixel i j)].
Proof.
  intros Hlen. cbv zeta. split; [apply length_apply_stores |].
  intros i j Hi Hj. rewrite yuy2Size_no_wrap in Hlen by assumption.
  replace (j * (ceil_div W 2 * 4) + i * 4)
    with (4 * (j * ceil_div W 2 + i)) by lia.
  rewrite (apply_stores_lookup _ _ _ (Encode.pack (macropixel i j))).
  - pose proof (encode_pair_range (InputTexture (2 * i) j)
                  (if 2 * i + 1 <? W then InputTexture (2 * i + 1) j
                   else InputTexture (2 * i) j)) as Hr.
    cbv zeta in Hr. apply word_bytes_PackYUY2; lia.
  - apply grid_offsets_NoDup.
  - apply Forall_forall. intros s Hs. apply In_writes in Hs.
    destruct Hs as [id [Hid Hs]].
    destruct (kernel_writes id s Hid Hs) as [[Hx Hy] ->]. cbn [fst].
    split; [nia |]. split.
    + rewrite Z.mul_comm. apply Z.mod_mul. lia.
    + nia.
  - apply In_writes. exists (i, j).
    split; [apply grid_covers; assumption | apply kernel_inside; assumption].
Qed.

End CoverageClaim.

Lemma encode_grid_writes_each_pair_once_witness :
  let W := 3 in
  let H := 2 in
  let InputTexture : Texture2D := fun _ _ => F4.mk 1 0 0 1 in
  let groupsX := BGRAToYUY2Converter.dispatchX W in
  let groupsY := BGRAToYUY2Converter.dispatchY H in
  let threads := dispatch_threads groupsX groupsY in
  let kernel :=
    Encode.CSMain (R := binary32) (BGRAToYUY2Converter.params W H) InputTexture in
  (groupsX, groupsY) = (ceil_div (ceil_div W 2) 16, ceil_div H 16)
  /\ (forall id : uint2, In id threads ->
        ~ (fst id < ceil_div W 2 /\ snd id < H) -> kernel id = None)
  /\ (forall i j : Z, 0 <= i < ceil_div W 2 -> 0 <= j < H ->
        count_occ uint2_eq_dec threads (i, j) = 1%nat
        /\ (exists word : Z,
              kernel (i, j) = Some (4 * (j * ceil_div W 2 + i), word))
        /\ count_occ Z.eq_dec (map fst (writes kernel threads))
                     (4 * (j * ceil_div W 2 + i)) = 1%nat).
Proof.
  apply (encode_grid_writes_each_pair_once (R := binary32) 3 2
           (fun _ _ => F4.mk 1 0 0 1)).
  - lia.
  - lia.
  - vm_compute. reflexivity.
Defined.

(** At the largest [UINT] width the grid [Convert] computes is empty,
    while the grid of the specification has 2^27 groups in X. *)
Lemma encode_grid_wraps :
  let W := 4294967295 in
  let H := 1 in
  1 <= W /\ 1 <= H
  /\ (BGRAToYUY2Converter.dispatchX W, BGRAToYUY2Converter.dispatchY H)
     <> (ceil_div (ceil_div W 2) 16, ceil_div H 16)
  /\ dispatch_threads (BGRAToYUY2Converter.dispatchX W)
                      (BGRAToYUY2Converter.dispatchY H) = [].
Proof.
  cbv zeta. split; [lia |]. split; [lia |]. split.
  - vm_compute. discriminate.
  - vm_compute. reflexivity.
Qed.

(** ** [Convert] *)

Lemma supported_format_false (fmt : DXGI_FORMAT) :
  fmt <> DXGI_FORMAT_B8G8R8A8_UNORM -> fmt <> DXGI_FORMAT_R8G8B8A8_UNORM ->
  fmt <> DXGI_FORMAT_B8G8R8A8_UNORM_SRGB ->
  fmt <> DXGI_FORMAT_R8G8B8A8_UNORM_SRGB ->
  BGRAToYUY2Converter.supported_format fmt = false.
Proof.
  intros H1 H2 H3 H4. unfold BGRAToYUY2Converter.supported_format.
  apply Z.eqb_neq in H1. apply Z.eqb_neq in H2.
  apply Z.eqb_neq in H3. apply Z.eqb_neq in H4.
  rewrite H1, H2, H3, H4. reflexivity.
Qed.

(** C9.  Given a texture whose format is none of the four recognized
    ones, [Convert] returns [E_INVALIDARG]; it has then made no call at
    all, or only logged the unsupported format: no view is created, the
    constant buffer is neither mapped nor written, nothing is
    dispatched. *)
Theorem Convert_rejects_unsupported_format (m_initialized : bool)
    (dev : Device) (fmt : DXGI_FORMAT) (outputBuffer : bool)
    (width height elapsed : Z) :
  fmt <> DXGI_FORMAT_B8G8R8A8_UNORM -> fmt <> DXGI_FORMAT_R8G8B8A8_UNORM ->
  fmt <> DXGI_FORMAT_B8G8R8A8_UNORM_SRGB ->
  fmt <> DXGI_FORMAT_R8G8B8A8_UNORM_SRGB ->
  let result :=
    BGRAToYUY2Converter.Convert m_initialized dev (Some fmt) outputBuffer
                                width height elapsed in
  fst result = E_INVALIDARG
  /\ (snd result = [] \/ snd result = [LogError (MsgUnsupportedFormat fmt)])
  /\ forallb (fun c => negb (is_work c)) (snd result) = true.
Proof.
  intros H1 H2 H3 H4.
  pose proof (supported_format_false fmt H1 H2 H3 H4) as Hs.
  cbv zeta. unfold BGRAToYUY2Converter.Convert.
  destruct m_initialized, outputBuffer; cbn [negb orb fst snd forallb];
    try (split; [reflexivity | split; [left; reflexivity | reflexivity]]).
  unfold try_catch, BGRAToYUY2Converter.Convert_body.
  rewrite Hs. cbn.
  split; [reflexivity | split; [right; reflexivity | reflexivity]].
Qed.

Lemma Convert_rejects_unsupported_format_witness :
  let dev := {| CreateBuffer_result := S_OK;
                CreateShaderResourceView_result := S_OK;
                CreateUnorderedAccessView_result := S_OK;
                Map_result := S_OK |} in
  let result :=
    BGRAToYUY2Converter.Convert true dev (Some 10) true 1920 1080 0 in
  fst result = E_INVALIDARG
  /\ (snd result = [] \/ snd result = [LogError (MsgUnsupportedFormat 10)])
  /\ forallb (fun c => negb (is_work c)) (snd result) = true.
Proof.
  apply (Convert_rejects_unsupported_format true
           {| CreateBuffer_result := S_OK;
              CreateShaderResourceView_result := S_OK;
              CreateUnorderedAccessView_result := S_OK;
              Map_result := S_OK |} 10 true 1920 1080 0);
    vm_compute; discriminate.
Defined.

(** A call of [Convert] that succeeds has written the constants of the
    image and dispatched the grid [(dispatchX, dispatchY, 1)]. *)
Lemma Convert_success_dispatches (dev : Device) (fmt : DXGI_FORMAT)
    (width height elapsed : Z) :
  let result :=
    BGRAToYUY2Converter.Convert true dev (Some fmt) true width height
                                elapsed in
  fst result = S_OK ->
  In (WriteConstantBuffer (BGRAToYUY2Converter.params width height))
     (snd result)
  /\ In (Dispatch (BGRAToYUY2Converter.dispatchX width)
                  (BGRAToYUY2Converter.dispatchY height) 1)
        (snd result).
Proof.
  cbv zeta. unfold BGRAToYUY2Converter.Convert. cbn [negb orb].
  unfold try_catch, BGRAToYUY2Converter.Convert_body, ThrowIfFailed.
  destruct (BGRAToYUY2Converter.supported_format fmt);
    [| cbn; discriminate].
  destruct (FAILED (CreateShaderResourceView_result dev)) eqn:Es.
  { cbv [bind call when ret return_ throw negb fst snd app].
    intros H. unfold FAILED in Es. apply Z.ltb_lt in Es.
    unfold S_OK in H. lia. }
  destruct (FAILED (CreateUnorderedAccessView_result dev)) eqn:Eu.
  { cbv [bind call when ret return_ throw negb fst snd app]. discriminate. }
  destruct (FAILED (Map_result dev)) eqn:Em.
  { cbv [bind call when ret return_ throw negb fst snd app]. discriminate. }
  destruct (10 <=? elapsed);
    cbv [bind call when ret return_ throw negb fst snd app];
    intros _; cbn [In]; split; tauto.
Qed.

(** ** Buffer sizes *)

Lemma three_halves (n : Z) : n * 3 / 2 = n + n / 2.
Proof.
  replace (n * 3) with (n * 2 + n) by lia.
  rewrite Z.div_add_l by lia. reflexivity.
Qed.

Lemma totalSize_no_wrap (W H : Z) :
  1 <= W -> 1 <= H -> W * H * 3 / 2 < 2 ^ 32 ->
  NV12ToRGBAConverter.totalSize W H = W * H * 3 / 2.
Proof.
  intros HW HH Hfit. rewrite three_halves in *.
  assert (Hp : 0 <= W * H) by nia.
  assert (Hh : 0 <= W * H / 2) by (apply Z.div_pos; lia).
  unfold NV12ToRGBAConverter.totalSize, NV12ToRGBAConverter.yPlaneSize,
    NV12ToRGBAConverter.uvPlaneSize.
  rewrite (u32_small (W * H)) by lia.
  apply u32_small. lia.
Qed.

(** C8, for sizes that fit the [UINT] range.  [CreateOutputBuffer] asks
    the device for a buffer of [ceil(W/2) * H * 4] bytes and
    [ReadOutputBuffer], given a buffer and an output pointer, leaves
    that number in [dataSize]; [CreateNV12InputBuffer] asks for a buffer
    of [W * H * 3 / 2] bytes, [W * H] of luma and [W * H / 2] of
    chroma. *)
Theorem buffer_sizes (dev : Device) (W H dataSize0 : Z) :
  1 <= W -> 1 <= H ->
  (ceil_div W 2 * H * 4 < 2 ^ 32 ->
   (exists desc rest,
      snd (BGRAToYUY2Converter.CreateOutputBuffer dev W H)
      = CreateBuffer desc :: rest
      /\ ByteWidth desc = ceil_div W 2 * H * 4)
   /\ snd (fst (BGRAToYUY2Converter.ReadOutputBuffer dev true W H true
                                                     dataSize0))
      = ceil_div W 2 * H * 4)
  /\ (W * H * 3 / 2 < 2 ^ 32 ->
      exists desc rest,
        snd (NV12ToRGBAConverter.CreateNV12InputBuffer dev W H)
        = CreateBuffer desc :: rest
        /\ ByteWidth desc = W * H * 3 / 2
        /\ ByteWidth desc = W * H + W * H / 2).
Proof.
  intros HW HH. split.
  - intros Hfit. pose proof (yuy2Size_no_wrap W H HW HH Hfit) as Hs. split.
    + unfold BGRAToYUY2Converter.CreateOutputBuffer. cbn [snd].
      eexists _, _. split; [reflexivity |]. cbn [ByteWidth]. exact Hs.
    + unfold BGRAToYUY2Converter.ReadOutputBuffer. cbn [negb orb].
      fold (BGRAToYUY2Converter.yuy2Size W H).
      destruct (FAILED (CreateBuffer_result dev)); cbn [fst snd]; exact Hs.
  - intros Hfit. pose proof (totalSize_no_wrap W H HW HH Hfit) as Hs.
    unfold NV12ToRGBAConverter.CreateNV12InputBuffer. cbn [snd].
    eexists _, _. split; [reflexivity |]. cbn [ByteWidth].
    split; [exact Hs |]. rewrite Hs. apply three_halves.
Qed.

Lemma buffer_sizes_witness :
  let dev := {| CreateBuffer_result := S_OK;
                CreateShaderResourceView_result := S_OK;
                CreateUnorderedAccessView_result := S_OK;
                Map_result := S_OK |} in
  (1921 + 2 - 1) / 2 * 1080 * 4 < 2 ^ 32
  /\ 1920 * 1080 * 3 / 2 < 2 ^ 32
  /\ ((exists desc rest,
         snd (BGRAToYUY2Converter.CreateOutputBuffer dev 1921 1080)
         = CreateBuffer desc :: rest
         /\ ByteWidth desc = 4151520)
      /\ snd (fst (BGRAToYUY2Converter.ReadOutputBuffer dev true 1921 1080
                                                        true 0))
         = 4151520)
  /\ (exists desc rest,
        snd (NV12ToRGBAConverter.CreateNV12InputBuffer dev 1920 1080)
        = CreateBuffer desc :: rest
        /\ ByteWidth desc = 3110400
        /\ ByteWidth desc = 2073600 + 1036800).
Proof.
  cbv zeta. split; [vm_compute; reflexivity |].
  split; [vm_compute; reflexivity |]. split.
  - apply (buffer_sizes _ 1921 1080 0); [lia | lia | vm_compute; reflexivity].
  - apply (buffer_sizes _ 1920 1080 0); [lia | lia | vm_compute; reflexivity].
Defined.

(** At 65536 by 65536 both sizes wrap to 0. *)
Lemma buffer_sizes_wrap :
  let dev := {| CreateBuffer_result := S_OK;
                CreateShaderResourceView_result := S_OK;
                CreateUnorderedAccessView_result := S_OK;
                Map_result := S_OK |} in
  let W := 65536 in
  let H := 65536 in
  1 <= W /\ 1 <= H
  /\ (exists desc,
        snd (BGRAToYUY2Converter.CreateOutputBuffer dev W H)
        = [CreateBuffer desc]
        /\ ByteWidth desc = 0 /\ ByteWidth desc <> ceil_div W 2 * H * 4)
  /\ (exists desc,
        snd (NV12ToRGBAConverter.CreateNV12InputBuffer dev W H)
        = [CreateBuffer desc]
        /\ ByteWidth desc = 0 /\ ByteWidth desc <> W * H * 3 / 2).
Proof.
  cbv zeta. split; [lia |]. split; [lia |].
  split; eexists; (split; [vm_compute; reflexivity |]);
    (split; [vm_compute; reflexivity | vm_compute; discriminate]).
Qed.

(** * Further properties of the encode shader *)

Section Monotone.
Context {R : Rounding}.
Import HLSL.

Lemma fl_zero : (fl 0 == 0)%Q.
Proof. apply (fl_int 0). cbn. lia. Qed.

Lemma fl_nonneg (x : Q) : (0 <= x)%Q -> (0 <= fl x)%Q.
Proof. intros H. rewrite <- fl_zero. apply fl_mono. exact H. Qed.

Lemma fadd_mono (a b c d : Q) :
  (a <= c)%Q -> (b <= d)%Q -> (fadd a b <= fadd c d)%Q.
Proof. intros H1 H2. apply fl_mono. lra. Qed.

Lemma fsub_mono (a b c d : Q) :
  (a <= c)%Q -> (d <= b)%Q -> (fsub a b <= fsub c d)%Q.
Proof. intros H1 H2. apply fl_mono. lra. Qed.

Lemma fmul_mono_l (c x y : Q) :
  (0 <= c)%Q -> (x <= y)%Q -> (fmul c x <= fmul c y)%Q.
Proof. intros Hc H. apply fl_mono. nra. Qed.

Lemma fmul_mono_r (c x y : Q) :
  (0 <= c)%Q -> (x <= y)%Q -> (fmul x c <= fmul y c)%Q.
Proof. intros Hc H. apply fl_mono. nra. Qed.

Lemma fdiv_mono (c x y : Q) :
  (0 < c)%Q -> (x <= y)%Q -> (fdiv x c <= fdiv y c)%Q.
Proof.
  intros Hc H. apply fl_mono. unfold Qdiv.
  assert (0 < / c)%Q by (apply Qinv_lt_0_compat; exact Hc). nra.
Qed.

Lemma clamp_mono (x y lo hi : Q) :
  (x <= y)%Q -> (clamp x lo hi <= clamp y lo hi)%Q.
Proof.
  intros H. unfold clamp.
  apply Q.min_le_compat_r. apply Q.max_le_compat_r. exact H.
Qed.

Lemma Qtrunc_inject (z : Z) : Qtrunc (inject_Z z) = z.
Proof.
  unfold Qtrunc. destruct (Qle_bool 0 (inject_Z z)).
  - apply Qfloor_Z.
  - apply Qceiling_Z.
Qed.

(** [(uint)round(x)] never decreases when [x] grows. *)
Lemma ftou_round_mono (x y : Q) :
  (x <= y)%Q -> ftou (round x) <= ftou (round y).
Proof.
  intros H. unfold ftou, round. rewrite !Qtrunc_inject.
  pose proof (round_ne_mono x y H). lia.
Qed.

Lemma lit_nonneg (c : Q) : (0 <= c)%Q -> (0 <= lit c)%Q.
Proof. apply fl_nonneg. Qed.

(** The luma of [RGBToYUV] before quantization grows with every
    channel. *)
Lemma RGBToYUV_luma_mono (rgb rgb' : F3.t) :
  (F3.r rgb <= F3.r rgb')%Q -> (F3.g rgb <= F3.g rgb')%Q ->
  (F3.b rgb <= F3.b rgb')%Q ->
  (F3.x (Encode.RGBToYUV rgb) <= F3.x (Encode.RGBToYUV rgb'))%Q.
Proof.
  intros Hr Hg Hb. unfold Encode.RGBToYUV. cbn [F3.x F3.r F3.g F3.b].
  apply clamp_mono. apply fadd_mono; [| apply Qle_refl].
  apply fmul_mono_r; [apply lit_nonneg; lra |].
  repeat apply fadd_mono;
    (apply fmul_mono_l; [apply lit_nonneg; lra | apply clamp_mono; assumption]).
Qed.

(** X: a pixel that is at least as bright in every channel gets a luma
    byte that is at least as large. *)
Theorem luma_byte_monotone (pixel pixel' : F4.t) :
  (F4.r pixel <= F4.r pixel')%Q -> (F4.g pixel <= F4.g pixel')%Q ->
  (F4.b pixel <= F4.b pixel')%Q ->
  own_Y pixel <= own_Y pixel'
  /\ forall other other' : F4.t,
       Encode.Y0 (Encode.encode_pair pixel other)
       <= Encode.Y0 (Encode.encode_pair pixel' other')
       /\ Encode.Y1 (Encode.encode_pair other pixel)
          <= Encode.Y1 (Encode.encode_pair other' pixel').
Proof.
  intros Hr Hg Hb.
  assert (Hy : own_Y pixel <= own_Y pixel').
  { unfold own_Y, own_yuv. apply ftou_round_mono.
    apply RGBToYUV_luma_mono; cbn [F3.r F3.g F3.b F3.x F3.y F3.z];
      assumption. }
  split; [exact Hy |]. intros other other'.
  unfold Encode.encode_pair. cbn [Encode.Y0 Encode.Y1]. split; exact Hy.
Qed.

(** The shader's average of two representable values lies between
    them. *)
Lemma average_between (a b : Q) :
  representable a -> representable b -> (a <= b)%Q ->
  (a <= fmul (fadd a b) (lit 0.5))%Q /\ (fmul (fadd a b) (lit 0.5) <= b)%Q.
Proof.
  unfold representable. intros Ha Hb Hab. unfold fmul, fadd.
  assert (H2a : (fl (2 * a) == 2 * a)%Q).
  { transitivity (fl (2 * fl a)); [apply fl_comp; rewrite Ha; reflexivity |].
    rewrite fl_double, Ha. reflexivity. }
  assert (H2b : (fl (2 * b) == 2 * b)%Q).
  { transitivity (fl (2 * fl b)); [apply fl_comp; rewrite Hb; reflexivity |].
    rewrite fl_double, Hb. reflexivity. }
  assert (Hs1 : (2 * a <= fl (a + b))%Q).
  { apply Qle_trans with (fl (2 * a)); [rewrite H2a; apply Qle_refl |].
    apply fl_mono. lra. }
  assert (Hs2 : (fl (a + b) <= 2 * b)%Q).
  { apply Qle_trans with (fl (2 * b)); [| rewrite H2b; apply Qle_refl].
    apply fl_mono. lra. }
  pose proof lit_half as Hh. split.
  - apply Qle_trans with (fl a); [rewrite Ha; apply Qle_refl |].
    apply fl_mono. rewrite Hh. lra.
  - apply Qle_trans with (fl b); [| rewrite Hb; apply Qle_refl].
    apply fl_mono. rewrite Hh. lra.
Qed.

Lemma average_comm (a b : Q) :
  (fmul (fadd a b) (lit 0.5) == fmul (fadd b a) (lit 0.5))%Q.
Proof.
  unfold fmul, fadd. apply fl_comp.
  assert (H : (fl (a + b) == fl (b + a))%Q) by (apply fl_comp; ring).
  rewrite H. reflexivity.
Qed.

(** The byte of an average lies between the bytes of the two values. *)
Lemma average_byte_between (a b : Q) :
  representable a -> representable b ->
  Z.min (ftou (round a)) (ftou (round b))
  <= ftou (round (fmul (fadd a b) (lit 0.5)))
  <= Z.max (ftou (round a)) (ftou (round b)).
Proof.
  intros Ha Hb. destruct (Qlt_le_dec b a) as [Hlt | Hle].
  - destruct (average_between b a Hb Ha (Qlt_le_weak _ _ Hlt)) as [H1 H2].
    unfold round in *.
    rewrite (round_ne_comp _ _ (average_comm a b)).
    pose proof (ftou_round_mono _ _ H1). pose proof (ftou_round_mono _ _ H2).
    unfold round in *. lia.
  - destruct (average_between a b Ha Hb Hle) as [H1 H2].
    pose proof (ftou_round_mono _ _ H1). pose proof (ftou_round_mono _ _ H2).
    lia.
Qed.

(** X: the luma bytes of a macropixel are those of its two pixels, and
    each chroma byte lies between the chroma bytes the two pixels would
    have on their own. *)
Theorem macropixel_chroma_between (pixel0 pixel1 : F4.t) :
  let m := Encode.encode_pair pixel0 pixel1 in
  Encode.Y0 m = own_Y pixel0 /\ Encode.Y1 m = own_Y pixel1
  /\ Z.min (own_U pixel0) (own_U pixel1) <= Encode.U m
     <= Z.max (own_U pixel0) (own_U pixel1)
  /\ Z.min (own_V pixel0) (own_V pixel1) <= Encode.V m
     <= Z.max (own_V pixel0) (own_V pixel1).
Proof.
  cbv zeta. unfold Encode.encode_pair, own_Y, own_U, own_V, own_yuv.
  cbn [Encode.Y0 Encode.Y1 Encode.U Encode.V].
  split; [reflexivity |]. split; [reflexivity |].
  destruct (RGBToYUV_representable
              (F3.mk (F4.b pixel0) (F4.g pixel0) (F4.r pixel0))) as [Hy0 Hz0].
  destruct (RGBToYUV_representable
              (F3.mk (F4.b pixel1) (F4.g pixel1) (F4.r pixel1))) as [Hy1 Hz1].
  split; apply average_byte_between; assumption.
Qed.

End Monotone.

(** ** The output buffer after the dispatch *)

(** Two buffers of [n] words that agree word by word are equal. *)
Lemma buffers_equal_by_words (a b : ByteAddressBuffer) (n : Z) :
  Z.of_nat (length a) = 4 * n -> length b = length a ->
  (forall k, 0 <= k < n -> bytes_at a (4 * k) 4 = bytes_at b (4 * k) 4) ->
  a = b.
Proof.
  intros Hlen Hab Hwords. apply (nth_ext a b x00 x00); [symmetry; exact Hab |].
  intros m Hm.
  set (k := Z.of_nat m / 4).
  pose proof (Z.div_mod (Z.of_nat m) 4) as D.
  pose proof (Z.mod_pos_bound (Z.of_nat m) 4) as M. fold k in D.
  assert (Hk : 0 <= k < n) by lia.
  pose proof (Hwords k Hk) as Hw.
  rewrite (bytes_at_nth a (4 * k) x00) in Hw by lia.
  rewrite (bytes_at_nth b (4 * k) x00) in Hw by lia.
  injection Hw as H0 H1 H2 H3.
  assert (Hcase : (m = Z.to_nat (4 * k) + 0 \/ m = Z.to_nat (4 * k) + 1
                   \/ m = Z.to_nat (4 * k) + 2 \/ m = Z.to_nat (4 * k) + 3)%nat)
    by lia.
  destruct Hcase as [E | [E | [E | E]]]; rewrite E; assumption.
Qed.

Section EncodeDispatch.
Context {R : Rounding}.
Variables (W H : Z) (InputTexture : Texture2D).
Hypothesis HW : 1 <= W.
Hypothesis HH : 1 <= H.
Hypothesis Hfit : ceil_div W 2 * H * 4 < 2 ^ 32.

Local Abbreviation threads :=
  (dispatch_threads (BGRAToYUY2Converter.dispatchX W)
                    (BGRAToYUY2Converter.dispatchY H)).
Local Abbreviation kernel :=
  (Encode.CSMain (BGRAToYUY2Converter.params W H) InputTexture).
Local Abbreviation macropixel i j :=
  (Encode.encode_pair
     (InputTexture (2 * i) j)
     (if 2 * i + 1 <? W then InputTexture (2 * i + 1) j
      else InputTexture (2 * i) j)).

Lemma order_offsets_NoDup (order : list uint2) :
  Permutation order threads -> NoDup (map fst (writes kernel order)).
Proof.
  intros Hp. apply NoDup_writes_keys.
  - apply (Permutation_NoDup (Permutation_sym Hp)).
    apply NoDup_dispatch_threads.
  - intros id id' s s' Hid Hid' Hs Hs' Hkey.
    apply (Permutation_in _ Hp) in Hid. apply (Permutation_in _ Hp) in Hid'.
    destruct (kernel_writes W H InputTexture HW HH Hfit _ _ Hid Hs)
      as [[Hi Hj] ->].
    destruct (kernel_writes W H InputTexture HW HH Hfit _ _ Hid' Hs')
      as [[Hi' Hj'] ->].
    destruct id as [i j], id' as [i' j']. cbn [fst snd] in *.
    destruct (flat_index_inj (ceil_div W 2) i j i' j'); try lia.
    subst. reflexivity.
Qed.

(** The word of the pair [i] of row [j] after the threads have run in
    the order [order]. *)
Lemma order_word (order : list uint2) (OutputBuffer : ByteAddressBuffer)
    (i j : Z) :
  Permutation order threads ->
  Z.of_nat (length OutputBuffer) = BGRAToYUY2Converter.yuy2Size W H ->
  0 <= i < ceil_div W 2 -> 0 <= j < H ->
  bytes_at (apply_stores OutputBuffer (writes kernel order))
           (4 * (j * ceil_div W 2 + i)) 4
  = le_split 4 (Encode.pack (macropixel i j)).
Proof.
  intros Hp Hlen Hi Hj. rewrite yuy2Size_no_wrap in Hlen by assumption.
  apply apply_stores_lookup.
  - apply order_offsets_NoDup. exact Hp.
  - apply Forall_forall. intros s Hs. apply In_writes in Hs.
    destruct Hs as [id [Hid Hs]]. apply (Permutation_in _ Hp) in Hid.
    destruct (kernel_writes W H InputTexture HW HH Hfit id s Hid Hs)
      as [[Hx Hy] ->].
    cbn [fst]. split; [nia |]. split.
    + rewrite Z.mul_comm. apply Z.mod_mul. lia.
    + nia.
  - apply In_writes. exists (i, j). split.
    + apply (Permutation_in _ (Permutation_sym Hp)).
      apply (grid_covers W H HW HH Hfit); assumption.
    + apply (kernel_inside W H InputTexture HW HH Hfit); assumption.
Qed.

(** X: for an image of at least 1 by 1 pixels whose output size
    [ceil(W/2) * H * 4] is below [2^32], and an output buffer of that
    size: the threads of the dispatch may run in any order, and the
    buffer may hold anything before: the buffer after the dispatch is
    the same, rows of [ceil(W/2) * 4] bytes in which the macropixel [i]
    of row [j] holds [Y0, U, Y1, V] of the pixels [2i] and [2i+1] of
    that row. *)
Theorem encode_dispatch_result (order : list uint2)
    (OutputBuffer OutputBuffer' : ByteAddressBuffer) :
  Permutation order threads ->
  Z.of_nat (length OutputBuffer) = BGRAToYUY2Converter.yuy2Size W H ->
  Z.of_nat (length OutputBuffer') = BGRAToYUY2Converter.yuy2Size W H ->
  let final := apply_stores OutputBuffer (writes kernel order) in
  final = apply_stores OutputBuffer' (writes kernel threads)
  /\ forall i j : Z, 0 <= i < ceil_div W 2 -> 0 <= j < H ->
       map byte_val (bytes_at final (j * (ceil_div W 2 * 4) + i * 4) 4)
       = [Encode.Y0 (macropixel i j); Encode.U (macropixel i j);
          Encode.Y1 (macropixel i j); Encode.V (macropixel i j)].
Proof.
  intros Hp Hlen Hlen'. cbv zeta. split.
  - apply (buffers_equal_by_words _ _ (ceil_div W 2 * H)).
    + rewrite length_apply_stores, Hlen.
      rewrite yuy2Size_no_wrap by assumption. lia.
    + rewrite !length_apply_stores. lia.
    + intros k Hk.
      pose proof (ceil_div_2_bounds W HW) as Hc.
      pose proof (Z.div_mod k (ceil_div W 2)) as D.
      pose proof (Z.mod_pos_bound k (ceil_div W 2)) as M.
      assert (Hj : 0 <= k / ceil_div W 2 < H).
      { split; [apply Z.div_pos; lia |].
        apply Z.div_lt_upper_bound; lia. }
      replace k
        with (k / ceil_div W 2 * ceil_div W 2 + k mod ceil_div W 2)
        at 1 2 by lia.
      rewrite (order_word order OutputBuffer (k mod ceil_div W 2)
                          (k / ceil_div W 2))
        by (assumption || lia).
      rewrite (order_word threads OutputBuffer' (k mod ceil_div W 2)
                          (k / ceil_div W 2))
        by (assumption || lia || apply Permutation_refl).
      reflexivity.
  - intros i j Hi Hj.
    replace (j * (ceil_div W 2 * 4) + i * 4)
      with (4 * (j * ceil_div W 2 + i)) by lia.
    rewrite order_word by assumption.
    pose proof (encode_pair_range (InputTexture (2 * i) j)
                  (if 2 * i + 1 <? W then InputTexture (2 * i + 1) j
                   else InputTexture (2 * i) j)) as Hr.
    cbv zeta in Hr. apply word_bytes_PackYUY2; lia.
Qed.

End EncodeDispatch.

Lemma encode_dispatch_result_witness :
  let W := 3 in
  let H := 2 in
  let InputTexture : Texture2D :=
    fun x y => F4.mk (inject_Z x / 2) (inject_Z y) 0 1 in
  let threads :=
    dispatch_threads (BGRAToYUY2Converter.dispatchX W)
                     (BGRAToYUY2Converter.dispatchY H) in
  let kernel :=
    Encode.CSMain (R := binary32) (BGRAToYUY2Converter.params W H)
                  InputTexture in
  let macropixel i j :=
    Encode.encode_pair (R := binary32)
      (InputTexture (2 * i) j)
      (if 2 * i + 1 <? W then InputTexture (2 * i + 1) j
       else InputTexture (2 * i) j) in
  let final := apply_stores (repeat x00 16) (writes kernel (rev threads)) in
  final = apply_stores (repeat xff 16) (writes kernel threads)
  /\ forall i j : Z, 0 <= i < ceil_div W 2 -> 0 <= j < H ->
       map byte_val (bytes_at final (j * (ceil_div W 2 * 4) + i * 4) 4)
       = [Encode.Y0 (macropixel i j); Encode.U (macropixel i j);
          Encode.Y1 (macropixel i j); Encode.V (macropixel i j)].
Proof.
  apply (encode_dispatch_result (R := binary32) 3 2
           (fun x y => F4.mk (inject_Z x / 2) (inject_Z y) 0 1)).
  - lia.
  - lia.
  - vm_compute. reflexivity.
  - apply Permutation_sym. apply Permutation_rev.
  - vm_compute. reflexivity.
  - vm_compute. reflexivity.
Defined.

(** ** The two variants of the encode shader write the same places *)

Section Variants.
Context {R : Rounding}.

(** X: for an image of at least 1 by 1 pixels whose output size
    [ceil(W/2) * H * 4] is below [2^32], and a thread of the dispatched
    grid: the structured-buffer variant assigns the element [n] of its
    output exactly when the raw-buffer variant stores at the byte
    offset [4 * n], and the guard [outputIndex < maxIndex] of the
    raw-buffer variant rejects no thread that passed the bounds
    check. *)
Theorem variants_write_same_places (W H : Z) (InputTexture : Texture2D)
    (id : uint2) :
  1 <= W -> 1 <= H -> ceil_div W 2 * H * 4 < 2 ^ 32 ->
  In id (dispatch_threads (BGRAToYUY2Converter.dispatchX W)
                          (BGRAToYUY2Converter.dispatchY H)) ->
  option_map fst
    (Encode.CSMain (BGRAToYUY2Converter.params W H) InputTexture id)
  = option_map (fun s => 4 * fst s)
      (EncodeMatrix.CSMain (BGRAToYUY2Converter.params W H) InputTexture id)
  /\ (Encode.CSMain (BGRAToYUY2Converter.params W H) InputTexture id = None
      <-> Encode.load_pair (BGRAToYUY2Converter.params W H) InputTexture id
          = None).
Proof.
  intros HW HH Hfit Hid.
  destruct (grid_thread_bounds W H HW HH Hfit id Hid) as [Hi Hj].
  destruct id as [i j]. cbn [fst snd] in Hi, Hj.
  rewrite (CSMain_inside_outside W H InputTexture i j HW HH Hfit Hi Hj).
  destruct (fits_bounds W H HW HH Hfit) as (HW31 & HH30 & Hprod).
  pose proof (ceil_div_2_bounds W HW) as Hc.
  unfold EncodeMatrix.CSMain, Encode.load_pair, BGRAToYUY2Converter.params.
  cbn [ImageWidth ImageHeight fst snd].
  rewrite (u32_small (i * 2)) by lia.
  replace (i * 2) with (2 * i) by lia.
  destruct (i <? ceil_div W 2) eqn:Ei.
  - apply Z.ltb_lt in Ei. pose proof (proj2 (pair_inside W i) Ei) as Hin.
    replace (W <=? 2 * i) with false by (symmetry; apply Z.leb_gt; lia).
    destruct (j <? H) eqn:Ej; cbn [orb andb option_map fst].
    + apply Z.ltb_lt in Ej.
      replace (H <=? j) with false by (symmetry; apply Z.leb_gt; lia).
      cbn [option_map fst]. split; [| split; discriminate].
      rewrite (u32_small (W + 1)) by lia. rewrite <- ceil_div_2.
      assert (Hidx : 0 <= j * ceil_div W 2 + i < ceil_div W 2 * H) by nia.
      assert (Hj' : 0 <= j * ceil_div W 2) by nia.
      rewrite (u32_small (j * ceil_div W 2)) by lia.
      replace (2 * i / 2) with i
        by (rewrite Z.mul_comm, Z.div_mul by lia; reflexivity).
      rewrite (u32_small (j * ceil_div W 2 + i)) by lia.
      reflexivity.
    + apply Z.ltb_ge in Ej.
      replace (H <=? j) with true by (symmetry; apply Z.leb_le; lia).
      cbn [option_map]. split; [reflexivity | split; reflexivity].
  - apply Z.ltb_ge in Ei.
    assert (Hout : W <= 2 * i).
    { destruct (Z.lt_ge_cases (2 * i) W) as [Hlt | Hge]; [| exact Hge].
      apply pair_inside in Hlt. lia. }
    replace (W <=? 2 * i) with true by (symmetry; apply Z.leb_le; lia).
    cbn [orb andb option_map]. split; [reflexivity | split; reflexivity].
Qed.

End Variants.

Lemma variants_write_same_places_witness :
  let P := BGRAToYUY2Converter.params 5 3 in
  let InputTexture : Texture2D := fun _ _ => F4.mk 1 0 0 1 in
  option_map fst (Encode.CSMain (R := binary32) P InputTexture (2, 1))
  = option_map (fun s => 4 * fst s)
      (EncodeMatrix.CSMain (R := binary32) P InputTexture (2, 1))
  /\ (Encode.CSMain (R := binary32) P InputTexture (2, 1) = None
      <-> Encode.load_pair P InputTexture (2, 1) = None).
Proof.
  apply (variants_write_same_places (R := binary32) 5 3
           (fun _ _ => F4.mk 1 0 0 1) (2, 1)).
  - lia.
  - lia.
  - vm_compute. reflexivity.
  - apply In_dispatch_threads. vm_compute.
    repeat split; discriminate.
Defined.

(** ** Gray levels *)

Lemma forallb_zrange (f : Z -> bool) (n k : Z) :
  forallb f (zrange n) = true -> 0 <= k < n -> f k = true.
Proof.
  intros Hall Hk. rewrite forallb_forall in Hall. apply Hall.
  apply In_zrange. exact Hk.
Qed.

Lemma texel_fetch_gray {R : Rounding} (fmt : DXGI_FORMAT) (k a : Z) :
  texel_fetch fmt [k; k; k; a]
  = F4.mk (unorm8_to_float k) (unorm8_to_float k) (unorm8_to_float k)
          (unorm8_to_float a).
Proof. unfold texel_fetch. destruct (fmt =? _); reflexivity. Qed.

(** * Further properties of the decode shader *)

Section DecodeFacts.
Context {R : Rounding}.
Import HLSL.

Lemma lit_zero : (lit 0.000 == 0)%Q.
Proof.
  unfold lit. transitivity (fl 0); [apply fl_comp; reflexivity |].
  apply fl_zero.
Qed.

Lemma lit_one : (lit 1.000 == 1)%Q.
Proof.
  unfold lit. transitivity (fl (inject_Z 1)); [apply fl_comp; reflexivity |].
  apply (fl_int 1). cbn. lia.
Qed.

Lemma lit_128 : (lit 128 == 128)%Q.
Proof. apply (lit_int 128). cbn. lia. Qed.

Lemma lit_219 : (lit 219 == 219)%Q.
Proof. apply (lit_int 219). cbn. lia. Qed.

Lemma lit_224 : (lit 224 == 224)%Q.
Proof. apply (lit_int 224). cbn. lia. Qed.

Lemma lit_nonpos (c : Q) : (c <= 0)%Q -> (lit c <= 0)%Q.
Proof. intros H. rewrite <- fl_zero. apply fl_mono. exact H. Qed.

Lemma fmul_zero_r (a b : Q) : (b == 0)%Q -> (fmul a b == 0)%Q.
Proof.
  intros H. unfold fmul. transitivity (fl 0); [| apply fl_zero].
  apply fl_comp. rewrite H. ring.
Qed.

Lemma fmul_zero_l (a b : Q) : (a == 0)%Q -> (fmul a b == 0)%Q.
Proof.
  intros H. unfold fmul. transitivity (fl 0); [| apply fl_zero].
  apply fl_comp. rewrite H. ring.
Qed.

Lemma fmul_one_l (a b : Q) :
  (a == 1)%Q -> representable b -> (fmul a b == b)%Q.
Proof.
  intros H Hb. unfold fmul. transitivity (fl b); [| exact Hb].
  apply fl_comp. rewrite H. ring.
Qed.

Lemma fadd_zero_r (a b : Q) :
  representable a -> (b == 0)%Q -> (fadd a b == a)%Q.
Proof.
  intros Ha H. unfold fadd. transitivity (fl a); [| exact Ha].
  apply fl_comp. rewrite H. ring.
Qed.

Lemma fmul_antitone_l (c x y : Q) :
  (c <= 0)%Q -> (x <= y)%Q -> (fmul c y <= fmul c x)%Q.
Proof. intros Hc H. apply fl_mono. nra. Qed.

Lemma float_to_unorm8_mono (x y : Q) :
  (x <= y)%Q -> float_to_unorm8 x <= float_to_unorm8 y.
Proof.
  intros H. unfold float_to_unorm8. apply Qfloor_resp_le.
  pose proof (clamp_mono x y 0 1 H) as Hs. unfold saturate. lra.
Qed.

Lemma float_to_unorm8_comp (x y : Q) :
  (x == y)%Q -> float_to_unorm8 x = float_to_unorm8 y.
Proof.
  intros H. apply Z.le_antisymm; apply float_to_unorm8_mono;
    rewrite H; apply Qle_refl.
Qed.

(** The chroma term of a neutral chroma byte is zero. *)
Lemma neutral_chroma_term :
  (fdiv (fsub (utof 128) (lit 128)) (lit 224) == 0)%Q.
Proof.
  unfold fdiv, fsub, utof.
  assert (H128 : (fl (inject_Z 128) == 128)%Q) by (apply fl_int; cbn; lia).
  assert (Hd : (fl (fl (inject_Z 128) - lit 128) == 0)%Q).
  { transitivity (fl 0); [| apply fl_zero].
    apply fl_comp. rewrite H128, lit_128. ring. }
  transitivity (fl 0); [| apply fl_zero].
  apply fl_comp. rewrite Hd. unfold Qdiv. ring.
Qed.

(** With neutral chroma the three channels are the scaled luma. *)
Lemma YUVToRGB_neutral (y : Q) :
  let luma := fdiv (fsub y (lit 16)) (lit 219) in
  let rgb := Decode.YUVToRGB y (utof 128) (utof 128) in
  (F3.x rgb == saturate luma)%Q /\ (F3.y rgb == saturate luma)%Q
  /\ (F3.z rgb == saturate luma)%Q.
Proof.
  cbv zeta. unfold Decode.YUVToRGB, EncodeMatrix.dot3.
  cbn [F3.x F3.y F3.z].
  set (luma := fdiv (fsub y (lit 16)) (lit 219)).
  assert (Hl : representable luma) by apply representable_fl.
  pose proof neutral_chroma_term as Hc.
  assert (Hrow : forall m1 m2 : Q,
            (fadd (fadd (fmul (lit 1.000) luma)
                        (fmul m1 (fdiv (fsub (utof 128) (lit 128)) (lit 224))))
                  (fmul m2 (fdiv (fsub (utof 128) (lit 128)) (lit 224)))
             == luma)%Q).
  { intros m1 m2.
    assert (H1 : (fmul (lit 1.000) luma == luma)%Q)
      by (apply fmul_one_l; [apply lit_one | exact Hl]).
    assert (H2 : (fadd (fmul (lit 1.000) luma)
                       (fmul m1 (fdiv (fsub (utof 128) (lit 128)) (lit 224)))
                  == luma)%Q).
    { unfold fadd. transitivity (fl luma); [| exact Hl].
      apply fl_comp. rewrite H1, (fmul_zero_r m1 _ Hc). ring. }
    unfold fadd at 1. transitivity (fl luma); [| exact Hl].
    apply fl_comp. rewrite H2, (fmul_zero_r m2 _ Hc). ring. }
  unfold saturate, clamp.
  split; [| split]; rewrite Hrow; reflexivity.
Qed.

(** [YUVToRGB] and the 8-bit store turn the chroma values 128, 128
    into three equal colour bytes. *)
Lemma decode_bytes_neutral (y : Z) :
  exists g : Z, decode_bytes y 128 128 = (g, g, g).
Proof.
  unfold decode_bytes.
  destruct (YUVToRGB_neutral (utof y)) as [Hx [Hy Hz]]. cbv zeta in *.
  eexists. rewrite (float_to_unorm8_comp _ _ Hx).
  rewrite (float_to_unorm8_comp _ _ Hy), (float_to_unorm8_comp _ _ Hz).
  reflexivity.
Qed.

(** The colour bytes of the texel a thread writes are those decoded
    from the three values the thread loaded. *)
Lemma CSMain_texel_bytes (unaligned_load : ByteAddressBuffer -> Z -> Z)
    (P : NV12ConversionParams) (InputBuffer : ByteAddressBuffer) (x y : Z) :
  x < NV12ImageWidth P -> y < NV12ImageHeight P ->
  let f := Decode.fetch unaligned_load P InputBuffer (x, y) in
  exists rgba : F4.t,
    Decode.CSMain unaligned_load P InputBuffer (x, y) = Some ((x, y), rgba)
    /\ (float_to_unorm8 (F4.r rgba), float_to_unorm8 (F4.g rgba),
        float_to_unorm8 (F4.b rgba))
       = decode_bytes (Decode.yValue f) (Decode.uValue f) (Decode.vValue f).
Proof.
  intros Hx Hy. cbv zeta. unfold Decode.CSMain. cbn [fst snd].
  replace (NV12ImageWidth P <=? x) with false
    by (symmetry; apply Z.leb_gt; exact Hx).
  replace (NV12ImageHeight P <=? y) with false
    by (symmetry; apply Z.leb_gt; exact Hy).
  cbn [orb]. eexists. split; reflexivity.
Qed.

(** X: whatever the rounding of the arithmetic and whatever the luma
    value, [YUVToRGB] followed by the 8-bit store turns the chroma
    values 128, 128 into three equal colour bytes.  So a thread of the
    decode shader inside the image whose two loaded chroma values are
    both 128 writes a gray texel.  The loaded values are the words
    [Load] returns, not single bytes of the NV12 data. *)
Theorem neutral_chroma_decodes_to_gray :
  (forall y : Z, exists g : Z, decode_bytes y 128 128 = (g, g, g))
  /\ (forall (unaligned_load : ByteAddressBuffer -> Z -> Z)
             (P : NV12ConversionParams) (InputBuffer : ByteAddressBuffer)
             (x y : Z),
        x < NV12ImageWidth P -> y < NV12ImageHeight P ->
        let f := Decode.fetch unaligned_load P InputBuffer (x, y) in
        Decode.uValue f = 128 -> Decode.vValue f = 128 ->
        exists (rgba : F4.t) (g : Z),
          Decode.CSMain unaligned_load P InputBuffer (x, y)
          = Some ((x, y), rgba)
          /\ float_to_unorm8 (F4.r rgba) = g
          /\ float_to_unorm8 (F4.g rgba) = g
          /\ float_to_unorm8 (F4.b rgba) = g).
Proof.
  split; [exact decode_bytes_neutral |].
  intros unaligned_load P InputBuffer x y Hx Hy. cbv zeta. intros Hu Hv.
  destruct (CSMain_texel_bytes unaligned_load P InputBuffer x y Hx Hy)
    as [rgba [Hk Hb]].
  cbv zeta in Hb. rewrite Hu, Hv in Hb.
  destruct (decode_bytes_neutral
              (Decode.yValue (Decode.fetch unaligned_load P InputBuffer
                                           (x, y)))) as [g Hg].
  rewrite Hg in Hb. injection Hb as Hr Hgr Hbl.
  exists rgba, g. repeat split; assumption.
Qed.

Lemma utof_mono (a b : Z) : a <= b -> (utof a <= utof b)%Q.
Proof. intros H. apply fl_mono. rewrite <- Zle_Qle. exact H. Qed.

Lemma scaled_mono (c : Q) (a b : Z) (d : Q) :
  (0 < lit d)%Q -> a <= b ->
  (fdiv (fsub (utof a) (lit c)) (lit d)
   <= fdiv (fsub (utof b) (lit c)) (lit d))%Q.
Proof.
  intros Hd H. apply fdiv_mono; [exact Hd |].
  apply fsub_mono; [apply utof_mono; exact H | apply Qle_refl].
Qed.

Lemma lit_219_pos : (0 < lit 219)%Q.
Proof. rewrite lit_219. reflexivity. Qed.

Lemma lit_224_pos : (0 < lit 224)%Q.
Proof. rewrite lit_224. reflexivity. Qed.

(** [YUVToRGB] followed by the 8-bit store is monotone. *)
Lemma decode_bytes_monotone (y y' u u' v v' : Z) :
  y <= y' ->
  let c := decode_bytes y u v in
  let c' := decode_bytes y' u' v' in
  (v <= v' -> fst (fst c) <= fst (fst c'))
  /\ (u' <= u -> v' <= v -> snd (fst c) <= snd (fst c'))
  /\ (u <= u' -> snd c <= snd c').
Proof.
  intros Hy. cbv zeta. unfold decode_bytes, Decode.YUVToRGB.
  cbn [fst snd F3.x F3.y F3.z]. unfold EncodeMatrix.dot3.
  cbn [F3.x F3.y F3.z].
  pose proof (scaled_mono 16 y y' 219 lit_219_pos Hy) as HY.
  assert (H1 : (0 <= lit 1.000)%Q) by (rewrite lit_one; discriminate).
  assert (H0 : forall a b : Q, (fmul (lit 0.000) a == fmul (lit 0.000) b)%Q).
  { intros a b. rewrite !(fmul_zero_l _ _ lit_zero). reflexivity. }
  split; [| split].
  - intros Hv. pose proof (scaled_mono 128 v v' 224 lit_224_pos Hv) as HV.
    apply float_to_unorm8_mono. apply clamp_mono. apply fadd_mono.
    + apply fadd_mono; [apply fmul_mono_l; assumption |].
      rewrite (H0 _ (fdiv (fsub (utof u') (lit 128)) (lit 224))).
      apply Qle_refl.
    + apply fmul_mono_l; [apply lit_nonneg; discriminate | exact HV].
  - intros Hu Hv.
    pose proof (scaled_mono 128 u' u 224 lit_224_pos Hu) as HU.
    pose proof (scaled_mono 128 v' v 224 lit_224_pos Hv) as HV.
    apply float_to_unorm8_mono. apply clamp_mono. apply fadd_mono.
    + apply fadd_mono; [apply fmul_mono_l; assumption |].
      apply fmul_antitone_l; [apply lit_nonpos; discriminate | exact HU].
    + apply fmul_antitone_l; [apply lit_nonpos; discriminate | exact HV].
  - intros Hu. pose proof (scaled_mono 128 u u' 224 lit_224_pos Hu) as HU.
    apply float_to_unorm8_mono. apply clamp_mono. apply fadd_mono.
    + apply fadd_mono; [apply fmul_mono_l; assumption |].
      apply fmul_mono_l; [apply lit_nonneg; discriminate | exact HU].
    + rewrite (H0 _ (fdiv (fsub (utof v') (lit 128)) (lit 224))).
      apply Qle_refl.
Qed.

(** X: [YUVToRGB] followed by the 8-bit store is monotone in its three
    values: red grows with the luma and the V value and does not depend
    on the U value; blue grows with the luma and the U value and does
    not depend on the V value; green grows with the luma value and
    falls when the U or the V value grows.  So the texels two threads
    of the decode shader write compare like the values the threads
    loaded.  The loaded values are the words [Load] returns, not
    single bytes of the NV12 data. *)
Theorem decode_monotone :
  (forall y y' u u' v v' : Z,
     y <= y' ->
     let c := decode_bytes y u v in
     let c' := decode_bytes y' u' v' in
     (v <= v' -> fst (fst c) <= fst (fst c'))
     /\ (u' <= u -> v' <= v -> snd (fst c) <= snd (fst c'))
     /\ (u <= u' -> snd c <= snd c'))
  /\ (forall (unaligned_load unaligned_load' : ByteAddressBuffer -> Z -> Z)
             (P P' : NV12ConversionParams)
             (InputBuffer InputBuffer' : ByteAddressBuffer)
             (x y x' y' : Z),
        x < NV12ImageWidth P -> y < NV12ImageHeight P ->
        x' < NV12ImageWidth P' -> y' < NV12ImageHeight P' ->
        let f := Decode.fetch unaligned_load P InputBuffer (x, y) in
        let f' := Decode.fetch unaligned_load' P' InputBuffer' (x', y') in
        Decode.yValue f <= Decode.yValue f' ->
        exists rgba rgba' : F4.t,
          Decode.CSMain unaligned_load P InputBuffer (x, y)
          = Some ((x, y), rgba)
          /\ Decode.CSMain unaligned_load' P' InputBuffer' (x', y')
             = Some ((x', y'), rgba')
          /\ (Decode.vValue f <= Decode.vValue f' ->
              float_to_unorm8 (F4.r rgba) <= float_to_unorm8 (F4.r rgba'))
          /\ (Decode.uValue f' <= Decode.uValue f ->
              Decode.vValue f' <= Decode.vValue f ->
              float_to_unorm8 (F4.g rgba) <= float_to_unorm8 (F4.g rgba'))
          /\ (Decode.uValue f <= Decode.uValue f' ->
              float_to_unorm8 (F4.b rgba) <= float_to_unorm8 (F4.b rgba'))).
Proof.
  split; [exact decode_bytes_monotone |].
  intros unaligned_load unaligned_load' P P' InputBuffer InputBuffer'
         x y x' y' Hx Hy Hx' Hy'. cbv zeta. intros Hle.
  destruct (CSMain_texel_bytes unaligned_load P InputBuffer x y Hx Hy)
    as [rgba [Hk Hb]].
  destruct (CSMain_texel_bytes unaligned_load' P' InputBuffer' x' y' Hx' Hy')
    as [rgba' [Hk' Hb']].
  cbv zeta in Hb, Hb'.
  exists rgba, rgba'. split; [exact Hk |]. split; [exact Hk' |].
  pose proof (decode_bytes_monotone _ _
                (Decode.uValue (Decode.fetch unaligned_load P InputBuffer
                                             (x, y)))
                (Decode.uValue (Decode.fetch unaligned_load' P' InputBuffer'
                                             (x', y')))
                (Decode.vValue (Decode.fetch unaligned_load P InputBuffer
                                             (x, y)))
                (Decode.vValue (Decode.fetch unaligned_load' P' InputBuffer'
                                             (x', y')))
                Hle) as Hm.
  cbv zeta in Hm. rewrite <- Hb, <- Hb' in Hm. cbn [fst snd] in Hm.
  exact Hm.
Qed.

End DecodeFacts.

Lemma neutral_chroma_decodes_to_gray_witness :
  let P := {| NV12ImageWidth := 4; NV12ImageHeight := 2;
              YPlaneStride := 4; UVPlaneStride := 4 |} in
  let InputBuffer : ByteAddressBuffer :=
    repeat x64 8 ++ [x80; x00; x00; x00] in
  exists (rgba : F4.t) (g : Z),
    Decode.CSMain (R := binary32) (fun _ _ => 128) P InputBuffer (0, 0)
    = Some ((0, 0), rgba)
    /\ float_to_unorm8 (F4.r rgba) = g
    /\ float_to_unorm8 (F4.g rgba) = g
    /\ float_to_unorm8 (F4.b rgba) = g.
Proof.
  exact (proj2 (neutral_chroma_decodes_to_gray (R := binary32))
               (fun _ _ => 128)
               {| NV12ImageWidth := 4; NV12ImageHeight := 2;
                  YPlaneStride := 4; UVPlaneStride := 4 |}
               (repeat x64 8 ++ [x80; x00; x00; x00]) 0 0
               ltac:(reflexivity) ltac:(reflexivity)
               ltac:(vm_compute; reflexivity)
               ltac:(vm_compute; reflexivity)).
Defined.

Lemma decode_monotone_witness :
  let P := {| NV12ImageWidth := 4; NV12ImageHeight := 2;
              YPlaneStride := 4; UVPlaneStride := 4 |} in
  let InputBuffer : ByteAddressBuffer :=
    [x64; x00; x00; x00] ++ repeat x00 4 ++ [x5a; x00; x00; x00] in
  let InputBuffer' : ByteAddressBuffer :=
    [x78; x00; x00; x00] ++ repeat x00 4 ++ [x5a; x00; x00; x00] in
  let f := Decode.fetch (fun _ _ => 200) P InputBuffer (0, 0) in
  let f' := Decode.fetch (fun _ _ => 200) P InputBuffer' (0, 0) in
  exists rgba rgba' : F4.t,
    Decode.CSMain (R := binary32) (fun _ _ => 200) P InputBuffer (0, 0)
    = Some ((0, 0), rgba)
    /\ Decode.CSMain (R := binary32) (fun _ _ => 200) P InputBuffer' (0, 0)
       = Some ((0, 0), rgba')
    /\ (Decode.vValue f <= Decode.vValue f' ->
        float_to_unorm8 (F4.r rgba) <= float_to_unorm8 (F4.r rgba'))
    /\ (Decode.uValue f' <= Decode.uValue f ->
        Decode.vValue f' <= Decode.vValue f ->
        float_to_unorm8 (F4.g rgba) <= float_to_unorm8 (F4.g rgba'))
    /\ (Decode.uValue f <= Decode.uValue f' ->
        float_to_unorm8 (F4.b rgba) <= float_to_unorm8 (F4.b rgba')).
Proof.
  exact (proj2 (decode_monotone (R := binary32))
               (fun _ _ => 200) (fun _ _ => 200)
               {| NV12ImageWidth := 4; NV12ImageHeight := 2;
                  YPlaneStride := 4; UVPlaneStride := 4 |}
               {| NV12ImageWidth := 4; NV12ImageHeight := 2;
                  YPlaneStride := 4; UVPlaneStride := 4 |}
               ([x64; x00; x00; x00] ++ repeat x00 4 ++ [x5a; x00; x00; x00])
               ([x78; x00; x00; x00] ++ repeat x00 4 ++ [x5a; x00; x00; x00])
               0 0 0 0
               ltac:(reflexivity) ltac:(reflexivity)
               ltac:(reflexivity) ltac:(reflexivity)
               ltac:(vm_compute; discriminate)).
Defined.

Lemma luma_byte_monotone_witness :
  let pixel := F4.mk (1 # 4) (1 # 2) 0 1 in
  let pixel' := F4.mk (1 # 2) (1 # 2) (1 # 3) 1 in
  own_Y (R := binary32) pixel <= own_Y (R := binary32) pixel'
  /\ forall other other' : F4.t,
       Encode.Y0 (Encode.encode_pair (R := binary32) pixel other)
       <= Encode.Y0 (Encode.encode_pair (R := binary32) pixel' other')
       /\ Encode.Y1 (Encode.encode_pair (R := binary32) other pixel)
          <= Encode.Y1 (Encode.encode_pair (R := binary32) other' pixel').
Proof.
  apply (luma_byte_monotone (R := binary32) (F4.mk (1 # 4) (1 # 2) 0 1)
           (F4.mk (1 # 2) (1 # 2) (1 # 3) 1));
    vm_compute; discriminate.
Defined.

(** * The NV12 to RGBA conversion *)

(** ** The dispatch grid of the decoder *)

Lemma nv12_dispatchX_ceil (W : Z) :
  0 <= W -> W + 15 < 2 ^ 32 -> NV12Host.dispatchX W = ceil_div W 16.
Proof.
  intros H0 HW. unfold NV12Host.dispatchX, ceil_div.
  rewrite u32_small by lia. f_equal. lia.
Qed.

Lemma nv12_dispatchY_ceil (H : Z) :
  0 <= H -> H + 15 < 2 ^ 32 -> NV12Host.dispatchY H = ceil_div H 16.
Proof.
  intros H0 HH. unfold NV12Host.dispatchY, ceil_div.
  rewrite u32_small by lia. f_equal. lia.
Qed.

Lemma apply_texel_stores_cons (tex : RGBA8Texture) (s : uint2 * F4.t)
    (rest : list (uint2 * F4.t)) :
  apply_texel_stores tex (s :: rest)
  = apply_texel_stores (store_texel tex s) rest.
Proof. reflexivity. Qed.

(** Stores to other texels leave a texel unchanged. *)
Lemma apply_texel_stores_other (stores : list (uint2 * F4.t))
    (tex : RGBA8Texture) (x y : Z) :
  ~ In (x, y) (map fst stores) ->
  apply_texel_stores tex stores x y = tex x y.
Proof.
  revert tex. induction stores as [| s rest IH]; intros tex Hn.
  - reflexivity.
  - rewrite apply_texel_stores_cons, IH.
    + unfold store_texel.
      destruct ((x =? fst (fst s)) && (y =? snd (fst s))) eqn:E;
        [| reflexivity].
      apply andb_true_iff in E. destruct E as [Ex Ey].
      apply Z.eqb_eq in Ex. apply Z.eqb_eq in Ey.
      exfalso. apply Hn. left. destruct s as [[sx sy] c].
      cbn [fst snd] in *. subst. reflexivity.
    + intros Hin. apply Hn. right. exact Hin.
Qed.

(** When no texel is stored twice, every store of the list is in the
    final texture. *)
Lemma apply_texel_stores_lookup (stores : list (uint2 * F4.t))
    (tex : RGBA8Texture) (pos : uint2) (rgba : F4.t) :
  NoDup (map fst stores) -> In (pos, rgba) stores ->
  apply_texel_stores tex stores (fst pos) (snd pos)
  = [float_to_unorm8 (F4.r rgba); float_to_unorm8 (F4.g rgba);
     float_to_unorm8 (F4.b rgba); float_to_unorm8 (F4.a rgba)].
Proof.
  revert tex. induction stores as [| s rest IH]; intros tex Hnd Hin.
  - contradiction.
  - cbn [map] in Hnd. inversion Hnd as [| k ks Hk Hnd']; subst.
    rewrite apply_texel_stores_cons. destruct Hin as [-> | Hin].
    + destruct pos as [x y]. cbn [fst snd] in *.
      rewrite apply_texel_stores_other by exact Hk.
      unfold store_texel. cbn [fst snd]. rewrite !Z.eqb_refl. reflexivity.
    + apply IH; assumption.
Qed.

Section DecodeDispatch.
Context {R : Rounding}.
Variable unaligned_load : ByteAddressBuffer -> Z -> Z.
Variables (W H : Z) (InputBuffer : ByteAddressBuffer).
Hypothesis HW : 0 <= W < 2 ^ 32 - 15.
Hypothesis HH : 0 <= H < 2 ^ 32 - 15.

Local Abbreviation threads :=
  (dispatch_threads (NV12Host.dispatchX W) (NV12Host.dispatchY H)).
Local Abbreviation kernel :=
  (Decode.CSMain unaligned_load (NV12Host.params W H) InputBuffer).

(** The texel the thread of the pixel [(x, y)] computes. *)
Local Abbreviation texel x y :=
  (let f := Decode.fetch unaligned_load (NV12Host.params W H) InputBuffer
                         (x, y) in
   let rgb := Decode.YUVToRGB (HLSL.utof (Decode.yValue f))
                              (HLSL.utof (Decode.uValue f))
                              (HLSL.utof (Decode.vValue f)) in
   F4.mk (F3.x rgb) (F3.y rgb) (F3.z rgb) (HLSL.lit 1.0)).

Lemma decode_kernel (x y : Z) :
  kernel (x, y)
  = if (x <? W) && (y <? H) then Some ((x, y), texel x y) else None.
Proof.
  unfold Decode.CSMain, NV12Host.params.
  cbn [NV12ImageWidth NV12ImageHeight fst snd].
  rewrite (Z.leb_antisym x W), (Z.leb_antisym y H).
  destruct (x <? W), (y <? H); reflexivity.
Qed.

Lemma decode_grid_is_ceil :
  NV12Host.dispatchX W = ceil_div W 16
  /\ NV12Host.dispatchY H = ceil_div H 16.
Proof. split; [apply nv12_dispatchX_ceil | apply nv12_dispatchY_ceil]; lia. Qed.

Lemma decode_grid_covers (x y : Z) :
  0 <= x < W -> 0 <= y < H -> In (x, y) threads.
Proof.
  intros Hx Hy. apply In_dispatch_threads. cbn [fst snd].
  destruct decode_grid_is_ceil as [-> ->].
  pose proof (ceil_div_16_covers W). pose proof (ceil_div_16_covers H). lia.
Qed.

Lemma decode_kernel_writes (id : uint2) (s : uint2 * F4.t) :
  In id threads -> kernel id = Some s ->
  (0 <= fst id < W /\ 0 <= snd id < H)
  /\ s = (id, texel (fst id) (snd id)).
Proof.
  destruct id as [x y]. intros Hid Hs. apply In_dispatch_threads in Hid.
  cbn [fst snd] in *. rewrite decode_kernel in Hs.
  destruct (x <? W) eqn:Ex; [| discriminate].
  destruct (y <? H) eqn:Ey; [| discriminate].
  apply Z.ltb_lt in Ex. apply Z.ltb_lt in Ey. cbn [andb] in Hs.
  injection Hs as Hs. split; [lia | symmetry; exact Hs].
Qed.

Lemma decode_texels_NoDup (order : list uint2) :
  Permutation order threads -> NoDup (map fst (writes kernel order)).
Proof.
  intros Hp. apply NoDup_writes_keys.
  - apply (Permutation_NoDup (Permutation_sym Hp)).
    apply NoDup_dispatch_threads.
  - intros id id' s s' Hid Hid' Hs Hs' Hkey.
    apply (Permutation_in _ Hp) in Hid. apply (Permutation_in _ Hp) in Hid'.
    destruct (decode_kernel_writes _ _ Hid Hs) as [_ ->].
    destruct (decode_kernel_writes _ _ Hid' Hs') as [_ ->].
    exact Hkey.
Qed.

(** X: for a width and a height below [2^32 - 15], for which [W + 15]
    and [H + 15] do not wrap, the grid [Convert] dispatches for the
    decoder is [(ceil(W/16), ceil(H/16))]; every pixel of the image is
    the position of exactly one thread, that thread assigns the texel
    of its own position and no other thread assigns it; a thread
    outside the image assigns nothing. *)
Theorem decode_grid_writes_each_pixel_once :
  (NV12Host.dispatchX W, NV12Host.dispatchY H)
  = (ceil_div W 16, ceil_div H 16)
  /\ (forall id : uint2, In id threads ->
        ~ (fst id < W /\ snd id < H) -> kernel id = None)
  /\ (forall x y : Z, 0 <= x < W -> 0 <= y < H ->
        count_occ uint2_eq_dec threads (x, y) = 1%nat
        /\ (exists rgba : F4.t, kernel (x, y) = Some ((x, y), rgba))
        /\ count_occ uint2_eq_dec (map fst (writes kernel threads)) (x, y)
           = 1%nat).
Proof.
  split; [| split].
  - destruct decode_grid_is_ceil as [-> ->]. reflexivity.
  - intros id Hid Hout. destruct (kernel id) as [s |] eqn:Ek; [| reflexivity].
    destruct (decode_kernel_writes id s Hid Ek) as [Hin _]. lia.
  - intros x y Hx Hy. pose proof (decode_grid_covers x y Hx Hy) as Hin.
    assert (Hk : kernel (x, y) = Some ((x, y), texel x y)).
    { rewrite decode_kernel.
      replace (x <? W) with true by (symmetry; apply Z.ltb_lt; lia).
      replace (y <? H) with true by (symmetry; apply Z.ltb_lt; lia).
      reflexivity. }
    split; [| split].
    + apply (proj1 (NoDup_count_occ' uint2_eq_dec threads));
        [apply NoDup_dispatch_threads | exact Hin].
    + eexists. exact Hk.
    + apply (proj1 (NoDup_count_occ' uint2_eq_dec _)
                   (decode_texels_NoDup threads (Permutation_refl _))).
      apply in_map_iff. eexists. split; [| apply In_writes; eexists; eauto].
      reflexivity.
Qed.

(** The texture after the threads have run in the order [order]. *)
Lemma decode_texel_after_dispatch (order : list uint2)
    (OutputTexture : RGBA8Texture) (x y : Z) :
  Permutation order threads -> 0 <= x -> 0 <= y ->
  apply_texel_stores OutputTexture (writes kernel order) x y
  = if (x <? W) && (y <? H)
    then let f := Decode.fetch unaligned_load (NV12Host.params W H)
                               InputBuffer (x, y) in
         let c := decode_bytes (Decode.yValue f) (Decode.uValue f)
                               (Decode.vValue f) in
         [fst (fst c); snd (fst c); snd c; 255]
    else OutputTexture x y.
Proof.
  intros Hp Hx Hy. destruct ((x <? W) && (y <? H)) eqn:E.
  - apply andb_true_iff in E. destruct E as [Ex Ey].
    apply Z.ltb_lt in Ex. apply Z.ltb_lt in Ey.
    rewrite (apply_texel_stores_lookup _ _ (x, y) (texel x y)).
    + cbv zeta. unfold decode_bytes. cbn [F4.r F4.g F4.b F4.a F4.x F4.y
                                           F4.z F4.w fst snd].
      f_equal. f_equal. f_equal. f_equal.
      apply float_to_unorm8_one. unfold HLSL.lit.
      transitivity (fl (inject_Z 1)); [apply fl_comp; reflexivity |].
      apply (fl_int 1). cbn. lia.
    + apply decode_texels_NoDup. exact Hp.
    + apply In_writes. exists (x, y). split.
      * apply (Permutation_in _ (Permutation_sym Hp)).
        apply decode_grid_covers; lia.
      * rewrite decode_kernel.
        replace (x <? W) with true by (symmetry; apply Z.ltb_lt; lia).
        replace (y <? H) with true by (symmetry; apply Z.ltb_lt; lia).
        reflexivity.
  - apply apply_texel_stores_other. intros Hin.
    apply in_map_iff in Hin. destruct Hin as [s [Hs Hin]].
    apply In_writes in Hin. destruct Hin as [id [Hid Hk]].
    apply (Permutation_in _ Hp) in Hid.
    destruct (decode_kernel_writes id s Hid Hk) as [[Hix Hiy] ->].
    cbn [fst] in Hs. subst id. cbn [fst snd] in *.
    apply andb_false_iff in E. destruct E as [E | E]; apply Z.ltb_ge in E; lia.
Qed.

(** X: for a width and a height below [2^32 - 15], for which the
    dispatched grid does not wrap, the threads of the decode dispatch
    may run in any order: the texture after the dispatch holds, at
    every pixel of the image, the colour bytes decoded from the three
    values that pixel's thread loaded, with alpha 255; texels outside
    the image keep what they held. *)
Theorem decode_dispatch_result (order : list uint2)
    (OutputTexture : RGBA8Texture) :
  Permutation order threads ->
  let final := apply_texel_stores OutputTexture (writes kernel order) in
  (forall x y : Z, 0 <= x < W -> 0 <= y < H ->
     let f := Decode.fetch unaligned_load (NV12Host.params W H)
                           InputBuffer (x, y) in
     let c := decode_bytes (Decode.yValue f) (Decode.uValue f)
                           (Decode.vValue f) in
     final x y = [fst (fst c); snd (fst c); snd c; 255])
  /\ (forall x y : Z, 0 <= x -> 0 <= y -> ~ (x < W /\ y < H) ->
        final x y = OutputTexture x y).
Proof.
  intros Hp. cbv zeta. split.
  - intros x y Hx Hy. rewrite decode_texel_after_dispatch by (assumption || lia).
    replace (x <? W) with true by (symmetry; apply Z.ltb_lt; lia).
    replace (y <? H) with true by (symmetry; apply Z.ltb_lt; lia).
    reflexivity.
  - intros x y Hx Hy Hout.
    rewrite decode_texel_after_dispatch by (assumption || lia).
    destruct ((x <? W) && (y <? H)) eqn:E; [| reflexivity].
    apply andb_true_iff in E. destruct E as [Ex Ey].
    apply Z.ltb_lt in Ex. apply Z.ltb_lt in Ey. lia.
Qed.

End DecodeDispatch.

Lemma decode_grid_writes_each_pixel_once_witness :
  let W := 5 in
  let H := 3 in
  let InputBuffer : ByteAddressBuffer := repeat x80 24 in
  let threads :=
    dispatch_threads (NV12Host.dispatchX W) (NV12Host.dispatchY H) in
  let kernel :=
    Decode.CSMain (R := binary32) (fun _ _ => 0) (NV12Host.params W H)
                  InputBuffer in
  (NV12Host.dispatchX W, NV12Host.dispatchY H)
  = (ceil_div W 16, ceil_div H 16)
  /\ (forall id : uint2, In id threads ->
        ~ (fst id < W /\ snd id < H) -> kernel id = None)
  /\ (forall x y : Z, 0 <= x < W -> 0 <= y < H ->
        count_occ uint2_eq_dec threads (x, y) = 1%nat
        /\ (exists rgba : F4.t, kernel (x, y) = Some ((x, y), rgba))
        /\ count_occ uint2_eq_dec (map fst (writes kernel threads)) (x, y)
           = 1%nat).
Proof.
  apply (decode_grid_writes_each_pixel_once (R := binary32) (fun _ _ => 0)
           5 3 (repeat x80 24)); lia.
Defined.

Lemma decode_dispatch_result_witness :
  let W := 4 in
  let H := 2 in
  let InputBuffer : ByteAddressBuffer := repeat x80 12 in
  let threads :=
    dispatch_threads (NV12Host.dispatchX W) (NV12Host.dispatchY H) in
  let kernel :=
    Decode.CSMain (R := binary32) (fun _ _ => 0) (NV12Host.params W H)
                  InputBuffer in
  let final :=
    apply_texel_stores (fun _ _ => [0; 0; 0; 0])
                       (writes kernel (rev threads)) in
  (forall x y : Z, 0 <= x < W -> 0 <= y < H ->
     let f := Decode.fetch (fun _ _ => 0) (NV12Host.params W H)
                           InputBuffer (x, y) in
     let c := decode_bytes (R := binary32) (Decode.yValue f)
                           (Decode.uValue f) (Decode.vValue f) in
     final x y = [fst (fst c); snd (fst c); snd c; 255])
  /\ (forall x y : Z, 0 <= x -> 0 <= y -> ~ (x < W /\ y < H) ->
        final x y = [0; 0; 0; 0]).
Proof.
  apply (decode_dispatch_result (R := binary32) (fun _ _ => 0) 4 2
           (repeat x80 12)).
  - lia.
  - lia.
  - apply Permutation_sym. apply Permutation_rev.
Defined.

(** * Validation of a converted frame *)

Lemma In_macropixel_offsets (dataSize i : Z) :
  In i (macropixel_offsets dataSize)
  <-> exists k, i = 4 * k /\ 0 <= k /\ 4 * k < dataSize.
Proof.
  unfold macropixel_offsets. rewrite in_map_iff.
  pose proof (Z.div_mod (dataSize + 3) 4) as D.
  pose proof (Z.mod_pos_bound (dataSize + 3) 4) as M.
  split.
  - intros [k [Hi Hk]]. apply In_zrange in Hk. exists k. lia.
  - intros [k [Hi [H0 Hk]]]. exists k. split; [lia |].
    apply In_zrange. lia.
Qed.

(** The four bytes of the macropixel at the offset [i]. *)
Lemma byte_at_range (data : list byte) (i : Z) : 0 <= byte_at data i < 256.
Proof. apply byte_val_range. Qed.

Lemma scan_true (data : list byte) (offsets : list Z) :
  fst (Demo0.scan data offsets) = true
  <-> forall i, In i offsets ->
        studio_range [byte_at data i; byte_at data (i + 1);
                      byte_at data (i + 2); byte_at data (i + 3)].
Proof.
  induction offsets as [| i rest IH]; cbn [Demo0.scan].
  - split; [intros _ i [] | reflexivity].
  - destruct ((byte_at data i <? 16) || (235 <? byte_at data i)
              || (byte_at data (i + 2) <? 16)
              || (235 <? byte_at data (i + 2))) eqn:EY.
    { cbn [fst]. split; [discriminate |]. intros Hall.
      specialize (Hall i (or_introl eq_refl)). cbn in Hall.
      repeat rewrite orb_true_iff in EY.
      rewrite !Z.ltb_lt in EY. lia. }
    destruct ((byte_at data (i + 1) <? 16) || (240 <? byte_at data (i + 1))
              || (byte_at data (i + 3) <? 16)
              || (240 <? byte_at data (i + 3))) eqn:EUV.
    { cbn [fst]. split; [discriminate |]. intros Hall.
      specialize (Hall i (or_introl eq_refl)). cbn in Hall.
      repeat rewrite orb_true_iff in EUV.
      rewrite !Z.ltb_lt in EUV. lia. }
    rewrite IH. repeat rewrite orb_false_iff in EY, EUV.
    rewrite !Z.ltb_ge in EY, EUV.
    split.
    + intros Hall j [<- | Hj]; [cbn; lia | apply Hall; exact Hj].
    + intros Hall j Hj. apply Hall. right. exact Hj.
Qed.

(** The loop logs exactly when it fails. *)
Lemma scan_log (data : list byte) (offsets : list Z) :
  Demo0.scan data offsets = (true, [])
  \/ Demo0.scan data offsets = (false, [ErrInvalidY])
  \/ Demo0.scan data offsets = (false, [ErrInvalidUV]).
Proof.
  induction offsets as [| i rest IH]; cbn [Demo0.scan].
  - left. reflexivity.
  - destruct (_ || _ || _ || _); [right; left; reflexivity |].
    destruct (_ || _ || _ || _); [right; right; reflexivity | exact IH].
Qed.

(** When the first version of [ValidateYUY2Data] accepts. *)
Lemma strict_validation_true (data : list byte) (dataSize width height : Z) :
  fst (Demo0.ValidateYUY2Data data dataSize width height) = true
  <-> dataSize = BGRAToYUY2Converter.yuy2Size width height
      /\ forall k, 0 <= k -> 4 * k < dataSize ->
           studio_range [byte_at data (4 * k); byte_at data (4 * k + 1);
                         byte_at data (4 * k + 2); byte_at data (4 * k + 3)].
Proof.
  unfold Demo0.ValidateYUY2Data.
  fold (BGRAToYUY2Converter.yuy2Size width height).
  destruct (dataSize =? BGRAToYUY2Converter.yuy2Size width height) eqn:E;
    cbn [negb].
  - apply Z.eqb_eq in E. rewrite scan_true. split.
    + intros Hall. split; [exact E |]. intros k H0 Hk.
      apply Hall. apply In_macropixel_offsets. exists k. lia.
    + intros [_ Hall] i Hi. apply In_macropixel_offsets in Hi.
      destruct Hi as [k [-> [H0 Hk]]]. apply Hall; assumption.
  - apply Z.eqb_neq in E. cbn [fst].
    split; [discriminate | intros [Hs _]; contradiction].
Qed.

Lemma strict_validation_log (data : list byte) (dataSize width height : Z) :
  (fst (Demo0.ValidateYUY2Data data dataSize width height) = true ->
   snd (Demo0.ValidateYUY2Data data dataSize width height) = [])
  /\ (fst (Demo0.ValidateYUY2Data data dataSize width height) = false ->
      length (snd (Demo0.ValidateYUY2Data data dataSize width height))
      = 1%nat).
Proof.
  unfold Demo0.ValidateYUY2Data.
  destruct (dataSize =? _); cbn [negb].
  - destruct (scan_log data (macropixel_offsets dataSize))
      as [-> | [-> | ->]]; cbn [fst snd]; split;
      reflexivity || discriminate.
  - cbn [fst snd]. split; [discriminate | reflexivity].
Qed.

(** X: the first version of [ValidateYUY2Data] accepts a frame
    exactly when its size is the one computed from the width and the
    height and every macropixel is in the studio range; it logs
    nothing then, and one error otherwise. *)
Theorem strict_validation_accepts_studio_range (data : list byte)
    (dataSize width height : Z) :
  (fst (Demo0.ValidateYUY2Data data dataSize width height) = true
   <-> dataSize = BGRAToYUY2Converter.yuy2Size width height
       /\ forall k, 0 <= k -> 4 * k < dataSize ->
            studio_range [byte_at data (4 * k); byte_at data (4 * k + 1);
                          byte_at data (4 * k + 2); byte_at data (4 * k + 3)])
  /\ (fst (Demo0.ValidateYUY2Data data dataSize width height) = true ->
      snd (Demo0.ValidateYUY2Data data dataSize width height) = [])
  /\ (fst (Demo0.ValidateYUY2Data data dataSize width height) = false ->
      length (snd (Demo0.ValidateYUY2Data data dataSize width height))
      = 1%nat).
Proof.
  split; [apply strict_validation_true | apply strict_validation_log].
Qed.

Section Lenient.
Context {R : Rounding}.
Import HLSL.

(** A macropixel of the studio range is not counted. *)
Lemma count_studio (data : list byte) (offsets : list Z) (a b : Z) :
  (forall i, In i offsets ->
     studio_range [byte_at data i; byte_at data (i + 1);
                   byte_at data (i + 2); byte_at data (i + 3)]) ->
  Demo.count data offsets a b = (a, b).
Proof.
  revert a b. induction offsets as [| i rest IH]; intros a b Hall.
  - reflexivity.
  - cbn [Demo.count].
    pose proof (Hall i (or_introl eq_refl)) as Hi. cbn in Hi.
    replace ((byte_at data i <? 10) || (245 <? byte_at data i)
             || (byte_at data (i + 2) <? 10)
             || (245 <? byte_at data (i + 2))) with false.
    2:{ symmetry. repeat rewrite orb_false_iff. rewrite !Z.ltb_ge. lia. }
    replace ((byte_at data (i + 1) <? 10) || (245 <? byte_at data (i + 1))
             || (byte_at data (i + 3) <? 10)
             || (245 <? byte_at data (i + 3))) with false.
    2:{ symmetry. repeat rewrite orb_false_iff. rewrite !Z.ltb_ge. lia. }
    apply IH. intros j Hj. apply Hall. right. exact Hj.
Qed.

(** A ratio of zero is not greater than a tenth. *)
Lemma zero_ratio_passes (totalPixels : Z) :
  Demo.fgt (fdiv (utof 0) (utof totalPixels)) (lit 0.1) = false.
Proof.
  unfold Demo.fgt. apply negb_false_iff. apply Qle_bool_iff.
  assert (H0 : (fdiv (utof 0) (utof totalPixels) == 0)%Q).
  { unfold fdiv, utof. transitivity (fl 0); [| apply fl_zero].
    apply fl_comp. rewrite (fl_int 0) by (cbn; lia).
    unfold Qdiv. change (inject_Z 0) with 0%Q. ring. }
  rewrite H0. apply lit_nonneg. discriminate.
Qed.

Lemma strict_implies_lenient (data : list byte)
    (dataSize width height : Z) :
  fst (Demo0.ValidateYUY2Data data dataSize width height) = true ->
  Demo.ValidateYUY2Data data dataSize width height = (true, []).
Proof.
  unfold Demo0.ValidateYUY2Data, Demo.ValidateYUY2Data.
  destruct (dataSize =? _); cbn [negb]; [| discriminate].
  intros Hs. pose proof (proj1 (scan_true _ _) Hs) as Hall.
  rewrite (count_studio _ _ 0 0 Hall).
  rewrite zero_ratio_passes. reflexivity.
Qed.

(** X: whatever the first version of [ValidateYUY2Data] accepts, the
    current version accepts, and logs nothing. *)
Theorem lenient_validation_accepts_what_strict_accepts (data : list byte)
    (dataSize width height : Z) :
  fst (Demo0.ValidateYUY2Data data dataSize width height) = true ->
  Demo.ValidateYUY2Data data dataSize width height = (true, []).
Proof. apply strict_implies_lenient. Qed.

End Lenient.

(** ** Validation of what the encoder wrote *)

(** [ReadOutputBuffer] leaves in [dataSize] the size [ValidateYUY2Data]
    expects. *)
Lemma ReadOutputBuffer_data_size (dev : Device)
    (buffer : option ByteAddressBuffer) (width height : Z)
    (data : list byte) (hr : HRESULT) (dataSize : Z) :
  ReadOutputBuffer_data dev buffer width height 0
  = (hr, Some data, dataSize) ->
  dataSize = BGRAToYUY2Converter.yuy2Size width height
  /\ exists contents,
       buffer = Some contents
       /\ data = firstn (Z.to_nat dataSize) contents.
Proof.
  unfold ReadOutputBuffer_data. destruct buffer as [contents |];
    [| discriminate].
  fold (BGRAToYUY2Converter.yuy2Size width height).
  destruct (FAILED (CreateBuffer_result dev)); [discriminate |].
  destruct (SUCCEEDED (Map_result dev)); [| discriminate].
  intros E. injection E as _ <- <-. split; [reflexivity |].
  exists contents. split; reflexivity.
Qed.

(** A log line that is none of the lines of a log. *)
Ltac not_in_log :=
  let HIn := fresh "HIn" in
  intros HIn;
  repeat match type of HIn with
         | context [if ?b then _ else _] => destruct b
         end;
  cbn [In app] in HIn;
  repeat (destruct HIn as [HIn | HIn]; [discriminate |]); exact HIn.

(** X: [ValidateConversion] never reports a size mismatch, in either
    version of main.cpp: [ReadOutputBuffer] computes the size it
    returns by the expression [ValidateYUY2Data] checks it against,
    wrap-around included. *)
Theorem validation_size_check_never_fails {R : Rounding} (dev : Device)
    (buffer : option ByteAddressBuffer) (width height m_frameCount : Z)
    (expectedSize dataSize : Z) :
  ~ In (ErrSizeMismatch expectedSize dataSize)
       (Demo0.ValidateConversion dev buffer width height m_frameCount)
  /\ ~ In (ErrSizeMismatch expectedSize dataSize)
          (Demo.ValidateConversion dev buffer width height m_frameCount).
Proof.
  unfold Demo0.ValidateConversion, Demo.ValidateConversion.
  destruct (ReadOutputBuffer_data dev buffer width height 0)
    as [[hr [data |]] size] eqn:E.
  2:{ split; intros [H | []]; discriminate. }
  destruct (ReadOutputBuffer_data_size _ _ _ _ _ _ _ E) as [-> _].
  destruct (SUCCEEDED hr); [| split; intros [H | []]; discriminate].
  unfold Demo0.ValidateYUY2Data, Demo.ValidateYUY2Data.
  fold (BGRAToYUY2Converter.yuy2Size width height).
  rewrite Z.eqb_refl. cbn [negb]. split.
  - destruct (scan_log data (macropixel_offsets
                               (BGRAToYUY2Converter.yuy2Size width height)))
      as [-> | [-> | ->]]; cbn [app];
      destruct (m_frameCount =? 0); not_in_log.
  - destruct (Demo.count _ _ _ _) as [cy cuv].
    destruct (Demo.fgt _ _), (Demo.fgt _ _); cbn [orb app];
      destruct (m_frameCount =? 30); not_in_log.
Qed.

Section EncodedFrame.
Context {R : Rounding}.
Variables (W H : Z) (InputTexture : Texture2D).
Hypothesis HW : 1 <= W.
Hypothesis HH : 1 <= H.
Hypothesis Hfit : ceil_div W 2 * H * 4 < 2 ^ 32.

Local Abbreviation threads :=
  (dispatch_threads (BGRAToYUY2Converter.dispatchX W)
                    (BGRAToYUY2Converter.dispatchY H)).
Local Abbreviation kernel :=
  (Encode.CSMain (BGRAToYUY2Converter.params W H) InputTexture).

(** Every macropixel of the buffer after the dispatch is in the studio
    range. *)
Lemma encoded_frame_studio_range (order : list uint2)
    (OutputBuffer : ByteAddressBuffer) (k : Z) :
  Permutation order threads ->
  Z.of_nat (length OutputBuffer) = BGRAToYUY2Converter.yuy2Size W H ->
  0 <= k -> 4 * k < BGRAToYUY2Converter.yuy2Size W H ->
  let final := apply_stores OutputBuffer (writes kernel order) in
  studio_range [byte_at final (4 * k); byte_at final (4 * k + 1);
                byte_at final (4 * k + 2); byte_at final (4 * k + 3)].
Proof.
  intros Hp Hlen H0 Hk. cbv zeta.
  pose proof (yuy2Size_no_wrap W H HW HH Hfit) as Hsize.
  pose proof (ceil_div_2_bounds W HW) as Hc.
  pose proof (Z.div_mod k (ceil_div W 2)) as D.
  pose proof (Z.mod_pos_bound k (ceil_div W 2)) as M.
  assert (Hj : 0 <= k / ceil_div W 2 < H).
  { split; [apply Z.div_pos; lia |]. apply Z.div_lt_upper_bound; lia. }
  pose proof (order_word W H InputTexture HW HH Hfit order OutputBuffer
                (k mod ceil_div W 2) (k / ceil_div W 2) Hp Hlen) as Hw.
  replace (k / ceil_div W 2 * ceil_div W 2 + k mod ceil_div W 2) with k in Hw
    by lia.
  specialize (Hw ltac:(lia) Hj).
  set (final := apply_stores OutputBuffer (writes kernel order)) in *.
  assert (Hfl : Z.of_nat (length final) = ceil_div W 2 * H * 4).
  { unfold final. rewrite length_apply_stores. lia. }
  rewrite (bytes_at_nth final (4 * k) x00) in Hw by lia.
  apply (f_equal (map byte_val)) in Hw.
  fold (word_bytes (Encode.pack
          (Encode.encode_pair
             (InputTexture (2 * (k mod ceil_div W 2)) (k / ceil_div W 2))
             (if 2 * (k mod ceil_div W 2) + 1 <? W
              then InputTexture (2 * (k mod ceil_div W 2) + 1)
                                (k / ceil_div W 2)
              else InputTexture (2 * (k mod ceil_div W 2))
                                (k / ceil_div W 2))))) in Hw.
  pose proof (encode_pair_range
                (InputTexture (2 * (k mod ceil_div W 2)) (k / ceil_div W 2))
                (if 2 * (k mod ceil_div W 2) + 1 <? W
                 then InputTexture (2 * (k mod ceil_div W 2) + 1)
                                   (k / ceil_div W 2)
                 else InputTexture (2 * (k mod ceil_div W 2))
                                   (k / ceil_div W 2))) as Hr.
  cbv zeta in Hr. unfold Encode.pack in Hw.
  rewrite word_bytes_PackYUY2 in Hw by lia.
  cbn [map] in Hw. unfold byte_at.
  replace (Z.to_nat (4 * k + 1)) with (Z.to_nat (4 * k) + 1)%nat by lia.
  replace (Z.to_nat (4 * k + 2)) with (Z.to_nat (4 * k) + 2)%nat by lia.
  replace (Z.to_nat (4 * k + 3)) with (Z.to_nat (4 * k) + 3)%nat by lia.
  replace (Z.to_nat (4 * k)) with (Z.to_nat (4 * k) + 0)%nat at 1 by lia.
  rewrite Hw. unfold studio_range. lia.
Qed.

(** X: for an image of at least 1 by 1 pixels whose output size
    [ceil(W/2) * H * 4] is below [2^32], and an output buffer of that
    size: the buffer the encode dispatch leaves passes both versions of
    [ValidateYUY2Data] without a log line, whatever the texture holds
    and whatever the order of the threads, and [ValidateConversion]
    never reports a failed validation for it. *)
Theorem encoder_output_passes_validation (order : list uint2)
    (OutputBuffer : ByteAddressBuffer) (dev : Device) (m_frameCount : Z) :
  Permutation order threads ->
  Z.of_nat (length OutputBuffer) = BGRAToYUY2Converter.yuy2Size W H ->
  let final := apply_stores OutputBuffer (writes kernel order) in
  let dataSize := BGRAToYUY2Converter.yuy2Size W H in
  Demo0.ValidateYUY2Data final dataSize W H = (true, [])
  /\ Demo.ValidateYUY2Data final dataSize W H = (true, [])
  /\ ~ In ErrValidationFailed
          (Demo0.ValidateConversion dev (Some final) W H m_frameCount)
  /\ ~ In ErrValidationFailed
          (Demo.ValidateConversion dev (Some final) W H m_frameCount).
Proof.
  intros Hp Hlen. cbv zeta.
  set (final := apply_stores OutputBuffer (writes kernel order)).
  assert (Hstrict : fst (Demo0.ValidateYUY2Data
                           final (BGRAToYUY2Converter.yuy2Size W H) W H)
                    = true).
  { apply (proj2 (strict_validation_true _ _ _ _)).
    split; [reflexivity |]. intros k H0 Hk.
    apply encoded_frame_studio_range; assumption. }
  assert (Hlog : Demo0.ValidateYUY2Data
                   final (BGRAToYUY2Converter.yuy2Size W H) W H = (true, [])).
  { pose proof (proj1 (strict_validation_log
                         final (BGRAToYUY2Converter.yuy2Size W H) W H)
                      Hstrict) as Hl.
    destruct (Demo0.ValidateYUY2Data _ _ _ _) as [b l].
    cbn [fst snd] in *. subst. reflexivity. }
  pose proof (strict_implies_lenient _ _ _ _ Hstrict) as Hlenient.
  assert (Hfirst : firstn (Z.to_nat (BGRAToYUY2Converter.yuy2Size W H)) final
                   = final).
  { apply firstn_all2. unfold final. rewrite length_apply_stores. lia. }
  split; [exact Hlog |]. split; [exact Hlenient |].
  unfold Demo0.ValidateConversion, Demo.ValidateConversion,
    ReadOutputBuffer_data.
  fold (BGRAToYUY2Converter.yuy2Size W H). rewrite Hfirst.
  destruct (FAILED (CreateBuffer_result dev));
    [split; intros [E | []]; discriminate |].
  destruct (SUCCEEDED (Map_result dev));
    [| split; intros [E | []]; discriminate].
  rewrite Hlog, Hlenient. cbn [app]. split.
  - destruct (m_frameCount =? 0); not_in_log.
  - destruct (m_frameCount =? 30); not_in_log.
Qed.

End EncodedFrame.

Lemma encoder_output_passes_validation_witness :
  let W := 3 in
  let H := 2 in
  let InputTexture : Texture2D :=
    fun x y => F4.mk (inject_Z x / 2) (inject_Z y) 0 1 in
  let threads :=
    dispatch_threads (BGRAToYUY2Converter.dispatchX W)
                     (BGRAToYUY2Converter.dispatchY H) in
  let kernel :=
    Encode.CSMain (R := binary32) (BGRAToYUY2Converter.params W H)
                  InputTexture in
  let dev := {| CreateBuffer_result := S_OK;
                CreateShaderResourceView_result := S_OK;
                CreateUnorderedAccessView_result := S_OK;
                Map_result := S_OK |} in
  let final := apply_stores (repeat x00 16) (writes kernel (rev threads)) in
  let dataSize := BGRAToYUY2Converter.yuy2Size W H in
  Demo0.ValidateYUY2Data final dataSize W H = (true, [])
  /\ Demo.ValidateYUY2Data (R := binary32) final dataSize W H = (true, [])
  /\ ~ In ErrValidationFailed
          (Demo0.ValidateConversion dev (Some final) W H 0)
  /\ ~ In ErrValidationFailed
          (Demo.ValidateConversion (R := binary32) dev (Some final) W H 0).
Proof.
  apply (encoder_output_passes_validation (R := binary32) 3 2
           (fun x y => F4.mk (inject_Z x / 2) (inject_Z y) 0 1)).
  - lia.
  - lia.
  - vm_compute. reflexivity.
  - apply Permutation_sym. apply Permutation_rev.
  - vm_compute. reflexivity.
Defined.

Lemma lenient_validation_accepts_what_strict_accepts_witness :
  Demo.ValidateYUY2Data (R := binary32) [x10; x80; xeb; x80] 4 2 1
  = (true, []).
Proof.
  apply (lenient_validation_accepts_what_strict_accepts
           (R := binary32) [x10; x80; xeb; x80] 4 2 1).
  vm_compute. reflexivity.
Defined.

(** ** The studio range of the encoded frame *)

(** The index of an element of a row-major grid is inside the grid. *)
Lemma flat_index_bound (n m x y : Z) :
  0 <= x < n -> 0 <= y < m -> 0 <= y * n + x < m * n.
Proof.
  intros Hx Hy.
  assert (0 <= y * n) by (apply Z.mul_nonneg_nonneg; lia).
  assert ((y + 1) * n <= m * n) by (apply Z.mul_le_mono_nonneg_r; lia).
  lia.
Qed.

Section StudioRangeClaim.
Context {R : Rounding}.

(** Every word either variant stores is a macropixel of the studio
    range, whatever the constants, the texture and the threads. *)
Lemma stores_in_studio_range (P : ConversionParams)
    (InputTexture : Texture2D) (threads : list uint2) :
  Forall (fun s => studio_range (word_bytes (snd s)))
         (writes (Encode.CSMain P InputTexture) threads)
  /\ Forall (fun s => studio_range (word_bytes (snd s)))
            (writes (EncodeMatrix.CSMain P InputTexture) threads).
Proof.
  split; apply Forall_writes; intros id [off w] H; cbn [snd].
  - apply CSMain_word in H. destruct H as (pixel0 & pixel1 & _ & ->).
    apply pack_studio_range. apply encode_pair_range.
  - apply CSMain_matrix_word in H. destruct H as (pixel0 & pixel1 & ->).
    apply pack_studio_range. apply encode_pair_matrix_range.
Qed.

(** What the thread of a pixel pair of the image does in the
    structured-buffer variant, when no [uint] computation wraps. *)
Lemma CSMain_matrix_inside (W H : Z) (InputTexture : Texture2D) (i j : Z) :
  1 <= W -> 1 <= H -> ceil_div W 2 * H * 4 < 2 ^ 32 ->
  0 <= i < ceil_div W 2 -> 0 <= j < H ->
  EncodeMatrix.CSMain (BGRAToYUY2Converter.params W H) InputTexture (i, j)
  = Some (j * ceil_div W 2 + i,
          Encode.pack
            (EncodeMatrix.encode_pair
               (InputTexture (2 * i) j)
               (if 2 * i + 1 <? W then InputTexture (2 * i + 1) j
                else InputTexture (2 * i) j))).
Proof.
  intros HW HH Hfit Hi Hj.
  destruct (fits_bounds W H HW HH Hfit) as (HW31 & HH30 & Hprod).
  pose proof (ceil_div_2_bounds W HW) as Hc.
  pose proof (proj2 (pair_inside W i) ltac:(lia)) as Hin.
  unfold EncodeMatrix.CSMain, BGRAToYUY2Converter.params.
  cbn [ImageWidth ImageHeight fst snd].
  rewrite (u32_small (i * 2)) by lia.
  replace (i * 2) with (2 * i) by lia.
  replace (W <=? 2 * i) with false by (symmetry; apply Z.leb_gt; lia).
  replace (H <=? j) with false by (symmetry; apply Z.leb_gt; lia).
  cbn [orb].
  rewrite (u32_small (2 * i + 1)) by lia.
  rewrite (u32_small (W + 1)) by lia. rewrite <- ceil_div_2.
  pose proof (flat_index_bound (ceil_div W 2) H i j Hi Hj) as Hidx.
  assert (Hj' : 0 <= j * ceil_div W 2)
    by (apply Z.mul_nonneg_nonneg; lia).
  rewrite (u32_small (j * ceil_div W 2)) by lia.
  replace (2 * i / 2) with i
    by (rewrite Z.mul_comm, Z.div_mul by lia; reflexivity).
  rewrite (u32_small (j * ceil_div W 2 + i)) by lia.
  reflexivity.
Qed.

(** The pair of the pixel [x] of a row. *)
Lemma pixel_pair_inside (W x : Z) :
  0 <= x < W -> 0 <= x / 2 < ceil_div W 2.
Proof.
  intros Hx. split; [apply Z.div_pos; lia |].
  apply pair_inside. pose proof (Z.mul_div_le x 2 ltac:(lia)). lia.
Qed.

(** C1.  Every word the YUY2 encode stores is a macropixel
    [Y0, U, Y1, V] with both luma bytes in [16, 235] and both chroma
    bytes in [16, 240], in the raw-buffer shader and in the
    structured-buffer shader, whatever the input texture, the constants
    and the threads that run.  And the bytes are produced: for every
    pixel position [(x, y)] of an image whose output fits the [UINT]
    range, the thread [(x / 2, y)] is in the dispatched grid, it stores
    such a macropixel at the place of the pixel's pair in either
    shader, and after the dispatch, in whatever order the threads ran,
    the four bytes of the output buffer at that place are in these
    ranges. *)
Theorem yuy2_bytes_in_studio_range :
  (forall (P : ConversionParams) (InputTexture : Texture2D)
          (threads : list uint2),
     Forall (fun s => studio_range (word_bytes (snd s)))
            (writes (Encode.CSMain P InputTexture) threads)
     /\ Forall (fun s => studio_range (word_bytes (snd s)))
               (writes (EncodeMatrix.CSMain P InputTexture) threads))
  /\ (forall (W H : Z) (InputTexture : Texture2D) (x y : Z),
        1 <= W -> 1 <= H -> ceil_div W 2 * H * 4 < 2 ^ 32 ->
        0 <= x < W -> 0 <= y < H ->
        let threads :=
          dispatch_threads (BGRAToYUY2Converter.dispatchX W)
                           (BGRAToYUY2Converter.dispatchY H) in
        let P := BGRAToYUY2Converter.params W H in
        let n := y * ceil_div W 2 + x / 2 in
        In (x / 2, y) threads
        /\ (exists word : Z,
              Encode.CSMain P InputTexture (x / 2, y) = Some (4 * n, word)
              /\ studio_range (word_bytes word))
        /\ (exists word : Z,
              EncodeMatrix.CSMain P InputTexture (x / 2, y) = Some (n, word)
              /\ studio_range (word_bytes word))
        /\ forall (order : list uint2) (OutputBuffer : ByteAddressBuffer),
             Permutation order threads ->
             Z.of_nat (length OutputBuffer)
             = BGRAToYUY2Converter.yuy2Size W H ->
             let final :=
               apply_stores OutputBuffer
                            (writes (Encode.CSMain P InputTexture) order) in
             studio_range [byte_at final (4 * n); byte_at final (4 * n + 1);
                           byte_at final (4 * n + 2);
                           byte_at final (4 * n + 3)]).
Proof.
  split; [exact stores_in_studio_range |].
  intros W H InputTexture x y HW HH Hfit Hx Hy. cbv zeta.
  pose proof (pixel_pair_inside W x Hx) as Hi.
  split; [apply (grid_covers W H HW HH Hfit); assumption |].
  split; [| split].
  - eexists. split.
    + apply (kernel_inside W H InputTexture HW HH Hfit); assumption.
    + apply pack_studio_range. apply encode_pair_range.
  - eexists. split.
    + apply CSMain_matrix_inside; assumption.
    + apply pack_studio_range. apply encode_pair_matrix_range.
  - intros order OutputBuffer Hp Hlen.
    pose proof (flat_index_bound (ceil_div W 2) H (x / 2) y Hi Hy) as Hn.
    apply (encoded_frame_studio_range W H InputTexture HW HH Hfit);
      try assumption; [lia |].
    rewrite yuy2Size_no_wrap by assumption. lia.
Qed.

End StudioRangeClaim.

Lemma yuy2_bytes_in_studio_range_witness :
  let InputTexture : Texture2D :=
    fun x y => F4.mk (inject_Z x / 2) (inject_Z y) (1 # 3) 1 in
  let P := BGRAToYUY2Converter.params 3 2 in
  exists word : Z,
    Encode.CSMain (R := binary32) P InputTexture (1, 1) = Some (12, word)
    /\ studio_range (word_bytes word).
Proof.
  exact (proj1 (proj2 (proj2 (yuy2_bytes_in_studio_range (R := binary32))
                         3 2
                         (fun x y => F4.mk (inject_Z x / 2) (inject_Z y)
                                           (1 # 3) 1)
                         2 1 ltac:(lia) ltac:(lia)
                         ltac:(vm_compute; reflexivity)
                         ltac:(lia) ltac:(lia)))).
Defined.

(** * The two [Convert] functions *)

(** X: [BGRAToYUY2Converter::Convert] returns [S_OK] exactly when the
    converter is initialized, both pointers are non-null, the format is
    supported and the three device calls succeed.  It then dispatches
    once and releases the two views it created.  Otherwise it
    dispatches nothing and releases no view: when it fails after the
    shader resource view was created, that view is never released. *)
Theorem Convert_outcome (m_initialized : bool) (dev : Device)
    (inputTexture : option DXGI_FORMAT) (outputBuffer : bool)
    (width height elapsed : Z) :
  let result :=
    BGRAToYUY2Converter.Convert m_initialized dev inputTexture outputBuffer
                                width height elapsed in
  let ok :=
    m_initialized && outputBuffer
    && match inputTexture with
       | Some fmt => BGRAToYUY2Converter.supported_format fmt
       | None => false
       end
    && negb (FAILED (CreateShaderResourceView_result dev))
    && negb (FAILED (CreateUnorderedAccessView_result dev))
    && negb (FAILED (Map_result dev)) in
  (fst result = S_OK <-> ok = true)
  /\ count_calls is_dispatch (snd result) = (if ok then 1 else 0)%nat
  /\ count_calls is_release_view (snd result) = (if ok then 2 else 0)%nat
  /\ (ok = true -> count_calls is_create_view (snd result) = 2%nat)
  /\ (fst result = E_FAIL ->
      FAILED (CreateShaderResourceView_result dev) = false ->
      (1 <= count_calls is_create_view (snd result))%nat).
Proof.
  cbv zeta. unfold BGRAToYUY2Converter.Convert.
  destruct m_initialized; cbn [negb orb andb fst snd];
    [| repeat split; try discriminate; reflexivity].
  destruct inputTexture as [fmt |]; cbn [negb orb andb fst snd].
  2:{ rewrite andb_false_r. cbn [andb].
      repeat split; try discriminate; reflexivity. }
  destruct outputBuffer; cbn [negb orb andb fst snd];
    [| repeat split; try discriminate; reflexivity].
  unfold try_catch, BGRAToYUY2Converter.Convert_body, ThrowIfFailed.
  destruct (BGRAToYUY2Converter.supported_format fmt); cbn [negb andb].
  2:{ cbv [bind call when ret return_ throw negb fst snd app count_calls
           filter is_dispatch is_release_view is_create_view length].
      repeat split; try discriminate; reflexivity. }
  destruct (FAILED (CreateShaderResourceView_result dev)) eqn:Es;
    cbn [negb andb].
  { cbv [bind call when ret return_ throw negb fst snd app count_calls
         filter is_dispatch is_release_view is_create_view length].
    unfold FAILED in Es. apply Z.ltb_lt in Es.
    repeat split; try discriminate; try reflexivity.
    unfold S_OK. lia. }
  destruct (FAILED (CreateUnorderedAccessView_result dev)) eqn:Eu;
    cbn [negb andb].
  { cbv [bind call when ret return_ throw negb fst snd app count_calls
         filter is_dispatch is_release_view is_create_view length].
    repeat split; try discriminate; try reflexivity. lia. }
  destruct (FAILED (Map_result dev)) eqn:Em; cbn [negb andb].
  { cbv [bind call when ret return_ throw negb fst snd app count_calls
         filter is_dispatch is_release_view is_create_view length].
    repeat split; try discriminate; try reflexivity. lia. }
  destruct (10 <=? elapsed);
    cbv [bind call when ret return_ throw negb fst snd app count_calls
         filter is_dispatch is_release_view is_create_view length];
    repeat split; try discriminate; try reflexivity.
Qed.

(** X: [NV12ToRGBAConverter::Convert] returns [S_OK] exactly when the
    converter is initialized, both pointers are non-null and the three
    device calls succeed; there is no check of the image size or of the
    buffer.  It then writes the image size as both strides, dispatches
    once and releases the two views.  Otherwise it returns
    [E_INVALIDARG] or [E_FAIL], dispatches nothing and releases no
    view: when it fails after the input view was created, that view is
    never released. *)
Theorem nv12_Convert_outcome (m_initialized : bool) (dev : NV12Host.Results)
    (nv12Buffer outputTexture : bool) (width height elapsed : Z) :
  let result :=
    NV12Host.Convert m_initialized dev nv12Buffer outputTexture
                     width height elapsed in
  let ok :=
    m_initialized && nv12Buffer && outputTexture
    && negb (FAILED (NV12Host.CreateInputUAV_result dev))
    && negb (FAILED (NV12Host.CreateOutputUAV_result dev))
    && negb (FAILED (NV12Host.MapConstantBuffer_result dev)) in
  (fst result = S_OK <-> ok = true)
  /\ (fst result = S_OK \/ fst result = E_INVALIDARG \/ fst result = E_FAIL)
  /\ count_calls nv12_is_dispatch (snd result) = (if ok then 1 else 0)%nat
  /\ count_calls nv12_is_release_view (snd result)
     = (if ok then 2 else 0)%nat
  /\ (ok = true ->
      In (NV12Host.WriteConstantBuffer
            {| NV12ImageWidth := width; NV12ImageHeight := height;
               YPlaneStride := width; UVPlaneStride := width |})
         (snd result)
      /\ In (NV12Host.Dispatch (NV12Host.dispatchX width)
                               (NV12Host.dispatchY height) 1)
            (snd result))
  /\ (fst result = E_FAIL ->
      FAILED (NV12Host.CreateInputUAV_result dev) = false ->
      (1 <= count_calls nv12_is_create_view (snd result))%nat).
Proof.
  cbv zeta. unfold NV12Host.Convert.
  destruct m_initialized, nv12Buffer, outputTexture;
    cbn [negb orb andb fst snd];
    try (repeat split; try discriminate; try reflexivity;
         right; left; reflexivity).
  destruct (FAILED (NV12Host.CreateInputUAV_result dev)) eqn:Ei;
    cbn [negb andb fst snd].
  { repeat split; try discriminate; try reflexivity.
    right; right; reflexivity. }
  destruct (FAILED (NV12Host.CreateOutputUAV_result dev)) eqn:Eo;
    cbn [negb andb fst snd].
  { repeat split; try discriminate; try reflexivity.
    - right; right; reflexivity.
    - cbv. lia. }
  destruct (FAILED (NV12Host.MapConstantBuffer_result dev)) eqn:Em;
    cbn [negb andb fst snd].
  { repeat split; try discriminate; try reflexivity.
    - right; right; reflexivity.
    - cbv. lia. }
  destruct (10 <=? elapsed); cbn [app];
    (split; [split; reflexivity |]);
    (split; [left; reflexivity |]);
    (split; [reflexivity |]); (split; [reflexivity |]);
    (split; [intros _; cbn [In]; split; tauto | discriminate]).
Qed.

(** ** The views cover the buffers *)

Lemma u32_times_4 (n : Z) : u32 (n * 4) / 4 * 4 = u32 (n * 4).
Proof.
  unfold u32. change (2 ^ 32) with (2 ^ 30 * 4).
  rewrite Z.mul_mod_distr_r by lia.
  rewrite Z.div_mul by lia. reflexivity.
Qed.

(** X: the raw view [Convert] creates on the YUY2 output buffer has
    exactly the size of the buffer [CreateOutputBuffer] creates, for
    every width and height, wrap-around included. *)
Theorem output_view_covers_buffer (m_initialized : bool) (dev dev' : Device)
    (inputTexture : option DXGI_FORMAT) (outputBuffer : bool)
    (width height elapsed : Z) (desc : D3D11_BUFFER_DESC) (n : Z) :
  In (CreateBuffer desc)
     (snd (BGRAToYUY2Converter.CreateOutputBuffer dev' width height)) ->
  In (CreateUnorderedAccessView n)
     (snd (BGRAToYUY2Converter.Convert m_initialized dev inputTexture
                                       outputBuffer width height elapsed)) ->
  4 * n = ByteWidth desc.
Proof.
  intros Hb Hv.
  assert (Hd : ByteWidth desc = BGRAToYUY2Converter.yuy2Size width height).
  { unfold BGRAToYUY2Converter.CreateOutputBuffer in Hb. cbn [snd] in Hb.
    destruct Hb as [Hb | Hb]; [injection Hb as <-; reflexivity |].
    destruct (FAILED _); [destruct Hb as [Hb | []]; discriminate |].
    destruct Hb. }
  assert (Hn : n = BGRAToYUY2Converter.yuy2Size width height / 4).
  { revert Hv. unfold BGRAToYUY2Converter.Convert.
    destruct (negb m_initialized || _ || _); [intros [] |].
    unfold try_catch, BGRAToYUY2Converter.Convert_body, ThrowIfFailed.
    fold (BGRAToYUY2Converter.yuy2Size width height).
    destruct inputTexture as [fmt |].
    2:{ cbv [bind call when ret return_ throw negb fst snd app].
        intros [Hv | []]. discriminate. }
    destruct (BGRAToYUY2Converter.supported_format fmt).
    2:{ cbv [bind call when ret return_ throw negb fst snd app].
        intros [Hv | []]. discriminate. }
    destruct (FAILED (CreateShaderResourceView_result dev)).
    { cbv [bind call when ret return_ throw negb fst snd app].
      intros [Hv | [Hv | []]]; discriminate. }
    destruct (FAILED (CreateUnorderedAccessView_result dev)).
    { cbv [bind call when ret return_ throw negb fst snd app].
      intros Hv. cbn [In] in Hv.
      repeat (destruct Hv as [Hv | Hv];
              [try discriminate; injection Hv as <-; reflexivity |]).
      destruct Hv. }
    destruct (FAILED (Map_result dev)).
    { cbv [bind call when ret return_ throw negb fst snd app].
      intros Hv. cbn [In] in Hv.
      repeat (destruct Hv as [Hv | Hv];
              [try discriminate; injection Hv as <-; reflexivity |]).
      destruct Hv. }
    destruct (10 <=? elapsed);
      cbv [bind call when ret return_ throw negb fst snd app];
      intros Hv; cbn [In] in Hv;
      repeat (destruct Hv as [Hv | Hv];
              [try discriminate; injection Hv as <-; reflexivity |]);
      destruct Hv. }
  rewrite Hd, Hn. unfold BGRAToYUY2Converter.yuy2Size.
  pose proof (u32_times_4 (u32 (u32 (width + 1) / 2 * height))). lia.
Qed.

Lemma output_view_covers_buffer_witness :
  let dev := {| CreateBuffer_result := S_OK;
                CreateShaderResourceView_result := S_OK;
                CreateUnorderedAccessView_result := S_OK;
                Map_result := S_OK |} in
  4 * 1037880
  = ByteWidth {| ByteWidth := BGRAToYUY2Converter.yuy2Size 1921 1080;
                 Usage := D3D11_USAGE_DEFAULT;
                 BindFlags := D3D11_BIND_UNORDERED_ACCESS;
                 CPUAccessFlags := CPU_ACCESS_NONE;
                 MiscFlags := D3D11_RESOURCE_MISC_BUFFER_ALLOW_RAW_VIEWS;
                 StructureByteStride := 0 |}.
Proof.
  apply (output_view_covers_buffer true
           {| CreateBuffer_result := S_OK;
              CreateShaderResourceView_result := S_OK;
              CreateUnorderedAccessView_result := S_OK;
              Map_result := S_OK |}
           {| CreateBuffer_result := S_OK;
              CreateShaderResourceView_result := S_OK;
              CreateUnorderedAccessView_result := S_OK;
              Map_result := S_OK |}
           (Some DXGI_FORMAT_B8G8R8A8_UNORM) true 1921 1080 0).
  - vm_compute. left. reflexivity.
  - vm_compute. right. left. reflexivity.
Defined.

Lemma nv12_NumElements_no_wrap (W H : Z) :
  1 <= W -> 1 <= H -> W * H * 3 < 2 ^ 32 ->
  NV12Host.NumElements W H = (W * H + W * H / 2) / 4.
Proof.
  intros HW HH Hfit. unfold NV12Host.NumElements.
  assert (0 <= W * H) by nia.
  rewrite (u32_small (W * H)) by lia.
  rewrite (u32_small (W * H * 3)) by lia.
  rewrite three_halves.
  assert (0 <= W * H / 2 <= W * H).
  { split; [apply Z.div_pos; lia |]. apply Z.div_le_upper_bound; lia. }
  rewrite u32_small by lia. reflexivity.
Qed.

(** X: for sizes of at least 1 by 1 with [W * H * 3 < 2^32], for which
    neither the buffer size nor the element count wraps, the raw view
    [Convert] creates on the NV12 buffer covers the buffer
    [CreateNV12InputBuffer] creates up to its last multiple of 4
    bytes.  For even dimensions it covers the whole buffer unless
    [W / 2] and [H / 2] are both odd; then it ends 2 bytes early, and
    the aligned load at the last chroma pair returns 0 whatever the
    buffer holds. *)
Theorem nv12_view_covers_buffer
    (unaligned_load : ByteAddressBuffer -> Z -> Z) (W H : Z)
    (buf : ByteAddressBuffer) :
  1 <= W -> 1 <= H -> W * H * 3 < 2 ^ 32 ->
  Z.of_nat (length buf) = NV12ToRGBAConverter.totalSize W H ->
  let size := NV12ToRGBAConverter.totalSize W H in
  let view := raw_view buf (NV12Host.NumElements W H) in
  Z.of_nat (length view) = size - size mod 4
  /\ (Z.even W = true -> Z.even H = true ->
      Z.of_nat (length view)
      = if Z.odd (W / 2) && Z.odd (H / 2) then size - 2 else size)
  /\ (Z.even W = true -> Z.even H = true ->
      Z.odd (W / 2) && Z.odd (H / 2) = true ->
      let uvOffset := W * H + (H / 2 - 1) * W + (W - 2) in
      uvOffset = size - 2
      /\ Decode.Load unaligned_load view uvOffset = 0).
Proof.
  intros HW HH Hfit Hlen. cbv zeta.
  assert (Hs : NV12ToRGBAConverter.totalSize W H = W * H + W * H / 2).
  { rewrite totalSize_no_wrap; try assumption.
    - apply three_halves.
    - rewrite three_halves.
      assert (0 <= W * H) by nia.
      assert (W * H / 2 <= W * H) by (apply Z.div_le_upper_bound; lia).
      lia. }
  pose proof (nv12_NumElements_no_wrap W H HW HH Hfit) as Hn.
  assert (Hpos : 0 <= W * H + W * H / 2).
  { assert (0 <= W * H) by nia.
    assert (0 <= W * H / 2) by (apply Z.div_pos; lia). lia. }
  pose proof (Z.div_mod (W * H + W * H / 2) 4) as D.
  pose proof (Z.mod_pos_bound (W * H + W * H / 2) 4) as M.
  assert (Hview : Z.of_nat (length (raw_view buf (NV12Host.NumElements W H)))
                  = NV12ToRGBAConverter.totalSize W H
                    - NV12ToRGBAConverter.totalSize W H mod 4).
  { unfold raw_view. rewrite length_firstn, Hn, Hs.
    assert (0 <= (W * H + W * H / 2) / 4) by (apply Z.div_pos; lia). lia. }
  assert (Heven : Z.even W = true -> Z.even H = true ->
            W = 2 * (W / 2) /\ H = 2 * (H / 2)
            /\ NV12ToRGBAConverter.totalSize W H = 6 * (W / 2 * (H / 2))).
  { intros Ew Eh.
    destruct (proj1 (Z.even_spec W) Ew) as [w Hw].
    destruct (proj1 (Z.even_spec H) Eh) as [h Hh].
    assert (Ew2 : W / 2 = w) by (subst W; rewrite Z.mul_comm; apply Z.div_mul; lia).
    assert (Eh2 : H / 2 = h) by (subst H; rewrite Z.mul_comm; apply Z.div_mul; lia).
    rewrite Ew2, Eh2. split; [exact Hw |]. split; [exact Hh |].
    rewrite Hs. subst W H.
    replace (2 * w * (2 * h)) with (2 * w * h * 2) by lia.
    rewrite Z.div_mul by lia. lia. }
  assert (Hodd : forall a b, Z.odd a && Z.odd b = Z.odd (a * b)).
  { intros a b. rewrite Z.odd_mul. reflexivity. }
  assert (Hmod : Z.even W = true -> Z.even H = true ->
            NV12ToRGBAConverter.totalSize W H mod 4
            = if Z.odd (W / 2) && Z.odd (H / 2) then 2 else 0).
  { intros Ew Eh. destruct (Heven Ew Eh) as (_ & _ & Ht).
    rewrite Ht, Hodd.
    destruct (Z.odd (W / 2 * (H / 2))) eqn:Eo.
    - destruct (proj1 (Z.odd_spec _) Eo) as [m Hm]. rewrite Hm.
      replace (6 * (2 * m + 1)) with (2 + (3 * m + 1) * 4) by lia.
      rewrite Z.mod_add by lia. reflexivity.
    - rewrite <- Z.negb_even in Eo. apply negb_false_iff in Eo.
      destruct (proj1 (Z.even_spec _) Eo) as [m Hm]. rewrite Hm.
      replace (6 * (2 * m)) with (3 * m * 4) by lia.
      apply Z.mod_mul. lia. }
  split; [exact Hview |]. split.
  - intros Ew Eh. rewrite Hview, (Hmod Ew Eh).
    destruct (Z.odd (W / 2) && Z.odd (H / 2)); lia.
  - intros Ew Eh Eo. destruct (Heven Ew Eh) as (Hw & Hh & Ht).
    assert (Hoff : W * H + (H / 2 - 1) * W + (W - 2)
                   = NV12ToRGBAConverter.totalSize W H - 2).
    { rewrite Ht. nia. }
    split; [exact Hoff |].
    rewrite Hoff. unfold Decode.Load.
    pose proof (Hmod Ew Eh) as Hm. rewrite Eo in Hm.
    assert (Hal : (NV12ToRGBAConverter.totalSize W H - 2) mod 4 = 0).
    { pose proof (Z.div_mod (NV12ToRGBAConverter.totalSize W H) 4) as D'.
      rewrite Hm in D'.
      replace (NV12ToRGBAConverter.totalSize W H - 2)
        with (NV12ToRGBAConverter.totalSize W H / 4 * 4) by lia.
      apply Z.mod_mul. lia. }
    rewrite Hal, Z.eqb_refl, Hview, Hm.
    replace (_ <=? _) with false by (symmetry; apply Z.leb_gt; lia).
    reflexivity.
Qed.

Lemma nv12_view_covers_buffer_witness :
  let W := 6 in
  let H := 2 in
  let buf : ByteAddressBuffer := repeat x80 18 in
  let size := NV12ToRGBAConverter.totalSize W H in
  let view := raw_view buf (NV12Host.NumElements W H) in
  Z.of_nat (length view) = size - size mod 4
  /\ (Z.even W = true -> Z.even H = true ->
      Z.of_nat (length view)
      = if Z.odd (W / 2) && Z.odd (H / 2) then size - 2 else size)
  /\ (Z.even W = true -> Z.even H = true ->
      Z.odd (W / 2) && Z.odd (H / 2) = true ->
      let uvOffset := W * H + (H / 2 - 1) * W + (W - 2) in
      uvOffset = size - 2
      /\ Decode.Load (fun _ _ => 0) view uvOffset = 0).
Proof.
  apply (nv12_view_covers_buffer (fun _ _ => 0) 6 2
           (repeat x80 18)).
  - lia.
  - lia.
  - vm_compute. reflexivity.
  - vm_compute. reflexivity.
Defined.

(** * The NV12 test pattern and its upload *)

Lemma length_set_byte (v : list byte) (i b : Z) :
  length (set_byte v i b) = length v.
Proof.
  unfold set_byte.
  destruct ((0 <=? i) && (i <? Z.of_nat (length v))) eqn:E; [| reflexivity].
  apply andb_true_iff in E. destruct E as [E0 E1].
  apply Z.leb_le in E0. apply Z.ltb_lt in E1.
  rewrite length_app, length_firstn. cbn [length]. rewrite length_skipn. lia.
Qed.

Lemma byte_at_set_byte (v : list byte) (i b j : Z) :
  0 <= i < Z.of_nat (length v) -> 0 <= j ->
  byte_at (set_byte v i b) j = if j =? i then b mod 256 else byte_at v j.
Proof.
  intros Hi Hj. unfold set_byte, byte_at.
  replace ((0 <=? i) && (i <? Z.of_nat (length v))) with true
    by (symmetry; apply andb_true_iff; split;
        [apply Z.leb_le | apply Z.ltb_lt]; lia).
  assert (Hl : length (firstn (Z.to_nat i) v) = Z.to_nat i)
    by (rewrite length_firstn; lia).
  destruct (Z.eqb_spec j i) as [-> | Hne].
  - rewrite app_nth2 by lia. rewrite Hl, Nat.sub_diag. cbn [nth].
    transitivity (byte_val (byte_of_Z (b mod 256))).
    + unfold byte_of_Z. rewrite Z.mod_mod by lia. reflexivity.
    + apply byte_val_of_Z. apply Z.mod_pos_bound. lia.
  - f_equal. destruct (Z.lt_ge_cases j i) as [Hlt | Hge].
    + rewrite app_nth1 by lia. rewrite nth_firstn.
      replace (Z.to_nat j <? Z.to_nat i)%nat with true
        by (symmetry; apply Nat.ltb_lt; lia).
      reflexivity.
    + rewrite app_nth2 by lia. rewrite Hl.
      replace (Z.to_nat j - Z.to_nat i)%nat
        with (S (Z.to_nat j - Z.to_nat i - 1)) by lia.
      cbn [nth]. rewrite nth_skipn. f_equal. lia.
Qed.

(** A vector after a list of assignments [(index, value)]: an index
    that is assigned only values equal as bytes holds that byte, and an
    index that is not assigned keeps its byte. *)
Lemma byte_stores_spec (stores : list (Z * Z)) (data : list byte) :
  (forall s, In s stores -> 0 <= fst s < Z.of_nat (length data)) ->
  let data' :=
    fold_left (fun d s => set_byte d (fst s) (snd s)) stores data in
  length data' = length data
  /\ (forall j, 0 <= j -> ~ In j (map fst stores) ->
        byte_at data' j = byte_at data j)
  /\ (forall i v, In (i, v) stores ->
        (forall v', In (i, v') stores -> v' mod 256 = v mod 256) ->
        byte_at data' i = v mod 256).
Proof.
  revert data. induction stores as [| s rest IH]; intros data Hin; cbv zeta.
  - cbn [fold_left]. split; [reflexivity |]. split; [reflexivity |].
    intros i v [].
  - cbn [fold_left].
    assert (Hs : 0 <= fst s < Z.of_nat (length data))
      by (apply Hin; left; reflexivity).
    destruct (IH (set_byte data (fst s) (snd s))) as (Hlen & Hkeep & Hset).
    { intros s' Hs'. rewrite length_set_byte. apply Hin. right. exact Hs'. }
    cbv zeta in Hlen, Hkeep, Hset. rewrite length_set_byte in Hlen.
    split; [exact Hlen |]. split.
    + intros j Hj Hn. rewrite Hkeep.
      * rewrite byte_at_set_byte by assumption.
        destruct (Z.eqb_spec j (fst s)) as [-> | _]; [| reflexivity].
        exfalso. apply Hn. left. reflexivity.
      * exact Hj.
      * intros Hr. apply Hn. right. exact Hr.
    + intros i v Hiv Hsame.
      destruct (in_dec Z.eq_dec i (map fst rest)) as [Hr | Hr].
      * apply in_map_iff in Hr. destruct Hr as [[i' v'] [Hi' Hr]].
        cbn [fst] in Hi'. subst i'.
        rewrite (Hset i v' Hr).
        -- apply Hsame. right. exact Hr.
        -- intros v'' Hv''. rewrite (Hsame v') by (right; exact Hr).
           apply Hsame. right. exact Hv''.
      * assert (Hi0 : 0 <= i).
        { destruct Hiv as [Hs' | Hiv]; [subst s; cbn [fst] in Hs; lia |].
          specialize (Hin (i, v) (or_intror Hiv)). cbn [fst] in Hin. lia. }
        rewrite Hkeep by assumption.
        destruct Hiv as [Hs' | Hiv].
        -- subst s. cbn [fst snd] in *.
           rewrite byte_at_set_byte by assumption.
           rewrite Z.eqb_refl. reflexivity.
        -- exfalso. apply Hr. apply in_map_iff. exists (i, v).
           split; [reflexivity | exact Hiv].
Qed.

(** Nested loops of assignments as one list of assignments. *)
Lemma fold_left_flat_map {A B C : Type} (f : A -> C -> A) (g : B -> list C)
    (l : list B) (a : A) :
  fold_left (fun a b => fold_left f (g b) a) l a
  = fold_left f (flat_map g l) a.
Proof.
  revert a. induction l as [| b l IH]; intros a; [reflexivity |].
  cbn [fold_left flat_map]. rewrite fold_left_app. apply IH.
Qed.

Lemma fold_left_ext {A B : Type} (f g : A -> B -> A) (l : list B) (a : A) :
  (forall a b, f a b = g a b) -> fold_left f l a = fold_left g l a.
Proof.
  intros Hfg. revert a. induction l as [| b l IH]; intros a; [reflexivity |].
  cbn [fold_left]. rewrite Hfg. apply IH.
Qed.

Lemma fold_left_ext2 {A B : Type} (f g : A -> B -> A) (l : list B)
    (a a' : A) :
  (forall a b, f a b = g a b) -> a = a' ->
  fold_left f l a = fold_left g l a'.
Proof. intros Hfg <-. apply fold_left_ext. exact Hfg. Qed.

Lemma fold_left_map_stores {A B C : Type} (f : A -> C -> A) (g : B -> C)
    (l : list B) (a : A) :
  fold_left (fun a b => f a (g b)) l a = fold_left f (map g l) a.
Proof.
  revert a. induction l as [| b l IH]; intros a; [reflexivity |].
  cbn [fold_left map]. apply IH.
Qed.

(** [CreateTestNV12Data] makes the assignments of the luma loops, then
    those of the chroma loops, on a vector of zeros. *)
Lemma CreateTestNV12Data_stores (width height : Z) :
  NV12Test.CreateTestNV12Data width height
  = fold_left (fun d s => set_byte d (fst s) (snd s))
      (NV12Test.luma_stores width height
       ++ NV12Test.chroma_stores width height)
      (repeat x00 (Z.to_nat (NV12ToRGBAConverter.totalSize width height))).
Proof.
  unfold NV12Test.CreateTestNV12Data, NV12Test.luma_stores,
    NV12Test.chroma_stores, NV12ToRGBAConverter.totalSize,
    NV12ToRGBAConverter.yPlaneSize, NV12ToRGBAConverter.uvPlaneSize.
  rewrite fold_left_app. cbv zeta.
  rewrite <- !fold_left_flat_map.
  apply fold_left_ext2.
  - intros d y. rewrite <- fold_left_flat_map.
    apply fold_left_ext. intros d' x. reflexivity.
  - apply fold_left_ext. intros d y.
    exact (fold_left_map_stores
             (fun d s => set_byte d (fst s) (snd s))
             (fun x => (u32 (u32 (y * width) + x),
                        u32 (16 + u32 (x * 219) / width)))
             (zrange width) d).
Qed.

Section TestPattern.
Variables W H : Z.
Hypothesis HW : 1 <= W < 2 ^ 24.
Hypothesis HH : 1 <= H < 2 ^ 24.
Hypothesis Hfit : W * H * 3 / 2 < 2 ^ 32.

Lemma pattern_sizes :
  0 <= W * H /\ 0 <= W * H / 2 /\ W * H + W * H / 2 < 2 ^ 32
  /\ NV12ToRGBAConverter.totalSize W H = W * H + W * H / 2
  /\ H / 2 * W <= W * H / 2
  /\ 0 <= W / 2 /\ 2 * (W / 2) <= W /\ 0 <= H / 2 /\ 2 * (H / 2) <= H.
Proof.
  assert (H0 : 0 <= W * H) by nia.
  assert (H1 : 0 <= W * H / 2) by (apply Z.div_pos; lia).
  pose proof (three_halves (W * H)) as H3.
  assert (Ht : NV12ToRGBAConverter.totalSize W H = W * H + W * H / 2).
  { rewrite totalSize_no_wrap by lia. exact H3. }
  pose proof (Z.mul_div_le W 2 ltac:(lia)).
  pose proof (Z.mul_div_le H 2 ltac:(lia)).
  assert (0 <= W / 2) by (apply Z.div_pos; lia).
  assert (0 <= H / 2) by (apply Z.div_pos; lia).
  assert (H / 2 * W <= W * H / 2).
  { apply Z.div_le_lower_bound; [lia |].
    assert (2 * (H / 2) * W <= H * W)
      by (apply Z.mul_le_mono_nonneg_r; lia).
    lia. }
  lia.
Qed.

(** The luma assignments: index and value. *)
Lemma In_luma_stores (s : Z * Z) :
  In s (NV12Test.luma_stores W H)
  <-> exists x y, 0 <= x < W /\ 0 <= y < H
                  /\ s = (y * W + x, 16 + x * 219 / W).
Proof.
  destruct pattern_sizes as (H0 & H1 & H2 & _).
  unfold NV12Test.luma_stores. rewrite in_flat_map.
  assert (Hval : forall x y, 0 <= x < W -> 0 <= y < H ->
            (u32 (u32 (y * W) + x), u32 (16 + u32 (x * 219) / W))
            = (y * W + x, 16 + x * 219 / W)).
  { intros x y Hx Hy.
    pose proof (flat_index_bound W H x y Hx Hy).
    assert (0 <= y * W) by (apply Z.mul_nonneg_nonneg; lia).
    assert (0 <= x * 219 / W < 219).
    { split; [apply Z.div_pos; lia |].
      apply Z.div_lt_upper_bound; lia. }
    rewrite (u32_small (y * W)), (u32_small (y * W + x)),
      (u32_small (x * 219)), u32_small by lia.
    reflexivity. }
  split.
  - intros [y [Hy Hin]]. apply In_zrange in Hy.
    apply in_map_iff in Hin. destruct Hin as [x [Hs Hx]].
    apply In_zrange in Hx. exists x, y.
    rewrite Hval in Hs by assumption. split; [lia |]. split; [lia |].
    symmetry. exact Hs.
  - intros [x [y [Hx [Hy ->]]]]. exists y. split; [apply In_zrange; lia |].
    apply in_map_iff. exists x. split; [| apply In_zrange; lia].
    apply Hval; assumption.
Qed.

(** The chroma assignments: index and value. *)
Lemma In_chroma_stores (s : Z * Z) :
  In s (NV12Test.chroma_stores W H)
  <-> exists x y, 0 <= x < W / 2 /\ 0 <= y < H / 2
                  /\ (s = (W * H + y * W + 2 * x, 16 + y * 224 / (H / 2))
                      \/ s = (W * H + y * W + 2 * x + 1,
                              16 + x * 224 / (W / 2))).
Proof.
  destruct pattern_sizes as (H0 & H1 & H2 & _ & Hh & Hw0 & Hw2 & Hh0 & Hh2).
  unfold NV12Test.chroma_stores. rewrite in_flat_map.
  assert (Hval : forall x y, 0 <= x < W / 2 -> 0 <= y < H / 2 ->
            u32 (u32 (u32 (W * H) + u32 (y * W)) + u32 (x * 2))
            = W * H + y * W + 2 * x
            /\ u32 (W * H + y * W + 2 * x + 1) = W * H + y * W + 2 * x + 1
            /\ u32 (16 + u32 (y * 224) / (H / 2)) = 16 + y * 224 / (H / 2)
            /\ u32 (16 + u32 (x * 224) / (W / 2)) = 16 + x * 224 / (W / 2)).
  { intros x y Hx Hy.
    assert (0 <= y * W) by (apply Z.mul_nonneg_nonneg; lia).
    pose proof (flat_index_bound W (H / 2) (2 * x + 1) y ltac:(lia) Hy).
    assert (0 <= y * 224 / (H / 2) < 224).
    { split; [apply Z.div_pos; lia |].
      apply Z.div_lt_upper_bound; lia. }
    assert (0 <= x * 224 / (W / 2) < 224).
    { split; [apply Z.div_pos; lia |].
      apply Z.div_lt_upper_bound; lia. }
    rewrite (u32_small (W * H)), (u32_small (y * W)),
      (u32_small (x * 2)), (u32_small (W * H + y * W)),
      (u32_small (y * 224)), (u32_small (x * 224)) by lia.
    rewrite !u32_small by lia. repeat split; lia. }
  split.
  - intros [y [Hy Hin]]. apply In_zrange in Hy.
    apply in_flat_map in Hin. destruct Hin as [x [Hx Hin]].
    apply In_zrange in Hx. exists x, y.
    destruct (Hval x y Hx Hy) as (E1 & E2 & E3 & E4).
    cbv zeta in Hin. rewrite E1, E2, E3, E4 in Hin.
    split; [lia |]. split; [lia |].
    destruct Hin as [Hin | [Hin | []]]; [left | right]; symmetry; exact Hin.
  - intros [x [y [Hx [Hy Hs]]]]. exists y. split; [apply In_zrange; lia |].
    apply in_flat_map. exists x. split; [apply In_zrange; lia |].
    destruct (Hval x y Hx Hy) as (E1 & E2 & E3 & E4).
    cbv zeta. rewrite E1, E2, E3, E4.
    destruct Hs as [-> | ->]; [left | right; left]; reflexivity.
Qed.

(** What [CreateTestNV12Data] returns, byte by byte. *)
Lemma pattern_bytes :
  let data := NV12Test.CreateTestNV12Data W H in
  Z.of_nat (length data) = NV12ToRGBAConverter.totalSize W H
  /\ (forall x y, 0 <= x < W -> 0 <= y < H ->
        byte_at data (y * W + x) = 16 + x * 219 / W)
  /\ (forall x y, 0 <= x < W / 2 -> 0 <= y < H / 2 ->
        byte_at data (W * H + y * W + 2 * x) = 16 + y * 224 / (H / 2)
        /\ byte_at data (W * H + y * W + 2 * x + 1)
           = 16 + x * 224 / (W / 2)).
Proof.
  cbv zeta. rewrite CreateTestNV12Data_stores.
  destruct pattern_sizes as (H0 & H1 & H2 & Ht & Hh & Hw0 & Hw2 & Hh0 & Hh2).
  set (stores := NV12Test.luma_stores W H ++ NV12Test.chroma_stores W H).
  set (zeros := repeat x00 (Z.to_nat (NV12ToRGBAConverter.totalSize W H))).
  assert (Hzl : Z.of_nat (length zeros) = W * H + W * H / 2).
  { unfold zeros. rewrite repeat_length, Ht. lia. }
  assert (Hcases : forall s, In s stores ->
            (exists x y, 0 <= x < W /\ 0 <= y < H
                         /\ s = (y * W + x, 16 + x * 219 / W))
            \/ (exists x y, 0 <= x < W / 2 /\ 0 <= y < H / 2
                  /\ (s = (W * H + y * W + 2 * x, 16 + y * 224 / (H / 2))
                      \/ s = (W * H + y * W + 2 * x + 1,
                              16 + x * 224 / (W / 2))))).
  { intros s Hs. apply in_app_or in Hs. destruct Hs as [Hs | Hs].
    - left. apply In_luma_stores. exact Hs.
    - right. apply In_chroma_stores. exact Hs. }
  destruct (byte_stores_spec stores zeros) as (Hlen & _ & Hset).
  { intros s Hs. rewrite Hzl.
    destruct (Hcases s Hs) as [(x & y & Hx & Hy & ->)
                              | (x & y & Hx & Hy & [-> | ->])];
      cbn [fst].
    - pose proof (flat_index_bound W H x y Hx Hy). lia.
    - pose proof (flat_index_bound W (H / 2) (2 * x) y ltac:(lia) Hy). lia.
    - pose proof (flat_index_bound W (H / 2) (2 * x + 1) y ltac:(lia) Hy).
      lia. }
  cbv zeta in Hlen, Hset.
  assert (Hsmall : forall a d, 0 <= a -> 1 <= d -> a < d ->
            forall c, 1 <= c -> (16 + a * c / d) mod 256 = 16 + a * c / d
                                \/ 239 < c).
  { intros a d Ha Hd Had c Hc. destruct (Z.le_gt_cases c 239) as [Hle | Hgt];
      [left | right; exact Hgt].
    apply Z.mod_small. split.
    - assert (0 <= a * c / d)
        by (apply Z.div_pos; [apply Z.mul_nonneg_nonneg |]; lia).
      lia.
    - assert (a * c / d < c).
      { apply Z.div_lt_upper_bound; [lia |].
        apply Z.mul_lt_mono_pos_r; lia. }
      lia. }
  split; [rewrite Hlen, Hzl, Ht; reflexivity |]. split.
  - intros x y Hx Hy.
    rewrite (Hset (y * W + x) (16 + x * 219 / W)).
    + destruct (Hsmall x W ltac:(lia) ltac:(lia) ltac:(lia) 219 ltac:(lia));
        [assumption | lia].
    + apply in_or_app. left. apply In_luma_stores. exists x, y. tauto.
    + intros v' Hv'.
      destruct (Hcases _ Hv') as [(x' & y' & Hx' & Hy' & E)
                                 | (x' & y' & Hx' & Hy' & [E | E])];
        apply pair_equal_spec in E; destruct E as [Ei Ev].
      * destruct (flat_index_inj W x y x' y'); try lia. subst. reflexivity.
      * exfalso. pose proof (flat_index_bound W H x y Hx Hy).
        pose proof (flat_index_bound W (H / 2) (2 * x') y' ltac:(lia) Hy').
        lia.
      * exfalso. pose proof (flat_index_bound W H x y Hx Hy).
        pose proof (flat_index_bound W (H / 2) (2 * x' + 1) y' ltac:(lia)
                      Hy').
        lia.
  - intros x y Hx Hy. split.
    + rewrite (Hset (W * H + y * W + 2 * x) (16 + y * 224 / (H / 2))).
      * destruct (Hsmall y (H / 2) ltac:(lia) ltac:(lia) ltac:(lia) 224
                         ltac:(lia)); [assumption | lia].
      * apply in_or_app. right. apply In_chroma_stores. exists x, y.
        split; [lia |]. split; [lia |]. left. reflexivity.
      * intros v' Hv'.
        destruct (Hcases _ Hv') as [(x' & y' & Hx' & Hy' & E)
                                   | (x' & y' & Hx' & Hy' & [E | E])];
          apply pair_equal_spec in E; destruct E as [Ei Ev].
        -- exfalso. pose proof (flat_index_bound W H x' y' Hx' Hy').
           pose proof (flat_index_bound W (H / 2) (2 * x) y ltac:(lia) Hy).
           lia.
        -- destruct (flat_index_inj W (2 * x) y (2 * x') y'); try lia.
           subst. reflexivity.
        -- exfalso.
           destruct (flat_index_inj W (2 * x) y (2 * x' + 1) y'); lia.
    + rewrite (Hset (W * H + y * W + 2 * x + 1) (16 + x * 224 / (W / 2))).
      * destruct (Hsmall x (W / 2) ltac:(lia) ltac:(lia) ltac:(lia) 224
                         ltac:(lia)); [assumption | lia].
      * apply in_or_app. right. apply In_chroma_stores. exists x, y.
        split; [lia |]. split; [lia |]. right. reflexivity.
      * intros v' Hv'.
        destruct (Hcases _ Hv') as [(x' & y' & Hx' & Hy' & E)
                                   | (x' & y' & Hx' & Hy' & [E | E])];
          apply pair_equal_spec in E; destruct E as [Ei Ev].
        -- exfalso. pose proof (flat_index_bound W H x' y' Hx' Hy').
           pose proof (flat_index_bound W (H / 2) (2 * x + 1) y ltac:(lia)
                         Hy).
           lia.
        -- exfalso.
           destruct (flat_index_inj W (2 * x + 1) y (2 * x') y'); lia.
        -- destruct (flat_index_inj W (2 * x + 1) y (2 * x' + 1) y');
             try lia.
           assert (x' = x) by lia. subst. reflexivity.
Qed.

End TestPattern.

(** X: for sizes below 2^24 whose buffer fits the [UINT] range,
    [CreateTestNV12Data] returns a buffer of [W * H * 3 / 2] bytes in
    which the luma of the pixel [(x, y)] is [16 + x * 219 / W], and the
    chroma pair of the block [(x, y)] is [16 + y * 224 / (H / 2)],
    [16 + x * 224 / (W / 2)]: all within the studio range.  These bytes
    are at the offsets from which the decode shader loads for the
    pixels of the block. *)
Theorem test_pattern_layout
    (unaligned_load : ByteAddressBuffer -> Z -> Z) (W H : Z) :
  1 <= W < 2 ^ 24 -> 1 <= H < 2 ^ 24 -> W * H * 3 / 2 < 2 ^ 32 ->
  let data := NV12Test.CreateTestNV12Data W H in
  Z.of_nat (length data) = W * H * 3 / 2
  /\ (forall x y, 0 <= x < W -> 0 <= y < H ->
        byte_at data (y * W + x) = 16 + x * 219 / W
        /\ 16 <= byte_at data (y * W + x) <= 234)
  /\ (forall x y, 0 <= x < W / 2 -> 0 <= y < H / 2 ->
        (byte_at data (W * H + y * W + 2 * x) = 16 + y * 224 / (H / 2)
         /\ 16 <= byte_at data (W * H + y * W + 2 * x) <= 239)
        /\ (byte_at data (W * H + y * W + 2 * x + 1)
            = 16 + x * 224 / (W / 2)
            /\ 16 <= byte_at data (W * H + y * W + 2 * x + 1) <= 239))
  /\ (forall px py, 0 <= px < 2 * (W / 2) -> 0 <= py < 2 * (H / 2) ->
        let f := Decode.fetch unaligned_load (NV12Host.params W H) data
                              (px, py) in
        byte_at data (Decode.yOffset f) = 16 + px * 219 / W
        /\ byte_at data (Decode.uvOffset f)
           = 16 + py / 2 * 224 / (H / 2)
        /\ byte_at data (Decode.uvOffset f + 1)
           = 16 + px / 2 * 224 / (W / 2)).
Proof.
  intros HW HH Hfit. cbv zeta.
  destruct (pattern_bytes W H HW HH Hfit) as (Hlen & Hluma & Hchroma).
  cbv zeta in Hlen, Hluma, Hchroma.
  destruct (pattern_sizes W H HW HH Hfit)
    as (H0 & H1 & H2 & Ht & Hh & Hw0 & Hw2 & Hh0 & Hh2).
  split; [rewrite Hlen, Ht; symmetry; apply three_halves |]. split.
  - intros x y Hx Hy. rewrite (Hluma x y Hx Hy). split; [reflexivity |].
    assert (0 <= x * 219 / W < 219).
    { split; [apply Z.div_pos; lia | apply Z.div_lt_upper_bound; lia]. }
    lia.
  - split.
    + intros x y Hx Hy. destruct (Hchroma x y Hx Hy) as [-> ->].
      assert (0 <= y * 224 / (H / 2) < 224).
      { split; [apply Z.div_pos; lia | apply Z.div_lt_upper_bound; lia]. }
      assert (0 <= x * 224 / (W / 2) < 224).
      { split; [apply Z.div_pos; lia | apply Z.div_lt_upper_bound; lia]. }
      split; (split; [reflexivity | lia]).
    + intros px py Hpx Hpy.
      assert (Hx2 : 0 <= px / 2 < W / 2).
      { split; [apply Z.div_pos; lia | apply Z.div_lt_upper_bound; lia]. }
      assert (Hy2 : 0 <= py / 2 < H / 2).
      { split; [apply Z.div_pos; lia | apply Z.div_lt_upper_bound; lia]. }
      pose proof (Z.div_mod px 2 ltac:(lia)) as Dx.
      assert (Hpx0 : 0 <= px < W) by lia.
      assert (Hpy0 : 0 <= py < H) by lia.
      pose proof (flat_index_bound W H px py Hpx0 Hpy0) as Bl.
      pose proof (flat_index_bound W (H / 2) px (py / 2) Hpx0 Hy2) as Bc.
      destruct (fetch_offsets unaligned_load (NV12Host.params W H)
                  (NV12Test.CreateTestNV12Data W H) px py
                  Hpx0 Hpy0 ltac:(cbn; lia) ltac:(cbn; lia)
                  ltac:(cbn [NV12Host.params YPlaneStride]; lia)
                  ltac:(cbn [NV12Host.params NV12ImageWidth NV12ImageHeight
                             UVPlaneStride]; lia)) as [Ey Euv].
      cbv zeta in Ey, Euv.
      cbn [NV12Host.params NV12ImageWidth NV12ImageHeight YPlaneStride
           UVPlaneStride] in Ey, Euv.
      rewrite Ey, Euv.
      replace (px - px mod 2) with (2 * (px / 2)) by lia.
      destruct (Hchroma (px / 2) (py / 2) Hx2 Hy2) as [EU EV].
      rewrite EU, EV. rewrite Hluma by lia. repeat split; reflexivity.
Qed.

Lemma test_pattern_layout_witness :
  let W := 8 in
  let H := 4 in
  let data := NV12Test.CreateTestNV12Data W H in
  Z.of_nat (length data) = W * H * 3 / 2
  /\ (forall x y, 0 <= x < W -> 0 <= y < H ->
        byte_at data (y * W + x) = 16 + x * 219 / W
        /\ 16 <= byte_at data (y * W + x) <= 234)
  /\ (forall x y, 0 <= x < W / 2 -> 0 <= y < H / 2 ->
        (byte_at data (W * H + y * W + 2 * x) = 16 + y * 224 / (H / 2)
         /\ 16 <= byte_at data (W * H + y * W + 2 * x) <= 239)
        /\ (byte_at data (W * H + y * W + 2 * x + 1)
            = 16 + x * 224 / (W / 2)
            /\ 16 <= byte_at data (W * H + y * W + 2 * x + 1) <= 239))
  /\ (forall px py, 0 <= px < 2 * (W / 2) -> 0 <= py < 2 * (H / 2) ->
        let f := Decode.fetch (fun _ _ => 0) (NV12Host.params W H) data
                              (px, py) in
        byte_at data (Decode.yOffset f) = 16 + px * 219 / W
        /\ byte_at data (Decode.uvOffset f)
           = 16 + py / 2 * 224 / (H / 2)
        /\ byte_at data (Decode.uvOffset f + 1)
           = 16 + px / 2 * 224 / (W / 2)).
Proof.
  apply (test_pattern_layout (fun _ _ => 0) 8 4).
  - lia.
  - lia.
  - vm_compute. reflexivity.
Defined.

(** ** [WriteNV12Data] *)

Lemma memcpy_planes (yPlaneData uvPlaneData : list byte) (n m : Z) :
  0 <= n -> 0 <= m ->
  n <= Z.of_nat (length yPlaneData) -> m <= Z.of_nat (length uvPlaneData) ->
  memcpy (memcpy (repeat x00 (Z.to_nat (n + m))) 0 yPlaneData n)
         n uvPlaneData m
  = firstn (Z.to_nat n) yPlaneData ++ firstn (Z.to_nat m) uvPlaneData.
Proof.
  intros Hn Hm Hy Huv. unfold memcpy.
  change (Z.to_nat 0) with 0%nat. cbn [firstn app].
  replace (0 + n) with n by lia.
  assert (Hl : length (firstn (Z.to_nat n) yPlaneData) = Z.to_nat n)
    by (rewrite length_firstn; lia).
  rewrite firstn_app, Hl, Nat.sub_diag, firstn_O, app_nil_r.
  rewrite firstn_all2 by lia.
  rewrite skipn_app, Hl.
  rewrite (skipn_all2 (firstn _ _)) by lia. cbn [app].
  rewrite skipn_skipn.
  rewrite skipn_all2 by (rewrite repeat_length; lia).
  rewrite app_nil_r. reflexivity.
Qed.

(** X: [WriteNV12Data] returns [E_INVALIDARG] and does nothing when a
    pointer is null.  Otherwise, for sizes that fit the [UINT] range,
    it copies into the buffer the first [W * H] bytes of the luma plane
    followed by the first [W * H / 2] bytes of the chroma plane,
    provided that both device calls succeed, and nothing if one fails;
    the staging buffer it created is released in either case.  Given
    the two halves of one NV12 buffer, as [RunNV12ConversionTest] gives
    them, it copies that buffer. *)
Theorem WriteNV12Data_uploads_planes (dev : NV12Host.Results)
    (yPlaneData uvPlaneData : list byte) (W H : Z) :
  1 <= W -> 1 <= H -> W * H * 3 / 2 < 2 ^ 32 ->
  W * H <= Z.of_nat (length yPlaneData) ->
  W * H / 2 <= Z.of_nat (length uvPlaneData) ->
  let ok := negb (FAILED (NV12Host.CreateBuffer_result dev))
            && SUCCEEDED (NV12Host.MapStaging_result dev) in
  let result :=
    NV12Host.WriteNV12Data dev true (Some yPlaneData) (Some uvPlaneData)
                           W H in
  snd (fst result)
  = (if ok
     then Some (firstn (Z.to_nat (W * H)) yPlaneData
                ++ firstn (Z.to_nat (W * H / 2)) uvPlaneData)
     else None)
  /\ (negb (FAILED (NV12Host.CreateBuffer_result dev)) = true ->
      In NV12Host.ReleaseStaging (snd result))
  /\ (forall nv12Data : list byte,
        Z.of_nat (length nv12Data) = W * H * 3 / 2 ->
        yPlaneData = nv12Data ->
        uvPlaneData = skipn (Z.to_nat (W * H)) nv12Data ->
        ok = true -> snd (fst result) = Some nv12Data)
  /\ (forall buffer y uv,
        buffer = false \/ y = None \/ uv = None ->
        NV12Host.WriteNV12Data dev buffer y uv W H
        = (E_INVALIDARG, None, [])).
Proof.
  intros HW HH Hfit Hy Huv. cbv zeta.
  assert (H0 : 0 <= W * H) by (apply Z.mul_nonneg_nonneg; lia).
  assert (H1 : 0 <= W * H / 2) by (apply Z.div_pos; lia).
  pose proof (three_halves (W * H)) as H3.
  assert (Hu : u32 (W * H) = W * H) by (apply u32_small; lia).
  assert (Ht : u32 (W * H + W * H / 2) = W * H + W * H / 2)
    by (apply u32_small; lia).
  assert (Hdata :
    snd (fst (NV12Host.WriteNV12Data dev true (Some yPlaneData)
                                     (Some uvPlaneData) W H))
    = if negb (FAILED (NV12Host.CreateBuffer_result dev))
         && SUCCEEDED (NV12Host.MapStaging_result dev)
      then Some (firstn (Z.to_nat (W * H)) yPlaneData
                 ++ firstn (Z.to_nat (W * H / 2)) uvPlaneData)
      else None).
  { unfold NV12Host.WriteNV12Data. cbv zeta. rewrite Hu, Ht.
    rewrite memcpy_planes by lia.
    destruct (FAILED (NV12Host.CreateBuffer_result dev));
      cbn [negb andb fst snd]; [reflexivity |].
    destruct (SUCCEEDED (NV12Host.MapStaging_result dev));
      cbn [fst snd]; [| reflexivity].
    f_equal. apply firstn_all2.
    rewrite length_app, !length_firstn. lia. }
  split; [exact Hdata |]. split; [| split].
  - unfold NV12Host.WriteNV12Data. cbv zeta.
    destruct (FAILED (NV12Host.CreateBuffer_result dev));
      cbn [negb]; [discriminate |]. intros _.
    destruct (SUCCEEDED (NV12Host.MapStaging_result dev)); cbn [snd In];
      tauto.
  - intros nv12Data Hl Ey Euv Hok. rewrite Hdata, Hok. f_equal.
    subst yPlaneData uvPlaneData.
    rewrite (firstn_all2 (n := Z.to_nat (W * H / 2)))
      by (rewrite length_skipn; lia).
    apply firstn_skipn.
  - intros buffer y uv [-> | [-> | ->]]; unfold NV12Host.WriteNV12Data.
    + reflexivity.
    + destruct buffer; reflexivity.
    + destruct buffer, y; reflexivity.
Qed.

Lemma WriteNV12Data_uploads_planes_witness :
  let dev := {| NV12Host.CreateBuffer_result := S_OK;
                NV12Host.MapStaging_result := S_OK;
                NV12Host.CreateInputUAV_result := S_OK;
                NV12Host.CreateOutputUAV_result := S_OK;
                NV12Host.MapConstantBuffer_result := S_OK |} in
  let yPlaneData := [x10; x20; x30; x40] in
  let uvPlaneData := [x80; x90; xa0] in
  let ok := negb (FAILED (NV12Host.CreateBuffer_result dev))
            && SUCCEEDED (NV12Host.MapStaging_result dev) in
  let result :=
    NV12Host.WriteNV12Data dev true (Some yPlaneData) (Some uvPlaneData)
                           2 2 in
  snd (fst result)
  = (if ok
     then Some (firstn (Z.to_nat (2 * 2)) yPlaneData
                ++ firstn (Z.to_nat (2 * 2 / 2)) uvPlaneData)
     else None)
  /\ (negb (FAILED (NV12Host.CreateBuffer_result dev)) = true ->
      In NV12Host.ReleaseStaging (snd result))
  /\ (forall nv12Data : list byte,
        Z.of_nat (length nv12Data) = 2 * 2 * 3 / 2 ->
        yPlaneData = nv12Data ->
        uvPlaneData = skipn (Z.to_nat (2 * 2)) nv12Data ->
        ok = true -> snd (fst result) = Some nv12Data)
  /\ (forall buffer y uv,
        buffer = false \/ y = None \/ uv = None ->
        NV12Host.WriteNV12Data dev buffer y uv 2 2
        = (E_INVALIDARG, None, [])).
Proof.
  apply (WriteNV12Data_uploads_planes
           {| NV12Host.CreateBuffer_result := S_OK;
              NV12Host.MapStaging_result := S_OK;
              NV12Host.CreateInputUAV_result := S_OK;
              NV12Host.CreateOutputUAV_result := S_OK;
              NV12Host.MapConstantBuffer_result := S_OK |}
           [x10; x20; x30; x40] [x80; x90; xa0] 2 2).
  - lia.
  - lia.
  - vm_compute. reflexivity.
  - vm_compute. discriminate.
  - vm_compute. discriminate.
Defined.

(** * Validation of the RGBA output *)

Lemma byte_not_above_255 (rgbaData : list byte) (i : Z) :
  (255 <? byte_at rgbaData i) = false.
Proof.
  apply Z.ltb_ge. unfold byte_at.
  pose proof (byte_val_range (nth (Z.to_nat i) rgbaData x00)). lia.
Qed.

(** The step [n / 4] of a loop over [0 .. n - 1]. *)
Lemma quarter_step (n : Z) :
  4 <= n -> 1 <= n / 4 /\ 4 * (n / 4) <= n /\ n < 8 * (n / 4).
Proof.
  intros Hn.
  pose proof (Z.div_mod n 4 ltac:(lia)).
  pose proof (Z.mod_pos_bound n 4 ltac:(lia)).
  lia.
Qed.

Lemma quarter_step_zero (n : Z) : 0 <= n < 4 -> n / 4 = 0.
Proof. intros Hn. apply Z.div_small. exact Hn. Qed.

Section RGBASamples.
Variables (rgbaData : list byte) (RowPitch width height : Z).

(** The alpha byte of the texel [(x, y)] in the mapped texture. *)
Local Abbreviation alpha x y := (byte_at rgbaData (y * RowPitch + 4 * x + 3)).

Lemma sample_row_invalid (fuel : nat) (testY testX : Z) :
  NV12Test.sample_row fuel rgbaData RowPitch width testY testX false
  = Some false.
Proof. destruct fuel; cbn [NV12Test.sample_row]; rewrite andb_false_r; reflexivity. Qed.

Lemma sample_row_done (fuel : nat) (testY testX : Z) (isValid : bool) :
  width <= testX ->
  NV12Test.sample_row fuel rgbaData RowPitch width testY testX isValid
  = Some isValid.
Proof.
  intros Hx.
  destruct fuel; cbn [NV12Test.sample_row];
    replace (testX <? width) with false by (symmetry; apply Z.ltb_ge; lia);
    reflexivity.
Qed.

(** One iteration of the inner loop, when no index wraps. *)
Lemma sample_row_step (fuel : nat) (testY testX : Z) :
  1 <= width -> 4 * width <= RowPitch ->
  0 <= testY -> testY * RowPitch + RowPitch <= 2 ^ 32 ->
  0 <= testX < width ->
  NV12Test.sample_row (S fuel) rgbaData RowPitch width testY testX true
  = NV12Test.sample_row fuel rgbaData RowPitch width testY
      (testX + width / 4) (alpha testX testY =? 255).
Proof.
  intros HW HP HY HS HX. cbn [NV12Test.sample_row].
  replace (testX <? width) with true by (symmetry; apply Z.ltb_lt; lia).
  cbn [andb].
  assert (Hrow : 0 <= testY * RowPitch)
    by (apply Z.mul_nonneg_nonneg; lia).
  assert (Hq : 0 <= width / 4 <= width).
  { split; [apply Z.div_pos; lia |].
    apply Z.div_le_upper_bound; lia. }
  rewrite (u32_small (testY * RowPitch)), (u32_small (testX * 4)) by lia.
  rewrite (u32_small (testY * RowPitch + testX * 4)) by lia.
  rewrite (u32_small (testY * RowPitch + testX * 4 + 1)) by lia.
  rewrite (u32_small (testY * RowPitch + testX * 4 + 2)) by lia.
  rewrite (u32_small (testY * RowPitch + testX * 4 + 3)) by lia.
  rewrite (u32_small (testX + width / 4)) by lia.
  rewrite !byte_not_above_255. cbn [orb].
  replace (testY * RowPitch + testX * 4 + 3)
    with (testY * RowPitch + 4 * testX + 3) by lia.
  destruct (alpha testX testY =? 255); reflexivity.
Qed.

(** The inner loop ends within [fuel] iterations, and leaves [isValid]
    set exactly when it was set and every sample of the row has alpha
    255. *)
Lemma sample_row_spec (testY : Z) (fuel : nat) :
  4 <= width -> 4 * width <= RowPitch ->
  0 <= testY -> testY * RowPitch + RowPitch <= 2 ^ 32 ->
  forall (testX : Z) (isValid : bool),
    0 <= testX -> width <= testX + Z.of_nat fuel * (width / 4) ->
    exists b,
      NV12Test.sample_row fuel rgbaData RowPitch width testY testX isValid
      = Some b
      /\ (b = true
          <-> isValid = true
              /\ forall k, 0 <= k -> testX + k * (width / 4) < width ->
                   alpha (testX + k * (width / 4)) testY = 255).
Proof.
  intros HW HP HY HS. destruct (quarter_step width HW) as (Hsx & _ & _).
  induction fuel as [| fuel IH]; intros testX isValid H0 Hfuel.
  - exists isValid. split; [apply sample_row_done; lia |].
    split; [| tauto]. intros ->. split; [reflexivity |].
    intros k Hk Hk'.
    assert (0 <= k * (width / 4)) by (apply Z.mul_nonneg_nonneg; lia).
    lia.
  - destruct (Z.lt_ge_cases testX width) as [Ex | Ex].
    2:{ exists isValid. split; [apply sample_row_done; lia |].
        split; [| tauto]. intros ->. split; [reflexivity |].
        intros k Hk Hk'.
        assert (0 <= k * (width / 4)) by (apply Z.mul_nonneg_nonneg; lia).
        lia. }
    destruct isValid.
    2:{ exists false. split; [apply sample_row_invalid |].
        split; [discriminate | intros [E _]; discriminate]. }
    rewrite sample_row_step by lia.
    destruct (IH (testX + width / 4) (alpha testX testY =? 255))
      as [b [Hb Hiff]]; [lia | lia |].
    exists b. split; [exact Hb |]. rewrite Hiff. split.
    + intros [Ha Hall]. split; [reflexivity |]. intros k Hk Hk'.
      destruct (Z.eq_dec k 0) as [-> | Hne].
      * replace (testX + 0 * (width / 4)) with testX by lia.
        apply Z.eqb_eq. exact Ha.
      * replace (testX + k * (width / 4))
          with (testX + width / 4 + (k - 1) * (width / 4)) by lia.
        apply Hall; lia.
    + intros [_ Hall]. split.
      * apply Z.eqb_eq.
        replace testX with (testX + 0 * (width / 4)) at 1 by lia.
        apply Hall; lia.
      * intros k Hk Hk'.
        replace (testX + width / 4 + k * (width / 4))
          with (testX + (k + 1) * (width / 4)) by lia.
        apply Hall; lia.
Qed.

(** Whatever the number of iterations allowed, the inner loop does not
    clear [isValid] on a row whose samples all have alpha 255. *)
Lemma sample_row_partial (testY : Z) (fuel : nat) :
  1 <= width -> 4 * width <= RowPitch ->
  0 <= testY -> testY * RowPitch + RowPitch <= 2 ^ 32 ->
  forall testX : Z,
    0 <= testX ->
    (forall k, 0 <= k -> testX + k * (width / 4) < width ->
       alpha (testX + k * (width / 4)) testY = 255) ->
    NV12Test.sample_row fuel rgbaData RowPitch width testY testX true = None
    \/ NV12Test.sample_row fuel rgbaData RowPitch width testY testX true
       = Some true.
Proof.
  intros HW HP HY HS.
  assert (Hq : 0 <= width / 4) by (apply Z.div_pos; lia).
  induction fuel as [| fuel IH]; intros testX H0 Hall.
  - cbn [NV12Test.sample_row]. destruct (testX <? width); cbn [andb]; tauto.
  - destruct (Z.lt_ge_cases testX width) as [Ex | Ex].
    2:{ right. apply sample_row_done. lia. }
    rewrite sample_row_step by lia.
    replace (alpha testX testY =? 255) with true.
    + apply IH; [lia |]. intros k Hk Hk'.
      replace (testX + width / 4 + k * (width / 4))
        with (testX + (k + 1) * (width / 4)) by lia.
      apply Hall; lia.
    + symmetry. apply Z.eqb_eq.
      replace testX with (testX + 0 * (width / 4)) at 1 by lia.
      apply Hall; lia.
Qed.

(** With a step of 0 the inner loop stays at the first sample. *)
Lemma sample_row_spins (fuel : nat) :
  1 <= width < 4 -> 4 * width <= RowPitch -> RowPitch <= 2 ^ 32 ->
  alpha 0 0 = 255 ->
  NV12Test.sample_row fuel rgbaData RowPitch width 0 0 true = None.
Proof.
  intros HW HP HR Ha. induction fuel as [| fuel IH].
  - cbn [NV12Test.sample_row].
    replace (0 <? width) with true by (symmetry; apply Z.ltb_lt; lia).
    reflexivity.
  - rewrite sample_row_step by lia.
    rewrite quarter_step_zero by lia. rewrite Ha. exact IH.
Qed.

Lemma sample_rows_invalid (fuel : nat) (testY : Z) :
  NV12Test.sample_rows fuel rgbaData RowPitch width height testY false
  = Some false.
Proof. destruct fuel; cbn [NV12Test.sample_rows]; rewrite andb_false_r; reflexivity. Qed.

Lemma sample_rows_done (fuel : nat) (testY : Z) (isValid : bool) :
  height <= testY ->
  NV12Test.sample_rows fuel rgbaData RowPitch width height testY isValid
  = Some isValid.
Proof.
  intros Hy.
  destruct fuel; cbn [NV12Test.sample_rows];
    replace (testY <? height) with false by (symmetry; apply Z.ltb_ge; lia);
    reflexivity.
Qed.

Section Terminating.
Hypothesis HW : 4 <= width.
Hypothesis HH : 4 <= height.
Hypothesis HP : 4 * width <= RowPitch.
Hypothesis HS : height * RowPitch < 2 ^ 32.

Lemma rows_fit (testY : Z) :
  0 <= testY < height ->
  testY * RowPitch + RowPitch <= 2 ^ 32 /\ height < 2 ^ 28.
Proof.
  intros Hy.
  assert ((testY + 1) * RowPitch <= height * RowPitch)
    by (apply Z.mul_le_mono_nonneg_r; lia).
  assert (height * 16 <= height * RowPitch)
    by (apply Z.mul_le_mono_nonneg_l; lia).
  lia.
Qed.

Lemma sample_rows_spec (fuel : nat) :
  forall (testY : Z) (isValid : bool),
    0 <= testY -> (8 <= fuel)%nat ->
    height <= testY + (Z.of_nat fuel - 8) * (height / 4) ->
    exists b,
      NV12Test.sample_rows fuel rgbaData RowPitch width height testY isValid
      = Some b
      /\ (b = true
          <-> isValid = true
              /\ forall i j, 0 <= i -> 0 <= j ->
                   i * (width / 4) < width ->
                   testY + j * (height / 4) < height ->
                   alpha (i * (width / 4)) (testY + j * (height / 4)) = 255).
Proof.
  destruct (quarter_step width HW) as (Hsx & Hw4 & Hw8).
  destruct (quarter_step height HH) as (Hsy & Hh4 & Hh8).
  induction fuel as [| fuel IH]; intros testY isValid H0 H8 Hfuel; [lia |].
  destruct (Z.lt_ge_cases testY height) as [Ey | Ey].
  2:{ exists isValid. split; [apply sample_rows_done; lia |].
      split; [| tauto]. intros ->. split; [reflexivity |].
      intros i j Hi Hj _ Hj'.
      assert (0 <= j * (height / 4)) by (apply Z.mul_nonneg_nonneg; lia).
      lia. }
  destruct isValid.
  2:{ exists false. split; [apply sample_rows_invalid |].
      split; [discriminate | intros [E _]; discriminate]. }
  assert (H8' : (8 <= fuel)%nat).
  { destruct (le_lt_dec 8 fuel) as [Hle | Hlt]; [exact Hle |]. exfalso.
    assert ((Z.of_nat (S fuel) - 8) * (height / 4) <= 0)
      by (apply Z.mul_nonpos_nonneg; lia).
    lia. }
  destruct (rows_fit testY ltac:(lia)) as [Hfit Hh28].
  destruct (sample_row_spec testY fuel HW HP H0 Hfit 0 true ltac:(lia))
    as [b0 [Hb0 Hiff0]].
  { assert (8 * (width / 4) <= Z.of_nat fuel * (width / 4))
      by (apply Z.mul_le_mono_nonneg_r; lia).
    lia. }
  cbn [NV12Test.sample_rows].
  replace (testY <? height) with true by (symmetry; apply Z.ltb_lt; lia).
  cbn [andb]. rewrite Hb0.
  rewrite (u32_small (testY + height / 4)) by lia.
  destruct (IH (testY + height / 4) b0) as [b [Hb Hiff]]; [lia | lia | lia |].
  exists b. split; [exact Hb |]. rewrite Hiff, Hiff0. split.
  - intros [[_ Hrow] Hall]. split; [reflexivity |]. intros i j Hi Hj Hi' Hj'.
    destruct (Z.eq_dec j 0) as [-> | Hne].
    + replace (testY + 0 * (height / 4)) with testY by lia.
      replace (i * (width / 4)) with (0 + i * (width / 4)) by lia.
      apply Hrow; lia.
    + replace (testY + j * (height / 4))
        with (testY + height / 4 + (j - 1) * (height / 4)) by lia.
      apply Hall; lia.
  - intros [_ Hall]. split.
    + split; [reflexivity |]. intros k Hk Hk'.
      replace testY with (testY + 0 * (height / 4)) by lia.
      replace (0 + k * (width / 4)) with (k * (width / 4)) by lia.
      apply Hall; lia.
    + intros i j Hi Hj Hi' Hj'.
      replace (testY + height / 4 + j * (height / 4))
        with (testY + (j + 1) * (height / 4)) by lia.
      apply Hall; lia.
Qed.

(** The result of the loops, given enough iterations. *)
Lemma samples_spec (fuel : nat) :
  (16 <= fuel)%nat ->
  exists b,
    NV12Test.ValidateRGBAOutput_samples fuel rgbaData RowPitch width height
    = Some b
    /\ (b = true
        <-> forall i j, 0 <= i -> 0 <= j ->
              i * (width / 4) < width -> j * (height / 4) < height ->
              alpha (i * (width / 4)) (j * (height / 4)) = 255).
Proof.
  intros Hf. destruct (quarter_step height HH) as (Hsy & Hh4 & Hh8).
  destruct (sample_rows_spec fuel 0 true ltac:(lia) ltac:(lia))
    as [b [Hb Hiff]].
  { assert (8 * (height / 4) <= (Z.of_nat fuel - 8) * (height / 4))
      by (apply Z.mul_le_mono_nonneg_r; lia).
    lia. }
  exists b. split; [exact Hb |]. rewrite Hiff. split.
  - intros [_ Hall] i j Hi Hj Hi' Hj'.
    replace (j * (height / 4)) with (0 + j * (height / 4)) by lia.
    apply Hall; lia.
  - intros Hall. split; [reflexivity |]. intros i j Hi Hj Hi' Hj'.
    replace (0 + j * (height / 4)) with (j * (height / 4)) by lia.
    apply Hall; lia.
Qed.

End Terminating.

(** With a step of 0 in either loop, the validation never leaves that
    loop while the samples of the first row have alpha 255. *)
Lemma sample_rows_spin (fuel : nat) :
  1 <= width -> 1 <= height -> 4 * width <= RowPitch -> RowPitch <= 2 ^ 32 ->
  width < 4 \/ height < 4 ->
  (forall i, 0 <= i -> i * (width / 4) < width ->
     alpha (i * (width / 4)) 0 = 255) ->
  NV12Test.sample_rows fuel rgbaData RowPitch width height 0 true = None.
Proof.
  intros HW HH HP HR Hsmall Hall.
  assert (Ha0 : alpha 0 0 = 255).
  { pose proof (Hall 0 ltac:(lia) ltac:(lia)) as Ha.
    replace (0 * (width / 4)) with 0 in Ha by lia. exact Ha. }
  induction fuel as [| fuel IH].
  - cbn [NV12Test.sample_rows].
    replace (0 <? height) with true by (symmetry; apply Z.ltb_lt; lia).
    reflexivity.
  - cbn [NV12Test.sample_rows].
    replace (0 <? height) with true by (symmetry; apply Z.ltb_lt; lia).
    cbn [andb].
    destruct (Z.lt_ge_cases width 4) as [Hw | Hw].
    + rewrite sample_row_spins by (assumption || lia). reflexivity.
    + destruct (sample_row_partial 0 fuel HW HP ltac:(lia) ltac:(lia) 0
                  ltac:(lia)) as [E | E].
      * intros k Hk Hk'.
        replace (0 + k * (width / 4)) with (k * (width / 4)) by lia.
        apply Hall; lia.
      * rewrite E. reflexivity.
      * rewrite E. rewrite quarter_step_zero by lia. exact IH.
Qed.

End RGBASamples.

(** X: for an image of at least 4 by 4 pixels whose mapped rows fit the
    [UINT] range, the two loops of [ValidateRGBAOutput] end, after at
    most 7 rows of at most 7 samples, and the validation passes exactly
    when the alpha byte is 255 at every sample point
    [(i * (width / 4), j * (height / 4))] of the image: the colour
    bytes are never a reason to fail. *)
Theorem rgba_validation_tests_alpha_only (rgbaData : list byte)
    (RowPitch width height : Z) (fuel : nat) :
  4 <= width -> 4 <= height -> 4 * width <= RowPitch ->
  height * RowPitch < 2 ^ 32 -> (16 <= fuel)%nat ->
  exists isValid : bool,
    NV12Test.ValidateRGBAOutput_samples fuel rgbaData RowPitch width height
    = Some isValid
    /\ (isValid = true
        <-> forall i j, 0 <= i -> 0 <= j ->
              i * (width / 4) < width -> j * (height / 4) < height ->
              byte_at rgbaData
                (j * (height / 4) * RowPitch + 4 * (i * (width / 4)) + 3)
              = 255).
Proof.
  intros HW HH HP HS Hf.
  exact (samples_spec rgbaData RowPitch width height HW HH HP HS fuel Hf).
Qed.

Lemma rgba_validation_tests_alpha_only_witness :
  exists isValid : bool,
    NV12Test.ValidateRGBAOutput_samples 16 (repeat xff 64) 16 4 4
    = Some isValid
    /\ (isValid = true
        <-> forall i j, 0 <= i -> 0 <= j ->
              i * (4 / 4) < 4 -> j * (4 / 4) < 4 ->
              byte_at (repeat xff 64)
                (j * (4 / 4) * 16 + 4 * (i * (4 / 4)) + 3)
              = 255).
Proof.
  apply (rgba_validation_tests_alpha_only (repeat xff 64) 16 4 4 16).
  - lia.
  - lia.
  - lia.
  - lia.
  - lia.
Defined.

(** X: for an image less than 4 pixels wide or high the step
    [width / 4] or [height / 4] is 0, and [ValidateRGBAOutput] never
    leaves its loops when the samples of the first row have alpha
    255. *)
Theorem rgba_validation_never_ends_below_4 (rgbaData : list byte)
    (RowPitch width height : Z) (fuel : nat) :
  1 <= width -> 1 <= height -> 4 * width <= RowPitch -> RowPitch < 2 ^ 32 ->
  width < 4 \/ height < 4 ->
  (forall i, 0 <= i -> i * (width / 4) < width ->
     byte_at rgbaData (0 * RowPitch + 4 * (i * (width / 4)) + 3) = 255) ->
  NV12Test.ValidateRGBAOutput_samples fuel rgbaData RowPitch width height
  = None.
Proof.
  intros HW HH HP HR Hsmall Hall.
  apply sample_rows_spin; try assumption. lia.
Qed.

Lemma rgba_validation_never_ends_below_4_witness :
  NV12Test.ValidateRGBAOutput_samples 1000 (repeat xff 96) 32 8 3 = None.
Proof.
  apply (rgba_validation_never_ends_below_4 (repeat xff 96) 32 8 3 1000).
  - lia.
  - lia.
  - lia.
  - lia.
  - right. lia.
  - intros i Hi Hlt. change (8 / 4) with 2 in *.
    assert (Hc : i = 0 \/ i = 1 \/ i = 2 \/ i = 3) by lia.
    destruct Hc as [-> | [-> | [-> | ->]]]; vm_compute; reflexivity.
Defined.

(** X: for an image of at least 4 by 4 pixels whose mapped rows fit
    the [UINT] range ([4 * W <= RowPitch] and [H * RowPitch < 2^32]),
    the output of the decode shader passes [ValidateRGBAOutput]:
    whatever the NV12 buffer holds and in whatever order the threads
    run, the validation of the mapped output texture ends with
    [isValid] set. *)
Theorem decoder_output_passes_rgba_validation {R : Rounding}
    (unaligned_load : ByteAddressBuffer -> Z -> Z) (W H : Z)
    (InputBuffer : ByteAddressBuffer) (order : list uint2)
    (OutputTexture : RGBA8Texture) (RowPitch : Z) (rgbaData : list byte)
    (fuel : nat) :
  4 <= W -> 4 <= H -> 4 * W <= RowPitch -> H * RowPitch < 2 ^ 32 ->
  Permutation order
    (dispatch_threads (NV12Host.dispatchX W) (NV12Host.dispatchY H)) ->
  mapped (apply_texel_stores OutputTexture
            (writes (Decode.CSMain unaligned_load (NV12Host.params W H)
                                   InputBuffer) order))
         W H RowPitch rgbaData ->
  (16 <= fuel)%nat ->
  NV12Test.ValidateRGBAOutput_samples fuel rgbaData RowPitch W H = Some true.
Proof.
  intros HW HH HP HS Hp Hmap Hf.
  destruct (samples_spec rgbaData RowPitch W H HW HH HP HS fuel Hf)
    as [b [Hb Hiff]].
  rewrite Hb. f_equal. apply Hiff. intros i j Hi Hj Hi' Hj'.
  assert (Hw28 : W < 2 ^ 30 /\ H < 2 ^ 28).
  { assert (H * 16 <= H * RowPitch)
      by (apply Z.mul_le_mono_nonneg_l; lia).
    assert (1 * RowPitch <= H * RowPitch)
      by (apply Z.mul_le_mono_nonneg_r; lia).
    lia. }
  assert (Hx : 0 <= i * (W / 4)).
  { apply Z.mul_nonneg_nonneg; [lia | apply Z.div_pos; lia]. }
  assert (Hy : 0 <= j * (H / 4)).
  { apply Z.mul_nonneg_nonneg; [lia | apply Z.div_pos; lia]. }
  rewrite (Hmap (i * (W / 4)) (j * (H / 4)) 3) by lia.
  rewrite (decode_texel_after_dispatch unaligned_load W H InputBuffer)
    by (assumption || lia).
  replace (i * (W / 4) <? W) with true by (symmetry; apply Z.ltb_lt; lia).
  replace (j * (H / 4) <? H) with true by (symmetry; apply Z.ltb_lt; lia).
  reflexivity.
Qed.

Lemma decoder_output_passes_rgba_validation_witness :
  let InputBuffer : ByteAddressBuffer := repeat x80 24 in
  let OutputTexture :=
    apply_texel_stores (fun _ _ => [0; 0; 0; 0])
      (writes (Decode.CSMain (R := exact) (fun _ _ => 0)
                             (NV12Host.params 4 4) InputBuffer)
              (dispatch_threads (NV12Host.dispatchX 4)
                                (NV12Host.dispatchY 4))) in
  let rgbaData :=
    flat_map (fun y => flat_map (fun x => map byte_of_Z (OutputTexture x y))
                                (zrange 4))
             (zrange 4) in
  NV12Test.ValidateRGBAOutput_samples 16 rgbaData 16 4 4 = Some true.
Proof.
  cbv zeta.
  apply (decoder_output_passes_rgba_validation (R := exact) (fun _ _ => 0)
           4 4 (repeat x80 24)
           (dispatch_threads (NV12Host.dispatchX 4) (NV12Host.dispatchY 4))
           (fun _ _ => [0; 0; 0; 0]) 16).
  - lia.
  - lia.
  - lia.
  - lia.
  - apply Permutation_refl.
  - intros x y c Hx Hy Hc.
    assert (Hxs : x = 0 \/ x = 1 \/ x = 2 \/ x = 3) by lia.
    assert (Hys : y = 0 \/ y = 1 \/ y = 2 \/ y = 3) by lia.
    assert (Hcs : c = 0 \/ c = 1 \/ c = 2 \/ c = 3) by lia.
    destruct Hxs as [-> | [-> | [-> | ->]]];
      destruct Hys as [-> | [-> | [-> | ->]]];
      destruct Hcs as [-> | [-> | [-> | ->]]];
      vm_compute; reflexivity.
  - lia.
Defined.

(** ** Gray levels in binary32 arithmetic *)

(** X: in binary32 arithmetic, for each of the 256 gray levels [k] and
    either variant of the encode shader: a texel whose three colour
    bytes are [k] gets the neutral chroma bytes 128, 128, and decoding
    its macropixel gives a gray texel at most one level away from
    [k]. *)
Theorem gray_round_trip (fmt : DXGI_FORMAT) (k a : Z) :
  0 <= k <= 255 ->
  let pixel := texel_fetch (R := binary32) fmt [k; k; k; a] in
  let m := Encode.encode_pair (R := binary32) pixel pixel in
  let m' := EncodeMatrix.encode_pair (R := binary32) pixel pixel in
  (Encode.U m = 128 /\ Encode.V m = 128
   /\ exists g, round_trip (R := binary32) pixel = (g, g, g)
                /\ Z.abs (g - k) <= 1)
  /\ (Encode.U m' = 128 /\ Encode.V m' = 128
      /\ exists g, round_trip_matrix (R := binary32) pixel = (g, g, g)
                   /\ Z.abs (g - k) <= 1).
Proof.
  intros Hk. cbv zeta. rewrite texel_fetch_gray.
  set (pixel := fun k : Z =>
         F4.mk (unorm8_to_float (R := binary32) k) (unorm8_to_float k)
               (unorm8_to_float k) (unorm8_to_float a)).
  change (F4.mk _ _ _ _) with (pixel k).
  assert (Hcheck :
    forallb
      (fun k =>
         let p := F4.mk (unorm8_to_float (R := binary32) k)
                        (unorm8_to_float k) (unorm8_to_float k) 0 in
         let m := Encode.encode_pair (R := binary32) p p in
         let m' := EncodeMatrix.encode_pair (R := binary32) p p in
         let c := round_trip (R := binary32) p in
         let c' := round_trip_matrix (R := binary32) p in
         (Encode.U m =? 128) && (Encode.V m =? 128)
         && (fst (fst c) =? snd c) && (snd (fst c) =? snd c)
         && (Z.abs (snd c - k) <=? 1)
         && (Encode.U m' =? 128) && (Encode.V m' =? 128)
         && (fst (fst c') =? snd c') && (snd (fst c') =? snd c')
         && (Z.abs (snd c' - k) <=? 1))
      (zrange 256) = true) by (vm_compute; reflexivity).
  apply (forallb_zrange _ 256 k) in Hcheck; [| lia]. cbv zeta in Hcheck.
  (* alpha takes no part in the conversion *)
  change (Encode.encode_pair (pixel k) (pixel k))
    with (Encode.encode_pair
            (F4.mk (unorm8_to_float (R := binary32) k) (unorm8_to_float k)
                   (unorm8_to_float k) 0)
            (F4.mk (unorm8_to_float (R := binary32) k) (unorm8_to_float k)
                   (unorm8_to_float k) 0)).
  change (EncodeMatrix.encode_pair (pixel k) (pixel k))
    with (EncodeMatrix.encode_pair
            (F4.mk (unorm8_to_float (R := binary32) k) (unorm8_to_float k)
                   (unorm8_to_float k) 0)
            (F4.mk (unorm8_to_float (R := binary32) k) (unorm8_to_float k)
                   (unorm8_to_float k) 0)).
  change (round_trip (pixel k))
    with (round_trip
            (F4.mk (unorm8_to_float (R := binary32) k) (unorm8_to_float k)
                   (unorm8_to_float k) 0)).
  change (round_trip_matrix (pixel k))
    with (round_trip_matrix
            (F4.mk (unorm8_to_float (R := binary32) k) (unorm8_to_float k)
                   (unorm8_to_float k) 0)).
  repeat rewrite andb_true_iff in Hcheck.
  destruct Hcheck as [[[[[[[[[H1 H2] H3] H4] H5] H6] H7] H8] H9] H10].
  apply Z.eqb_eq in H1, H2, H3, H4, H6, H7, H8, H9.
  apply Z.leb_le in H5, H10.
  split; (split; [assumption | split; [assumption |]]).
  - destruct (round_trip _) as [[r g] b]. cbn [fst snd] in *.
    exists b. subst r g. split; [reflexivity | exact H5].
  - destruct (round_trip_matrix _) as [[r g] b]. cbn [fst snd] in *.
    exists b. subst r g. split; [reflexivity | exact H10].
Qed.

Lemma gray_round_trip_witness :
  let pixel :=
    texel_fetch (R := binary32) DXGI_FORMAT_B8G8R8A8_UNORM
                [200; 200; 200; 255] in
  let m := Encode.encode_pair (R := binary32) pixel pixel in
  let m' := EncodeMatrix.encode_pair (R := binary32) pixel pixel in
  (Encode.U m = 128 /\ Encode.V m = 128
   /\ exists g, round_trip (R := binary32) pixel = (g, g, g)
                /\ Z.abs (g - 200) <= 1)
  /\ (Encode.U m' = 128 /\ Encode.V m' = 128
      /\ exists g, round_trip_matrix (R := binary32) pixel = (g, g, g)
                   /\ Z.abs (g - 200) <= 1).
Proof.
  apply (gray_round_trip DXGI_FORMAT_B8G8R8A8_UNORM 200 255). lia.
Defined.

(** X: in binary32 arithmetic, every luma code of the studio range
    with neutral chroma survives a decode followed by an encode, with
    either variant of the encode shader: the decoded texel is gray and
    its macropixel is the luma code again, with chroma 128, 128. *)
Theorem luma_code_round_trip (fmt : DXGI_FORMAT) (y a : Z) :
  16 <= y <= 235 ->
  exists g : Z,
    decode_bytes (R := binary32) y 128 128 = (g, g, g)
    /\ let pixel := texel_fetch (R := binary32) fmt [g; g; g; a] in
       Encode.encode_pair (R := binary32) pixel pixel
       = {| Encode.Y0 := y; Encode.U := 128; Encode.Y1 := y;
            Encode.V := 128 |}
       /\ EncodeMatrix.encode_pair (R := binary32) pixel pixel
          = {| Encode.Y0 := y; Encode.U := 128; Encode.Y1 := y;
               Encode.V := 128 |}.
Proof.
  intros Hy.
  assert (Hcheck :
    forallb
      (fun k =>
         let y := k + 16 in
         let c := decode_bytes (R := binary32) y 128 128 in
         let g := snd c in
         let p := F4.mk (unorm8_to_float (R := binary32) g)
                        (unorm8_to_float g) (unorm8_to_float g) 0 in
         let m := Encode.encode_pair (R := binary32) p p in
         let m' := EncodeMatrix.encode_pair (R := binary32) p p in
         (fst (fst c) =? g) && (snd (fst c) =? g)
         && (Encode.Y0 m =? y) && (Encode.U m =? 128)
         && (Encode.Y1 m =? y) && (Encode.V m =? 128)
         && (Encode.Y0 m' =? y) && (Encode.U m' =? 128)
         && (Encode.Y1 m' =? y) && (Encode.V m' =? 128))
      (zrange 220) = true) by (vm_compute; reflexivity).
  apply (forallb_zrange _ 220 (y - 16)) in Hcheck; [| lia].
  cbv beta zeta in Hcheck. replace (y - 16 + 16) with y in Hcheck by lia.
  repeat rewrite andb_true_iff in Hcheck.
  destruct Hcheck as [[[[[[[[[H1 H2] H3] H4] H5] H6] H7] H8] H9] H10].
  apply Z.eqb_eq in H1, H2, H3, H4, H5, H6, H7, H8, H9, H10.
  exists (snd (decode_bytes (R := binary32) y 128 128)). split.
  - revert H1 H2. destruct (decode_bytes y 128 128) as [[r g] b].
    cbn [fst snd]. intros -> ->. reflexivity.
  - cbv zeta. rewrite texel_fetch_gray.
    set (g := snd (decode_bytes y 128 128)) in *.
    change (Encode.encode_pair
              (F4.mk (unorm8_to_float g) (unorm8_to_float g)
                     (unorm8_to_float g) (unorm8_to_float a))
              (F4.mk (unorm8_to_float g) (unorm8_to_float g)
                     (unorm8_to_float g) (unorm8_to_float a)))
      with (Encode.encode_pair
              (F4.mk (unorm8_to_float (R := binary32) g) (unorm8_to_float g)
                     (unorm8_to_float g) 0)
              (F4.mk (unorm8_to_float (R := binary32) g) (unorm8_to_float g)
                     (unorm8_to_float g) 0)).
    change (EncodeMatrix.encode_pair
              (F4.mk (unorm8_to_float g) (unorm8_to_float g)
                     (unorm8_to_float g) (unorm8_to_float a))
              (F4.mk (unorm8_to_float g) (unorm8_to_float g)
                     (unorm8_to_float g) (unorm8_to_float a)))
      with (EncodeMatrix.encode_pair
              (F4.mk (unorm8_to_float (R := binary32) g) (unorm8_to_float g)
                     (unorm8_to_float g) 0)
              (F4.mk (unorm8_to_float (R := binary32) g) (unorm8_to_float g)
                     (unorm8_to_float g) 0)).
    split.
    + revert H3 H4 H5 H6. destruct (Encode.encode_pair _ _) as [y0 u y1 v].
      cbn [Encode.Y0 Encode.U Encode.Y1 Encode.V]. congruence.
    + revert H7 H8 H9 H10.
      destruct (EncodeMatrix.encode_pair _ _) as [y0 u y1 v].
      cbn [Encode.Y0 Encode.U Encode.Y1 Encode.V]. congruence.
Qed.

Lemma luma_code_round_trip_witness :
  exists g : Z,
    decode_bytes (R := binary32) 100 128 128 = (g, g, g)
    /\ let pixel :=
         texel_fetch (R := binary32) DXGI_FORMAT_R8G8B8A8_UNORM
                     [g; g; g; 255] in
       Encode.encode_pair (R := binary32) pixel pixel
       = {| Encode.Y0 := 100; Encode.U := 128; Encode.Y1 := 100;
            Encode.V := 128 |}
       /\ EncodeMatrix.encode_pair (R := binary32) pixel pixel
          = {| Encode.Y0 := 100; Encode.U := 128; Encode.Y1 := 100;
               Encode.V := 128 |}.
Proof.
  apply (luma_code_round_trip DXGI_FORMAT_R8G8B8A8_UNORM 100 255). lia.
Defined.
